(** * Lifecycle manager and HTTP routing core of the backend framework

    A shallow embedding of the classes
    - [ModuleManager]     (core/module-manager.ts),
    - [MiddlewareManager] (core/middleware-manager.ts),
    - [RouteManager]      (modules/api/route-manager.ts),
    - [HttpServer]        (modules/api/http-server.ts, the version that is
                           built on node's [http]),
    followed by the properties of the specification that concern them.

    JavaScript [Map]s are insertion ordered and the code iterates over
    them, so they are association lists here; the [Set]s that are only
    ever asked [has] are [gset]s; a [Set] that is iterated is a
    duplicate-free list; a plain object is the list of its own
    properties in the order the language lists them.  Calls into user code (module hooks, middleware,
    route handlers) are recorded in a trace. *)

From stdpp Require Import gmap strings list relations sorting.
From Stdlib Require Import ZArith Ascii.

Open Scope string_scope.
Open Scope list_scope.
Open Scope nat_scope.

Set Warnings "-register-all,-clear-no-such-hyp".

(** ** Errors and outcomes *)

(** Values that the code throws.  Each constructor of the first group is
    one [new Error(`...`)] of the source, with the holes of its template
    as arguments. *)
Inductive error : Type :=
| Error_ModuleAlreadyRegistered (name : string)
    (* Module '${name}' is already registered *)
| Error_ModuleNotFound (name : string)
    (* Module '${name}' not found *)
| Error_ModuleRequiredBy (name : string) (dependents : list string)
    (* Cannot unregister module '${name}' - it is required by: ... *)
| Error_MissingDependency (moduleName dependency : string)
    (* Module '${moduleName}' depends on '${dependency}' which is not registered *)
| Error_CircularInvolving (moduleName : string)
    (* Circular dependency detected involving module '${moduleName}' *)
| Error_CircularFor (moduleName : string)
    (* Circular dependency detected for module '${moduleName}' *)
| Error_MiddlewareAlreadyRegistered (name : string)
    (* Middleware '${name}' is already registered *)
| Error_MiddlewareNotFound (name : string)
    (* Middleware '${name}' not found *)
| Error_RouteAlreadyRegistered (routeKey : string)
    (* Route ${routeKey} is already registered *)
| Error_RouteGroupExists (prefix : string)
    (* Route group '${prefix}' already exists *)
| Error_Stream (message : string)
    (* new Error(error.message) of a failed request stream *)
| TypeError (message : string)
    (* raised by the runtime: calling what is not a function, invalid URL *)
| SyntaxError
    (* raised by JSON.parse *)
| ERR_HTTP_HEADERS_SENT
    (* raised by ServerResponse.setHeader once the response has ended *)
| ERR_INVALID_HTTP_TOKEN (name : string)
    (* raised by ServerResponse.setHeader on a name that is not a token *)
| ERR_INVALID_CHAR (name : string)
    (* raised by ServerResponse.setHeader on a value with a control character *)
| ERR_HTTP_INVALID_STATUS_CODE (code : Z)
    (* raised by ServerResponse.writeHead on a status outside 100..999 *)
| Thrown (payload : string).
    (* whatever a module hook, a middleware or a route handler throws *)

(** A call either returns, throws, or (in the model only) runs out of the
    fuel that bounds a recursion the source leaves unbounded.  The fuel
    handed out is always enough: [detectCircularDependencies_total],
    [getInitialisationOrder_total], [next_cursor_inv] and [next_total]. *)
Inductive outcome (A : Type) : Type :=
| Ok (a : A)
| Throw (e : error)
| OutOfFuel.
Arguments Ok {A} a.
Arguments Throw {A} e.
Arguments OutOfFuel {A}.

#[global] Instance outcome_ret : MRet outcome := λ A a, Ok a.
#[global] Instance outcome_bind : MBind outcome := λ A B f m,
  match m with
  | Ok a => f a
  | Throw e => Throw e
  | OutOfFuel => OutOfFuel
  end.

(** [for (const x of l) body(x)] over a mutable state [s]; a throw leaves
    the loop. *)
Fixpoint for_each {A S : Type} (body : A → S → outcome S) (l : list A) (s : S)
  : outcome S :=
  match l with
  | [] => Ok s
  | x :: l' => s' ← body x s; for_each body l' s'
  end.

(** ** JavaScript containers *)

(** [Map<string, V>]: entries in insertion order, keys unique. *)
Fixpoint map_get {V : Type} (m : list (string * V)) (k : string) : option V :=
  match m with
  | [] => None
  | (k', v) :: m' => if decide (k' = k) then Some v else map_get m' k
  end.

Definition map_has {V : Type} (m : list (string * V)) (k : string) : bool :=
  match map_get m k with
  | Some _ => true
  | None => false
  end.

(** [Map.set]: an existing key keeps its place and takes the new value, a
    new key goes last. *)
Fixpoint map_set {V : Type} (m : list (string * V)) (k : string) (v : V)
  : list (string * V) :=
  match m with
  | [] => [(k, v)]
  | (k', v') :: m' =>
      if decide (k' = k) then (k, v) :: m' else (k', v') :: map_set m' k v
  end.

Definition map_delete {V : Type} (m : list (string * V)) (k : string)
  : list (string * V) :=
  filter (λ kv, kv.1 ≠ k) m.

Definition map_keys {V : Type} (m : list (string * V)) : list string := m.*1.

Definition map_values {V : Type} (m : list (string * V)) : list V := m.*2.

(** [new Set(array)] as it is iterated: first occurrences, in order. *)
Fixpoint Set_of (l : list string) : list string :=
  match l with
  | [] => []
  | x :: l' => x :: filter (λ y, y ≠ x) (Set_of l')
  end.

(** ** [ModuleManager] *)

Module ModuleManager.

Section Lifecycle.

(** Everything outside the manager that module hooks read and write. *)
Context {W : Type}.

(** [IModule]: a hook takes the world to a new world and either returns
    ([None]) or throws. *)
Record IModule : Type := {
  m_name : string;
  m_version : string;
  m_dependencies : list string;
  m_initialise : W → W * option error;
  m_shutdown : W → W * option error;
  m_isEnabled : W → bool
}.

(** What the manager does to the modules, in order. *)
Inductive event : Type :=
| IsEnabled (name : string) (answer : bool)
| InitialiseCalled (name : string)
| InitialiseReturned (name : string)
| InitialiseThrew (name : string) (e : error)
| ShutdownCalled (name : string)
| ShutdownReturned (name : string)
| ShutdownThrew (name : string) (e : error)
| Warned (message : string).

(** The three fields of [ModuleManager] (the logger apart). *)
Record t : Type := {
  modules : list (string * IModule);
  dependencyGraph : list (string * list string);
  isInitialised : bool
}.

Definition new : t :=
  {| modules := []; dependencyGraph := []; isInitialised := false |}.

Definition buildDependencyGraph (module : IModule)
  (g : list (string * list string)) : list (string * list string) :=
  map_set g (m_name module) (Set_of (m_dependencies module)).

Definition register (module : IModule) (mm : t)
  : outcome t :=
  if map_has (modules mm) (m_name module)
  then Throw (Error_ModuleAlreadyRegistered (m_name module))
  else Ok {| modules := map_set (modules mm) (m_name module) module;
             dependencyGraph := buildDependencyGraph module (dependencyGraph mm);
             isInitialised := isInitialised mm |}.

Definition findDependents (g : list (string * list string)) (moduleName : string)
  : list string :=
  (filter (λ entry, moduleName ∈ entry.2) g).*1.

Definition unregister (moduleName : string) (mm : t)
  : outcome t :=
  match map_get (modules mm) moduleName with
  | None => Throw (Error_ModuleNotFound moduleName)
  | Some _ =>
      let dependents := findDependents (dependencyGraph mm) moduleName in
      if decide (0 < length dependents)
      then Throw (Error_ModuleRequiredBy moduleName dependents)
      else Ok {| modules := map_delete (modules mm) moduleName;
                 dependencyGraph := map_delete (dependencyGraph mm) moduleName;
                 isInitialised := isInitialised mm |}
  end.

Definition get (moduleName : string) (mm : t) : option IModule :=
  map_get (modules mm) moduleName.

Definition getAll (mm : t) : list IModule := map_values (modules mm).

(** Every name the two traversals can meet: the keys of the graph and
    whatever they list as dependencies.  The recursion of [visit] nests at
    most this deep, which is the fuel it gets. *)
Definition graph_names (g : list (string * list string)) : gset string :=
  list_to_set (g.*1 ++ mjoin g.*2).

Definition traversal_fuel (g : list (string * list string)) : nat :=
  S (size (graph_names g)).

(** *** [detectCircularDependencies] *)

Record detect_state : Type := {
  d_visited : gset string;
  recursionStack : gset string
}.

(** The body of the [for] loop inside the [visit] closure: it throws when
    the call on the dependency answers [true]. *)
Definition detect_step
  (visit : string → detect_state → outcome (bool * detect_state))
  (moduleName dependency : string) (s : detect_state) : outcome detect_state :=
  '(cyclic, s') ← visit dependency s;
  if cyclic : bool then Throw (Error_CircularInvolving moduleName) else Ok s'.

(** The inner [visit] closure; the boolean is its return value. *)
Fixpoint detect_visit (fuel : nat) (g : list (string * list string))
  (moduleName : string) (s : detect_state) : outcome (bool * detect_state) :=
  match fuel with
  | O => OutOfFuel
  | S fuel' =>
      if decide (moduleName ∈ recursionStack s) then Ok (true, s)
      else if decide (moduleName ∈ d_visited s) then Ok (false, s)
      else
        let s1 := {| d_visited := d_visited s ∪ {[moduleName]};
                     recursionStack := recursionStack s ∪ {[moduleName]} |} in
        let dependencies := default [] (map_get g moduleName) in
        s2 ← for_each (detect_step (detect_visit fuel' g) moduleName)
               dependencies s1;
        Ok (false, {| d_visited := d_visited s2;
                      recursionStack := recursionStack s2 ∖ {[moduleName]} |})
  end.

Definition detectCircularDependencies (mm : t) : outcome unit :=
  let g := dependencyGraph mm in
  s ← for_each
        (λ moduleName s,
           if decide (moduleName ∈ d_visited s) then Ok s
           else '(_, s') ← detect_visit (traversal_fuel g) g moduleName s; Ok s')
        (map_keys (modules mm))
        {| d_visited := ∅; recursionStack := ∅ |};
  Ok ().

Definition validateDependencies (mm : t) : outcome unit :=
  _ ← for_each
        (λ entry (_ : unit),
           for_each
             (λ dependency (_ : unit),
                if map_has (modules mm) dependency then Ok ()
                else Throw (Error_MissingDependency entry.1 dependency))
             entry.2 ())
        (dependencyGraph mm) ();
  detectCircularDependencies mm.

(** *** [getInitialisationOrder] *)

Record sort_state : Type := {
  sorted : list string;
  visited : gset string;
  visiting : gset string
}.

Fixpoint visit (fuel : nat) (g : list (string * list string))
  (moduleName : string) (s : sort_state) : outcome sort_state :=
  match fuel with
  | O => OutOfFuel
  | S fuel' =>
      if decide (moduleName ∈ visiting s) then Throw (Error_CircularFor moduleName)
      else if decide (moduleName ∈ visited s) then Ok s
      else
        let s1 := {| sorted := sorted s;
                     visited := visited s;
                     visiting := visiting s ∪ {[moduleName]} |} in
        let dependencies := default [] (map_get g moduleName) in
        s2 ← for_each (visit fuel' g) dependencies s1;
        Ok {| sorted := sorted s2 ++ [moduleName];
              visited := visited s2 ∪ {[moduleName]};
              visiting := visiting s2 ∖ {[moduleName]} |}
  end.

Definition getInitialisationOrder (mm : t) : outcome (list string) :=
  let g := dependencyGraph mm in
  s ← for_each
        (λ moduleName s,
           if decide (moduleName ∈ visited s) then Ok s
           else visit (traversal_fuel g) g moduleName s)
        (map_keys (modules mm))
        {| sorted := []; visited := ∅; visiting := ∅ |};
  Ok (sorted s).

(** *** [initialise] and [shutdown] *)

(** The [for] loop of [initialise].  [module?.isEnabled()] of a name that
    has no module is [undefined], and the name is passed over. *)
Fixpoint initialise_loop (mods : list (string * IModule))
  (initOrder : list string) (w : W) : outcome unit * W * list event :=
  match initOrder with
  | [] => (Ok (), w, [])
  | moduleName :: rest =>
      match map_get mods moduleName with
      | None => initialise_loop mods rest w
      | Some module =>
          if m_isEnabled module w then
            match m_initialise module w with
            | (w', None) =>
                let '(r, w'', tr) := initialise_loop mods rest w' in
                (r, w'',
                 IsEnabled moduleName true :: InitialiseCalled moduleName
                   :: InitialiseReturned moduleName :: tr)
            | (w', Some e) =>
                (Throw e, w',
                 [IsEnabled moduleName true; InitialiseCalled moduleName;
                  InitialiseThrew moduleName e])
            end
          else
            let '(r, w'', tr) := initialise_loop mods rest w in
            (r, w'', IsEnabled moduleName false :: tr)
      end
  end.

(** The result of a call, the manager and the world after it, and what
    was done to the modules meanwhile. *)
Definition initialise (mm : t) (w : W)
  : outcome unit * t * W * list event :=
  if isInitialised mm
  then (Ok (), mm, w, [Warned "Module manager already initialised"])
  else
    match validateDependencies mm with
    | Throw e => (Throw e, mm, w, [])
    | OutOfFuel => (OutOfFuel, mm, w, [])
    | Ok _ =>
        match getInitialisationOrder mm with
        | Throw e => (Throw e, mm, w, [])
        | OutOfFuel => (OutOfFuel, mm, w, [])
        | Ok initOrder =>
            match initialise_loop (modules mm) initOrder w with
            | (Ok _, w', tr) =>
                (Ok (),
                 {| modules := modules mm;
                    dependencyGraph := dependencyGraph mm;
                    isInitialised := true |},
                 w', tr)
            | (r, w', tr) => (r, mm, w', tr)
            end
        end
    end.

(** The [for] loop of [shutdown]: every name that has a module gets its
    hook called; a throw is logged and the loop goes on. *)
Fixpoint shutdown_loop (mods : list (string * IModule))
  (initOrder : list string) (w : W) : W * list event :=
  match initOrder with
  | [] => (w, [])
  | moduleName :: rest =>
      match map_get mods moduleName with
      | None => shutdown_loop mods rest w
      | Some module =>
          let '(w', thrown) := m_shutdown module w in
          let '(w'', tr) := shutdown_loop mods rest w' in
          (w'',
           ShutdownCalled moduleName
             :: match thrown with
                | None => ShutdownReturned moduleName
                | Some e => ShutdownThrew moduleName e
                end
             :: tr)
      end
  end.

Definition shutdown (mm : t) (w : W)
  : outcome unit * t * W * list event :=
  if negb (isInitialised mm)
  then (Ok (), mm, w, [Warned "Module manager not initialised"])
  else
    match getInitialisationOrder mm with
    | Throw e => (Throw e, mm, w, [])
    | OutOfFuel => (OutOfFuel, mm, w, [])
    | Ok order =>
        let initOrder := reverse order in
        let '(w', tr) := shutdown_loop (modules mm) initOrder w in
        (Ok (),
         {| modules := modules mm;
            dependencyGraph := dependencyGraph mm;
            isInitialised := false |},
         w', tr)
    end.

End Lifecycle.

Arguments IModule W : clear implicits.
Arguments t W : clear implicits.


(** ** Vocabulary of the specification *)

(** [m] lists [d] among its dependencies. *)
Definition edge (g : list (string * list string)) (m d : string) : Prop :=
  ∃ deps, map_get g m = Some deps ∧ d ∈ deps.

(** No module reaches itself along one or more dependency edges. *)
Definition acyclic (g : list (string * list string)) : Prop :=
  ∀ n, ¬ tc (edge g) n n.

(** Every element of [l] comes after all of its dependencies. *)
Definition topo_sorted (g : list (string * list string)) (l : list string) : Prop :=
  ∀ l1 m l2, l = l1 ++ m :: l2 → ∀ d, edge g m d → d ∈ l1.

(** What holds of the state of [getInitialisationOrder] between two
    calls of [visit]. *)
Definition sort_inv (g : list (string * list string)) (s : sort_state) : Prop :=
  NoDup (sorted s)
  ∧ (∀ x, x ∈ visited s ↔ x ∈ sorted s)
  ∧ topo_sorted g (sorted s)
  ∧ visiting s ## visited s
  ∧ (∀ x, x ∈ sorted s → x ∈ graph_names g).

(** What holds of the state of [detectCircularDependencies]: the modules
    that are visited and off the stack can be arranged with dependencies
    first. *)
Definition detect_inv (g : list (string * list string)) (s : detect_state) : Prop :=
  ∃ order, NoDup order ∧ topo_sorted g order
    ∧ ∀ x, x ∈ order ↔ x ∈ d_visited s ∧ x ∉ recursionStack s.

Section LifecycleVocabulary.

Context {W : Type}.

(** The module registered as [m] declares [d] as a dependency. *)
Definition declares (mm : t W) (m d : string) : Prop :=
  ∃ module, map_get (modules mm) m = Some module ∧ d ∈ m_dependencies module.

Definition dependencies_registered (mm : t W) : Prop :=
  ∀ m d, declares mm m d → d ∈ map_keys (modules mm).

(** What [register] and [unregister] maintain: the two maps have the same
    keys in the same order, a module is stored under its name, and its
    entry in the graph is the set of its dependencies. *)
Definition consistent (mm : t W) : Prop :=
  map_keys (modules mm) = map_keys (dependencyGraph mm)
  ∧ NoDup (map_keys (modules mm))
  ∧ ∀ k module, map_get (modules mm) k = Some module →
      m_name module = k
      ∧ map_get (dependencyGraph mm) k = Some (Set_of (m_dependencies module)).

End LifecycleVocabulary.

(** ** Building managers; checks that compute *)

Section LifecycleExamples.

Context {W : Type}.

(** [register] called on each module of [l] in turn, on a new manager. *)
Definition register_all (l : list (IModule W)) : outcome (t W) :=
  foldl (λ acc module, mm ← acc; register module mm) (Ok new) l.

Definition manager_of (l : list (IModule W)) : t W :=
  match register_all l with
  | Ok mm => mm
  | _ => new
  end.

Definition dependencies_registeredb (mm : t W) : bool :=
  forallb
    (λ entry, forallb (map_has (modules mm)) (m_dependencies entry.2))
    (modules mm).

(** A module whose hooks do nothing, and one whose initialiser throws. *)
Definition quiet_module (name : string) (dependencies : list string)
  (enabled : bool) : IModule W :=
  {| m_name := name;
     m_version := "1.0.0";
     m_dependencies := dependencies;
     m_initialise := λ w, (w, None);
     m_shutdown := λ w, (w, None);
     m_isEnabled := λ _, enabled |}.

Definition failing_module (name : string) (dependencies : list string)
  (payload : string) : IModule W :=
  {| m_name := name;
     m_version := "1.0.0";
     m_dependencies := dependencies;
     m_initialise := λ w, (w, Some (Thrown payload));
     m_shutdown := λ w, (w, None);
     m_isEnabled := λ _, true |}.

End LifecycleExamples.

(** Managers used as concrete inputs below; their hooks do not look at
    the world, which is [unit]. *)

(** [api] needs [auth] and [db], and [auth] needs [db]; the dependents
    are registered first. *)
Definition stack_example : t unit :=
  manager_of [quiet_module "api" ["auth"; "db"] true;
              quiet_module "auth" ["db"] true;
              quiet_module "db" [] true].

(** [A] needs [B], and [B] is disabled. *)
Definition disabled_dependency_example : t unit :=
  manager_of [quiet_module "A" ["B"] true; quiet_module "B" [] false].

(** [A] needs [B] and [B] needs [A]. *)
Definition cycle_example : t unit :=
  manager_of [quiet_module "A" ["B"] true; quiet_module "B" ["A"] true].

(** The same cycle, and [B] also needs [ghost], which nobody registers. *)
Definition cycle_and_ghost_example : t unit :=
  manager_of [quiet_module "A" ["B"] true; quiet_module "B" ["A"; "ghost"] true].

(** [A] is disabled, [B] is enabled and independent of it. *)
Definition disabled_example : t unit :=
  manager_of [quiet_module "A" [] false; quiet_module "B" [] true].

(** [db] initialises, then the initialiser of [auth] throws. *)
Definition failing_example : t unit :=
  manager_of [quiet_module "db" [] true; failing_module "auth" ["db"] "no key"].

(** [web] needs [log] and [jobs] needs [db]; the dependents are
    registered first, [web] before [jobs]. *)
Definition branches_example : t unit :=
  manager_of [quiet_module "web" ["log"] true;
              quiet_module "jobs" ["db"] true;
              quiet_module "db" [] true;
              quiet_module "log" [] true].

(** A module whose initialiser returns the first time it is called and
    throws every time after that; the world is the number of calls so
    far. *)
Definition flaky_module (name : string) (dependencies : list string)
  (payload : string) : IModule nat :=
  {| m_name := name;
     m_version := "1.0.0";
     m_dependencies := dependencies;
     m_initialise := λ calls,
       (S calls, if decide (calls = 0) then None else Some (Thrown payload));
     m_shutdown := λ calls, (calls, None);
     m_isEnabled := λ _, true |}.

(** [auth] needs [cache] and [db] and is registered first; its
    initialiser throws, and that of [cache] works only once. *)
Definition flaky_example : t nat :=
  manager_of [failing_module "auth" ["cache"; "db"] "no key";
              flaky_module "cache" [] "gone";
              quiet_module "db" [] true].

End ModuleManager.

(** ** User code: middleware and route handlers *)

(** What one call of a middleware does, as far as the managers can tell:
    it acts on what it was given, awaits [next()] any number of times,
    and in the end returns or throws.  A rejection of [next()] is not
    caught. *)
Inductive script (A : Type) : Type :=
| Return
| Raise (e : error)
| Call (a : A) (k : script A)
| AwaitNext (k : script A).
Arguments Return {A}.
Arguments Raise {A} e.
Arguments Call {A} a k.
Arguments AwaitNext {A} k.

(** Running a script over a state [St] that survives a throw; [act] is
    the effect of an action and [next] the closure the middleware was
    handed. *)
Fixpoint run_script {A St : Type} (act : A → St → outcome unit * St)
  (next : St → outcome unit * St) (s : script A) (st : St)
  : outcome unit * St :=
  match s with
  | Return => (Ok (), st)
  | Raise e => (Throw e, st)
  | Call a k =>
      match act a st with
      | (Ok _, st') => run_script act next k st'
      | (r, st') => (r, st')
      end
  | AwaitNext k =>
      match next st with
      | (Ok _, st') => run_script act next k st'
      | (r, st') => (r, st')
      end
  end.

(** How often a script awaits [next()]. *)
Fixpoint next_calls {A : Type} (s : script A) : nat :=
  match s with
  | Return | Raise _ => 0
  | Call _ k => next_calls k
  | AwaitNext k => S (next_calls k)
  end.

(** The script gets to an [await next()]. *)
Fixpoint awaits_next {A : Type} (s : script A) : bool :=
  match s with
  | Return | Raise _ => false
  | Call _ k => awaits_next k
  | AwaitNext _ => true
  end.

(** [Array.prototype.sort(compare)]: stable, [a] stays before [b] unless
    [compare(a, b) > 0].  For a comparator that is a difference of
    integer keys the result does not depend on the algorithm; this one
    inserts from the right. *)
Fixpoint sort_insert {A : Type} (compare : A → A → Z) (x : A) (l : list A)
  : list A :=
  match l with
  | [] => [x]
  | y :: l' =>
      if decide (compare x y ≤ 0)%Z then x :: y :: l'
      else y :: sort_insert compare x l'
  end.

Definition Array_sort {A : Type} (compare : A → A → Z) (l : list A) : list A :=
  foldr (sort_insert compare) [] l.

(** The comparator [(a, b) => key(b) - key(a)]: higher keys first. *)
Definition descending {A : Type} (key : A → Z) (a b : A) : Z :=
  (key b - key a)%Z.

(** ** [MiddlewareManager] *)

Module MiddlewareManager.

Section Chain.

(** The [context: unknown] handed to [execute], and what a middleware can
    do to it. *)
Context {C A : Type}.

Record IMiddleware : Type := {
  m_name : string;
  m_priority : Z;
  m_execute : C → script A
}.

Inductive event : Type :=
| Executing (name : string)
| Acted (name : string) (a : A)
| ErrorLogged (name : string) (e : error).

(** The [middlewares] array. *)
Record t : Type := { middlewares : list IMiddleware }.

Definition new : t := {| middlewares := [] |}.

Definition register (middleware : IMiddleware) (mm : t) : outcome t :=
  if existsb (λ m, bool_decide (m_name m = m_name middleware)) (middlewares mm)
  then Throw (Error_MiddlewareAlreadyRegistered (m_name middleware))
  else Ok {| middlewares :=
               Array_sort (descending m_priority)
                 (middlewares mm ++ [middleware]) |}.

Definition unregister (middlewareName : string) (mm : t) : outcome t :=
  match list_find (λ m, m_name m = middlewareName) (middlewares mm) with
  | None => Throw (Error_MiddlewareNotFound middlewareName)
  | Some (index, _) => Ok {| middlewares := delete index (middlewares mm) |}
  end.

Definition get (middlewareName : string) (mm : t) : option IMiddleware :=
  snd <$> list_find (λ m, m_name m = middlewareName) (middlewares mm).

Definition getAll (mm : t) : list IMiddleware := middlewares mm.

Definition clear (mm : t) : t := {| middlewares := [] |}.

(** What an action does in [execute]: nothing that [execute] could see
    but that it took place. *)
Definition act_of (name : string) (a : A) (st : nat * list event)
  : outcome unit * (nat * list event) :=
  let '(i, tr') := st in (Ok (), (i, tr' ++ [Acted name a])).

(** The [next] closure of [execute]; the state is [currentIndex] and
    what has happened so far.  At most one more call nests than there
    are middlewares, which is the fuel [execute] hands out. *)
Fixpoint next (fuel : nat) (l : list IMiddleware) (context : C)
  (st : nat * list event) : outcome unit * (nat * list event) :=
  match fuel with
  | O => (OutOfFuel, st)
  | S fuel' =>
      let '(currentIndex, tr) := st in
      if decide (length l ≤ currentIndex)%nat then (Ok (), st)
      else
        match l !! currentIndex with
        | None => (Ok (), (S currentIndex, tr))
        | Some middleware =>
            match
              run_script (act_of (m_name middleware)) (next fuel' l context)
                (m_execute middleware context)
                (S currentIndex, tr ++ [Executing (m_name middleware)])
            with
            | (Throw e, (i, tr')) =>
                (Throw e, (i, tr' ++ [ErrorLogged (m_name middleware) e]))
            | r => r
            end
        end
  end.

Definition execute (mm : t) (context : C) : outcome unit * list event :=
  let l := middlewares mm in
  let '(r, (_, tr)) := next (S (length l)) l context (0, []) in
  (r, tr).

(** [register] called on each middleware of [l] in turn. *)
Definition register_all (l : list IMiddleware) : outcome t :=
  foldl (λ acc middleware, mm ← acc; register middleware mm) (Ok new) l.

(** The names of the middlewares whose [execute] was called, in order. *)
Definition executed (tr : list event) : list string :=
  omap (λ ev, match ev with Executing n => Some n | _ => None end) tr.

(** What [execute] keeps true of the cursor and the trace: the
    middlewares executed so far are those below the cursor, in order. *)
Definition cursor_inv (l : list IMiddleware) (st : nat * list event) : Prop :=
  st.1 ≤ length l ∧ executed st.2 = take st.1 (m_name <$> l).

End Chain.

Arguments IMiddleware C A : clear implicits.
Arguments event A : clear implicits.
Arguments t C A : clear implicits.

End MiddlewareManager.

(** ** Strings as the HTTP layer uses them *)

(** [s.split(sep)] for a one-character separator: never empty. *)
Fixpoint split (sep : ascii) (s : string) : list string :=
  match s with
  | EmptyString => [""]
  | String c s' =>
      if Ascii.eqb c sep then "" :: split sep s'
      else
        match split sep s' with
        | [] => [String c ""]
        | part :: parts => String c part :: parts
        end
  end.

(** [s.includes(sub)] *)
Fixpoint includes (s sub : string) : bool :=
  if String.prefix sub s then true
  else
    match s with
    | EmptyString => false
    | String _ s' => includes s' sub
    end.

(** [s.startsWith(p)] *)
Definition startsWith (s p : string) : bool := String.prefix p s.

(** [s.slice(1)] *)
Definition slice1 (s : string) : string :=
  match s with
  | EmptyString => ""
  | String _ s' => s'
  end.

(** [chunks.join("")], what [body += chunk.toString()] builds. *)
Definition concat_chunks (chunks : list string) : string :=
  foldl (λ body chunk, body +:+ chunk) "" chunks.

(** [name.toLowerCase()] on the letters of ASCII; it is applied to
    header names that are tokens, which have no other letters. *)
Definition toLowerCase_char (c : ascii) : ascii :=
  let n := nat_of_ascii c in
  if (65 <=? n) && (n <=? 90) then ascii_of_nat (n + 32) else c.

Fixpoint toLowerCase (s : string) : string :=
  match s with
  | EmptyString => ""
  | String c s' => String (toLowerCase_char c) (toLowerCase s')
  end.

(** node's [checkIsHttpToken]: the name matches
    [/^[\^_`a-zA-Z\-0-9!#$%&'*+.|~]+$/]. *)
Definition is_token_char (c : ascii) : bool :=
  let n := nat_of_ascii c in
  (48 <=? n) && (n <=? 57) || (65 <=? n) && (n <=? 90)
  || (97 <=? n) && (n <=? 122)
  || bool_decide (n ∈ [94; 95; 96; 45; 33; 35; 36; 37; 38; 39; 42; 43; 46; 124; 126]).

Fixpoint all_chars (p : ascii → bool) (s : string) : bool :=
  match s with
  | EmptyString => true
  | String c s' => p c && all_chars p s'
  end.

Definition checkIsHttpToken (name : string) : bool :=
  negb (bool_decide (name = "")) && all_chars is_token_char name.

(** node's [checkInvalidHeaderChar]: the value matches
    [/[^\t\x20-\x7e\x80-\xff]/].  A character here is a code unit below
    256, so only the control characters are left to refuse. *)
Definition is_header_char (c : ascii) : bool :=
  let n := nat_of_ascii c in
  bool_decide (n = 9) || (32 <=? n) && negb (bool_decide (n = 127)).

Definition checkInvalidHeaderChar (value : string) : bool :=
  negb (all_chars is_header_char value).

(** ** Plain objects *)

(** A property name that is an array index: the decimal numeral of an
    integer below [2^32 - 1], without sign or leading zero. *)
Fixpoint decimal (s : string) (acc : N) : option N :=
  match s with
  | EmptyString => Some acc
  | String c s' =>
      let n := N_of_ascii c in
      if (48 <=? n)%N && (n <=? 57)%N
      then decimal s' (10 * acc + (n - 48))%N
      else None
  end.

Definition array_index (name : string) : option N :=
  match name with
  | EmptyString => None
  | String c rest =>
      if bool_decide (c = "0"%char) && negb (bool_decide (rest = "")) then None
      else
        match decimal name 0 with
        | Some n => if (n <? 4294967295)%N then Some n else None
        | None => None
        end
  end.

Section Object.

(** The own properties of an object in the order in which the
    language lists them: array indices first, ascending, then the other
    names in the order of their creation.  [key] is what a name is
    looked up by: the name itself for a plain object, its lower-case
    form for the headers of a response. *)
Context {V : Type} (key : string → string).

Fixpoint object_get (o : list (string * V)) (name : string) : option V :=
  match o with
  | [] => None
  | (name', v) :: o' =>
      if decide (key name' = key name) then Some v else object_get o' name
  end.

Fixpoint replace_property (o : list (string * V)) (name : string) (v : V)
  : list (string * V) :=
  match o with
  | [] => []
  | (name', v') :: o' =>
      if decide (key name' = key name) then (name, v) :: o'
      else (name', v') :: replace_property o' name v
  end.

Fixpoint insert_index (i : N) (o : list (string * V)) (name : string) (v : V)
  : list (string * V) :=
  match o with
  | [] => [(name, v)]
  | (name', v') :: o' =>
      match array_index (key name') with
      | Some j =>
          if (j <? i)%N then (name', v') :: insert_index i o' name v
          else (name, v) :: (name', v') :: o'
      | None => (name, v) :: (name', v') :: o'
      end
  end.

(** [o[key(name)] = v]: an existing property keeps its place. *)
Definition object_set (o : list (string * V)) (name : string) (v : V)
  : list (string * V) :=
  match object_get o name with
  | Some _ => replace_property o name v
  | None =>
      match array_index (key name) with
      | Some i => insert_index i o name v
      | None => o ++ [(name, v)]
      end
  end.

End Object.

(** ** The types of [http-server.ts] *)

(** Values of JavaScript as far as bodies need them; a string is a
    [JString], an object literal a [JObject]. *)
Inductive JSON : Type :=
| JNull
| JBool (b : bool)
| JNumber (n : Z)
| JString (s : string)
| JArray (items : list JSON)
| JObject (members : list (string * JSON)).

Inductive HttpMethod : Type :=
| get | post | put | delete | patch | head | options.

(** [method.toUpperCase()] *)
Definition toUpperCase (method : HttpMethod) : string :=
  match method with
  | get => "GET"
  | post => "POST"
  | put => "PUT"
  | delete => "DELETE"
  | patch => "PATCH"
  | head => "HEAD"
  | options => "OPTIONS"
  end.

(** [body] is [None] for [undefined]. *)
Record HttpRequest : Type := {
  method : string;
  url : string;
  pathname : string;
  headers : list (string * string);
  body : option JSON;
  params : list (string * string);
  query : list (string * string)
}.

(** The four methods of [HttpResponse], as calls. *)
Inductive response_call : Type :=
| status (code : Z)
| json (data : JSON)
| send (data : string)
| header (name value : string).

(** A route handler: a function, told apart from others by [h_name],
    that calls methods of the response and returns or throws.  It is
    handed no [next]. *)
Record RouteHandler : Type := {
  h_name : string;
  h_run : HttpRequest → script response_call
}.

Record HttpMiddleware : Type := {
  mw_name : string;
  mw_handler : HttpRequest → script response_call
}.

(** ** [RouteManager] *)

Module RouteManager.

Record Route : Type := {
  r_method : HttpMethod;
  r_path : string;
  r_handler : RouteHandler;
  r_middleware : list string;
  r_description : option string;
  r_tags : list string
}.

Record RouteOptions : Type := {
  o_middleware : option (list string);
  o_description : option string;
  o_tags : option (list string)
}.

(** A [RouteGroup] is its prefix; it registers into the manager that
    made it. *)
Record t : Type := {
  routes : list (string * Route);
  routeGroups : list (string * string)
}.

Definition new : t := {| routes := []; routeGroups := [] |}.

Definition register (method : HttpMethod) (path : string)
  (handler : RouteHandler) (options : option RouteOptions) (rm : t) : outcome t :=
  let routeKey := toUpperCase method +:+ ":" +:+ path in
  if map_has (routes rm) routeKey
  then Throw (Error_RouteAlreadyRegistered routeKey)
  else
    let route :=
      {| r_method := method;
         r_path := path;
         r_handler := handler;
         r_middleware := default [] (options ≫= o_middleware);
         r_description := options ≫= o_description;
         r_tags := default [] (options ≫= o_tags) |} in
    Ok {| routes := map_set (routes rm) routeKey route;
          routeGroups := routeGroups rm |}.

Definition createGroup (prefix : string) (rm : t) : outcome (string * t) :=
  if map_has (routeGroups rm) prefix
  then Throw (Error_RouteGroupExists prefix)
  else Ok (prefix, {| routes := routes rm;
                      routeGroups := map_set (routeGroups rm) prefix prefix |}).

(** [RouteGroup.register] *)
Definition group_register (prefix : string) (method : HttpMethod)
  (path : string) (handler : RouteHandler) (options : option RouteOptions)
  (rm : t) : outcome t :=
  let fullPath := prefix +:+ path in
  register method fullPath handler options rm.

Definition getRoute (method : HttpMethod) (path : string) (rm : t) : option Route :=
  map_get (routes rm) (toUpperCase method +:+ ":" +:+ path).

Definition getAllRoutes (rm : t) : list Route := map_values (routes rm).

Definition getRoutesByTag (tag : string) (rm : t) : list Route :=
  filter (λ route, tag ∈ r_tags route) (getAllRoutes rm).

Definition clear (rm : t) : t := {| routes := []; routeGroups := [] |}.

End RouteManager.

(** ** [HttpServer] *)

Module HttpServer.

(** [cors.origin] is a string or an array of strings. *)
Inductive Origin : Type :=
| OriginString (s : string)
| OriginArray (l : list string).

Record CorsConfig : Type := {
  origin : Origin;
  credentials : bool
}.

Record ServerConfig : Type := {
  port : Z;
  host : string;
  cors : option CorsConfig
}.

(** The request as node hands it over: the request line, the headers
    with lower-case names, and the body as the chunks of its stream,
    which ends or fails. *)
Record IncomingMessage : Type := {
  req_method : string;
  req_url : string;
  req_headers : list (string * string);
  req_chunks : list string;
  req_error : option string
}.

(** What [res.end] was handed: a text, or the text that
    [JSON.stringify] makes of a value. *)
Inductive payload : Type :=
| Text (data : string)
| Json (data : JSON).

(** node's [ServerResponse]: the headers set so far, each under the name
    it was last set with, in the order node lists them; [res_body] is
    [None] until [end] is called. *)
Record ServerResponse : Type := {
  statusCode : Z;
  res_headers : list (string * string);
  res_body : option payload
}.

Definition new_ServerResponse : ServerResponse :=
  {| statusCode := 200; res_headers := []; res_body := None |}.

(** Calls of middleware handlers, of [executeRoute] and of route
    handlers, and the [console.error] of the listener. *)
Inductive event : Type :=
| MiddlewareCalled (name : string)
| RouteDispatch (routeKey : string)
| HandlerCalled (name : string) (request : HttpRequest)
| ErrorLogged (e : error).

(** What one request changes: the response, the [middlewareIndex] of
    [handleRequest], and the calls into user code so far. *)
Record exchange : Type := {
  res : ServerResponse;
  middlewareIndex : nat;
  log : list event
}.

(** Code that runs on an exchange; the exchange survives a throw. *)
Definition M (A : Type) : Type := exchange → outcome A * exchange.

#[global] Instance M_ret : MRet M := λ A a ex, (Ok a, ex).
#[global] Instance M_bind : MBind M := λ A B f m ex,
  match m ex with
  | (Ok a, ex') => f a ex'
  | (Throw e, ex') => (Throw e, ex')
  | (OutOfFuel, ex') => (OutOfFuel, ex')
  end.

Definition throw {A : Type} (e : error) : M A := λ ex, (Throw e, ex).

(** [res.statusCode = code] *)
Definition set_statusCode (code : Z) : M unit := λ ex,
  (Ok (),
   {| res := {| statusCode := code;
                res_headers := res_headers (res ex);
                res_body := res_body (res ex) |};
      middlewareIndex := middlewareIndex ex;
      log := log ex |}).

(** [res.setHeader(name, value)]: refused once the response has ended,
    for a name that is not a token and for a value with a control
    character.  The header is kept under the lower-case form of its
    name, with the name as given. *)
Definition setHeader (name value : string) : M unit := λ ex,
  match res_body (res ex) with
  | Some _ => (Throw ERR_HTTP_HEADERS_SENT, ex)
  | None =>
      if negb (checkIsHttpToken name)
      then (Throw (ERR_INVALID_HTTP_TOKEN name), ex)
      else if checkInvalidHeaderChar value
      then (Throw (ERR_INVALID_CHAR name), ex)
      else
        (Ok (),
         {| res := {| statusCode := statusCode (res ex);
                      res_headers :=
                        object_set toLowerCase (res_headers (res ex)) name value;
                      res_body := None |};
            middlewareIndex := middlewareIndex ex;
            log := log ex |})
  end.

(** [statusCode | 0] *)
Definition ToInt32 (code : Z) : Z :=
  ((code + 2147483648) `mod` 4294967296 - 2147483648)%Z.

(** [res.end(data)].  The head is written first, with the status as
    [writeHead] takes it, and a status outside 100..999 is refused; a
    second call writes nothing. *)
Definition end_ (data : payload) : M unit := λ ex,
  match res_body (res ex) with
  | Some _ => (Ok (), ex)
  | None =>
      let code := ToInt32 (statusCode (res ex)) in
      if bool_decide (code < 100 ∨ 999 < code)%Z
      then (Throw (ERR_HTTP_INVALID_STATUS_CODE (statusCode (res ex))), ex)
      else
        (Ok (),
         {| res := {| statusCode := code;
                      res_headers := res_headers (res ex);
                      res_body := Some data |};
            middlewareIndex := middlewareIndex ex;
            log := log ex |})
  end.

Definition record (ev : event) : M unit := λ ex,
  (Ok (),
   {| res := res ex; middlewareIndex := middlewareIndex ex; log := log ex ++ [ev] |}).

(** The object [createResponse] returns, one call at a time. *)
Definition respond (call : response_call) : M unit :=
  match call with
  | status code => set_statusCode code
  | json data =>
      _ ← setHeader "Content-Type" "application/json"; end_ (Json data)
  | send data =>
      _ ← setHeader "Content-Type" "text/plain"; end_ (Text data)
  | header name value => setHeader name value
  end.

(** The two things [sendErrorResponse] is called on: node's response,
    and the object [createResponse] made. *)
Inductive response_ref : Type :=
| the_ServerResponse
| the_HttpResponse.

(** [sendErrorResponse(response: any, status, message)].  On the object
    of [createResponse] the assignment to [statusCode] adds a property to
    that object and leaves node's response alone, and [setHeader] is not
    one of its four methods, so calling it is a [TypeError]. *)
Definition sendErrorResponse (response : response_ref) (code : Z)
  (message : string) : M unit :=
  match response with
  | the_ServerResponse =>
      _ ← set_statusCode code;
      _ ← setHeader "Content-Type" "application/json";
      end_ (Json (JObject [("error", JString message)]))
  | the_HttpResponse =>
      throw (TypeError "response.setHeader is not a function")
  end.

(** The fields of [HttpServer] ([server] apart). *)
Record t : Type := {
  config : ServerConfig;
  isRunning : bool;
  routes : list (string * RouteHandler);
  middlewares : list HttpMiddleware
}.

Definition new (config : ServerConfig) : t :=
  {| config := config; isRunning := false; routes := []; middlewares := [] |}.

Definition registerRoute (method : HttpMethod) (path : string)
  (handler : RouteHandler) (srv : t) : t :=
  let routeKey := toUpperCase method +:+ ":" +:+ path in
  {| config := config srv;
     isRunning := isRunning srv;
     routes := map_set (routes srv) routeKey handler;
     middlewares := middlewares srv |}.

Definition registerMiddleware (middleware : HttpMiddleware) (srv : t) : t :=
  {| config := config srv;
     isRunning := isRunning srv;
     routes := routes srv;
     middlewares := middlewares srv ++ [middleware] |}.

(** [params[paramName] = pathPart] on an object literal: the name
    [__proto__] is the accessor of the prototype, which ignores a
    string, and adds no property. *)
Definition set_param (params : list (string * string)) (paramName pathPart : string)
  : list (string * string) :=
  if bool_decide (paramName = "__proto__") then params
  else object_set id params paramName pathPart.

(** The [for] loop of [matchRoute], index by index; [undefined] is as
    false as the empty string. *)
Fixpoint matchRoute_loop (patternParts pathParts : list string)
  (indices : list nat) (params : list (string * string))
  : option (list (string * string)) :=
  match indices with
  | [] => Some params
  | i :: rest =>
      match patternParts !! i, pathParts !! i with
      | Some patternPart, Some pathPart =>
          if bool_decide (patternPart = "") || bool_decide (pathPart = "")
          then None
          else if startsWith patternPart ":" then
            let paramName := slice1 patternPart in
            matchRoute_loop patternParts pathParts rest
              (set_param params paramName pathPart)
          else if bool_decide (patternPart ≠ pathPart) then None
          else matchRoute_loop patternParts pathParts rest params
      | _, _ => None
      end
  end.

Definition matchRoute (pattern pathname : string)
  : option (list (string * string)) :=
  let patternParts := split "/" pattern in
  let pathParts := split "/" pathname in
  if bool_decide (length patternParts ≠ length pathParts) then None
  else matchRoute_loop patternParts pathParts (seq 0 (length patternParts)) [].

(** [const [routeMethod, routePath] = routeKey.split(":")] takes the
    first two pieces. *)
Fixpoint findParameterizedRoute (entries : list (string * RouteHandler))
  (method pathname : string)
  : option (RouteHandler * list (string * string)) :=
  match entries with
  | [] => None
  | (routeKey, handler) :: rest =>
      let pieces := split ":" routeKey in
      let routeMethod := pieces !! 0 in
      let routePath := pieces !! 1 in
      if bool_decide (routeMethod ≠ Some method)
         || bool_decide (default "" routePath = "")
      then findParameterizedRoute rest method pathname
      else
        match matchRoute (default "" routePath) pathname with
        | Some params => Some (handler, params)
        | None => findParameterizedRoute rest method pathname
        end
  end.

(** Calling a route handler.  It has no [next] to await. *)
Definition call_handler (handler : RouteHandler) (request : HttpRequest) : M unit :=
  _ ← record (HandlerCalled (h_name handler) request);
  run_script respond (throw (TypeError "next is not a function"))
    (h_run handler request).

Definition with_params (request : HttpRequest) (p : list (string * string))
  : HttpRequest :=
  {| method := method request;
     url := url request;
     pathname := pathname request;
     headers := headers request;
     body := body request;
     params := p;
     query := query request |}.

Definition executeRoute (srv : t) (request : HttpRequest) : M unit :=
  let routeKey := method request +:+ ":" +:+ pathname request in
  _ ← record (RouteDispatch routeKey);
  match map_get (routes srv) routeKey with
  | Some handler => call_handler handler request
  | None =>
      match findParameterizedRoute (routes srv) (method request) (pathname request) with
      | Some (handler, p) => call_handler handler (with_params request p)
      | None => sendErrorResponse the_HttpResponse 404 "Not Found"
      end
  end.

(** [origin.toString()] of [applyCORSHeaders] *)
Definition allowed_origin (srv : t) : string :=
  match origin <$> cors (config srv) with
  | None | Some (OriginString "") => "*"
  | Some (OriginString s) => s
  | Some (OriginArray l) => String.concat "," l
  end.

Definition applyCORSHeaders (srv : t) : M unit :=
  let origin := allowed_origin srv in
  let credentials := default false (credentials <$> cors (config srv)) in
  _ ← respond (header "Access-Control-Allow-Origin" origin);
  _ ← respond (header "Access-Control-Allow-Methods"
                 "GET, POST, PUT, DELETE, PATCH, OPTIONS");
  _ ← respond (header "Access-Control-Allow-Headers"
                 "Content-Type, Authorization, X-Requested-With");
  if credentials then respond (header "Access-Control-Allow-Credentials" "true")
  else mret ().

(** The [next] closure of [handleRequest].  A call nests only while
    [middlewareIndex] is below the number of middlewares, so one more
    than that number is fuel enough. *)
Fixpoint next (fuel : nat) (srv : t) (request : HttpRequest) : M unit :=
  match fuel with
  | O => λ ex, (OutOfFuel, ex)
  | S fuel' => λ ex,
      if decide (middlewareIndex ex < length (middlewares srv))%nat then
        let ex' := {| res := res ex;
                      middlewareIndex := S (middlewareIndex ex);
                      log := log ex |} in
        match middlewares srv !! middlewareIndex ex with
        | Some middleware =>
            (_ ← record (MiddlewareCalled (mw_name middleware));
             run_script respond (next fuel' srv request)
               (mw_handler middleware request)) ex'
        | None => (Ok (), ex')
        end
      else executeRoute srv request ex
  end.

(** The headers [applyCORSHeaders] sets on a response that has none,
    when node takes all of them. *)
Definition cors_headers (srv : t) : list (string * string) :=
  [("Access-Control-Allow-Origin", allowed_origin srv);
   ("Access-Control-Allow-Methods", "GET, POST, PUT, DELETE, PATCH, OPTIONS");
   ("Access-Control-Allow-Headers",
    "Content-Type, Authorization, X-Requested-With")]
  ++ (if default false (credentials <$> cors (config srv))
      then [("Access-Control-Allow-Credentials", "true")]
      else []).

(** The configured origin is a value that [setHeader] takes. *)
Definition cors_accepted (srv : t) : bool :=
  negb (checkInvalidHeaderChar (allowed_origin srv)).

(** The answer of the listener when [handleRequest] has thrown before
    anything was written. *)
Definition internal_server_error (headers : list (string * string)) : ServerResponse :=
  {| statusCode := 500;
     res_headers := headers ++ [("Content-Type", "application/json")];
     res_body := Some (Json (JObject [("error", JString "Internal Server Error")])) |}.

(** What holds of an exchange while [handleRequest] is in its chain and
    [executeRoute] has not run: the log lists the middlewares below
    [middlewareIndex], in order. *)
Definition chain_inv (srv : t) (ex : exchange) : Prop :=
  middlewareIndex ex ≤ length (middlewares srv)
  ∧ log ex = (λ mw, MiddlewareCalled (mw_name mw))
               <$> take (middlewareIndex ex) (middlewares srv).

Section Platform.

(** The two library calls of [parseRequest] and [parseBody]:
    [new URL(url, base)], which gives the path name and the search
    parameters or throws, and [JSON.parse], which gives a value or
    throws. *)
Variable URL : string → string → option (string * list (string * string)).
Variable JSON_parse : string → option JSON.

Definition parseBody (req : IncomingMessage) : outcome JSON :=
  match req_error req with
  | Some message => Throw (Error_Stream message)
  | None =>
      let body := concat_chunks (req_chunks req) in
      let contentType := default "" (map_get (req_headers req) "content-type") in
      if includes contentType "application/json" then
        if bool_decide (body = "") then Ok (JObject [])
        else
          match JSON_parse body with
          | Some value => Ok value
          | None => Throw SyntaxError
          end
      else Ok (JString body)
  end.

(** [Object.fromEntries]: every entry defines an own property, so the
    last value of a key wins. *)
Definition fromEntries (entries : list (string * string)) : list (string * string) :=
  foldl (λ object entry, object_set id object entry.1 entry.2) [] entries.

Definition parseRequest (req : IncomingMessage) : outcome HttpRequest :=
  let base := "http://" +:+ default "undefined" (map_get (req_headers req) "host") in
  match URL (req_url req) base with
  | None => Throw (TypeError "Invalid URL")
  | Some (path, searchParams) =>
      body ←
        (if bool_decide (req_method req ∈ ["POST"; "PUT"; "PATCH"])
         then value ← parseBody req; Ok (Some value)
         else Ok None);
      Ok {| method := req_method req;
            url := req_url req;
            pathname := path;
            headers := req_headers req;
            body := body;
            params := [];
            query := fromEntries searchParams |}
  end.

Definition handleRequest (srv : t) (req : IncomingMessage) : M unit := λ ex,
  match parseRequest req with
  | Throw e => (Throw e, ex)
  | OutOfFuel => (OutOfFuel, ex)
  | Ok request =>
      (_ ← applyCORSHeaders srv;
       if bool_decide (method request = "OPTIONS") then
         _ ← respond (status 200); respond (send "")
       else next (S (length (middlewares srv))) srv request) ex
  end.

(** The listener that [createServer] installs, run on a new response.
    If it throws, the promise of the listener is rejected and nobody
    handles it. *)
Definition requestListener (srv : t) (req : IncomingMessage)
  : outcome unit * exchange :=
  let ex := {| res := new_ServerResponse; middlewareIndex := 0; log := [] |} in
  match handleRequest srv req ex with
  | (Throw e, ex') =>
      (_ ← record (ErrorLogged e);
       sendErrorResponse the_ServerResponse 500 "Internal Server Error") ex'
  | r => r
  end.

End Platform.

End HttpServer.

(** ** Concrete inputs for the HTTP layer *)

(** [new URL(url, base)] on the request targets used below: a path of
    letters, digits, [-], [_], [:] and single slashes, which is its own
    path name and has no search parameters.  The target [//] names an
    empty host and is refused; nothing else is asked of it. *)
Definition is_path_char (c : ascii) : bool :=
  let n := nat_of_ascii c in
  (48 <=? n) && (n <=? 57) || (65 <=? n) && (n <=? 90)
  || (97 <=? n) && (n <=? 122) || bool_decide (n ∈ [45; 47; 58; 95]).

Definition path_URL (url base : string) : option (string * list (string * string)) :=
  if startsWith url "/" && negb (includes url "//") && all_chars is_path_char url
  then Some (url, [])
  else None.

(** [JSON.parse] on the two bodies used below: [{"a":1}] and a text that
    is not JSON. *)
Definition quote : string := String (ascii_of_nat 34) "".

Definition body_a1 : string := "{" +:+ quote +:+ "a" +:+ quote +:+ ":1}".

Definition two_body_JSON_parse (text : string) : option JSON :=
  if bool_decide (text = body_a1) then Some (JObject [("a", JNumber 1)])
  else None.

Definition default_config : HttpServer.ServerConfig :=
  {| HttpServer.port := 3000; HttpServer.host := "localhost"; HttpServer.cors := None |}.



(** A handler that answers [200] with the body it was sent, as [json]. *)
Definition echo_handler (name : string) : RouteHandler :=
  {| h_name := name;
     h_run := λ request, Call (json (default JNull (body request))) Return |}.

(** A handler that answers with a text. *)
Definition text_handler (name text : string) : RouteHandler :=
  {| h_name := name; h_run := λ _, Call (send text) Return |}.

Definition request_of (method url : string) : HttpServer.IncomingMessage :=
  {| HttpServer.req_method := method;
     HttpServer.req_url := url;
     HttpServer.req_headers := [("host", "localhost")];
     HttpServer.req_chunks := [];
     HttpServer.req_error := None |}.

Definition json_request_of (method url : string) (chunks : list string)
  : HttpServer.IncomingMessage :=
  {| HttpServer.req_method := method;
     HttpServer.req_url := url;
     HttpServer.req_headers :=
       [("host", "localhost"); ("content-type", "application/json; charset=utf-8")];
     HttpServer.req_chunks := chunks;
     HttpServer.req_error := None |}.


(** A server whose only route is [GET /users/:id]. *)
Definition users_server : HttpServer.t :=
  HttpServer.registerRoute get "/users/:id" (text_handler "user" "a user")
    (HttpServer.new default_config).



(** ** Concrete middlewares *)

(** Over a context and actions that carry nothing: a middleware that
    awaits [next()] and returns, one that returns at once, and one that
    awaits [next()] twice. *)
Definition passing (name : string) (priority : Z)
  : MiddlewareManager.IMiddleware unit unit :=
  {| MiddlewareManager.m_name := name;
     MiddlewareManager.m_priority := priority;
     MiddlewareManager.m_execute := λ _, AwaitNext Return |}.

Definition stopping (name : string) (priority : Z)
  : MiddlewareManager.IMiddleware unit unit :=
  {| MiddlewareManager.m_name := name;
     MiddlewareManager.m_priority := priority;
     MiddlewareManager.m_execute := λ _, Return |}.

Definition insisting (name : string) (priority : Z)
  : MiddlewareManager.IMiddleware unit unit :=
  {| MiddlewareManager.m_name := name;
     MiddlewareManager.m_priority := priority;
     MiddlewareManager.m_execute := λ _, AwaitNext (AwaitNext Return) |}.

(** Priorities 10, 50, 30, registered in that order. *)
Definition three_middlewares : list (MiddlewareManager.IMiddleware unit unit) :=
  [passing "ten" 10; passing "fifty" 50; passing "thirty" 30].

(** The same, but [fifty] awaits [next()] twice and [thirty] not at all. *)
Definition insisting_middlewares : list (MiddlewareManager.IMiddleware unit unit) :=
  [passing "ten" 10; insisting "fifty" 50; stopping "thirty" 30].

Definition manager_with (l : list (MiddlewareManager.IMiddleware unit unit))
  : MiddlewareManager.t unit unit :=
  match MiddlewareManager.register_all l with
  | Ok mm => mm
  | _ => MiddlewareManager.new
  end.

(** ** What a lifecycle trace says *)

(** The modules whose initialiser was called, in the order of the calls,
    and the same for the shutdown hooks. *)
Definition initialiser_calls (tr : list ModuleManager.event) : list string :=
  omap (λ ev, match ev with
              | ModuleManager.InitialiseCalled n => Some n
              | _ => None
              end) tr.

Definition shutdown_calls (tr : list ModuleManager.event) : list string :=
  omap (λ ev, match ev with
              | ModuleManager.ShutdownCalled n => Some n
              | _ => None
              end) tr.

(** A module whose shutdown hook throws. *)
Definition clinging_module {W : Type} (name : string) (dependencies : list string)
  (payload : string) : ModuleManager.IModule W :=
  {| ModuleManager.m_name := name;
     ModuleManager.m_version := "1.0.0";
     ModuleManager.m_dependencies := dependencies;
     ModuleManager.m_initialise := λ w, (w, None);
     ModuleManager.m_shutdown := λ w, (w, Some (Thrown payload));
     ModuleManager.m_isEnabled := λ _, true |}.

(** [db] and [auth], whose shutdown hook throws, both initialised. *)
Definition clinging_example : ModuleManager.t unit :=
  (ModuleManager.initialise
     (ModuleManager.manager_of
        [ModuleManager.quiet_module "db" [] true;
         clinging_module "auth" ["db"] "busy"]) ()).1.1.2.

(** ** Vocabulary for the middleware registry *)

(** What [register] and [unregister] of [MiddlewareManager] maintain: no
    two middlewares have the same name, and priorities do not increase
    along the array. *)
Definition well_ordered {C A : Type} (mm : MiddlewareManager.t C A) : Prop :=
  NoDup (MiddlewareManager.m_name <$> MiddlewareManager.middlewares mm)
  ∧ StronglySorted
      (λ a b, (MiddlewareManager.m_priority b ≤ MiddlewareManager.m_priority a)%Z)
      (MiddlewareManager.middlewares mm).

(** The error a script throws before it gets to an [await next()], if
    it does. *)
Fixpoint throws_first {A : Type} (s : script A) : option error :=
  match s with
  | Return => None
  | Raise e => Some e
  | Call _ k => throws_first k
  | AwaitNext _ => None
  end.

(** The errors that [execute] has logged, with the middleware each one
    was logged for, in order. *)
Definition logged_errors {A : Type} (tr : list (MiddlewareManager.event A))
  : list (string * error) :=
  omap (λ ev, match ev with
              | MiddlewareManager.ErrorLogged n e => Some (n, e)
              | _ => None
              end) tr.

(** A middleware that throws when it is called. *)
Definition throwing (name : string) (priority : Z) (payload : string)
  : MiddlewareManager.IMiddleware unit unit :=
  {| MiddlewareManager.m_name := name;
     MiddlewareManager.m_priority := priority;
     MiddlewareManager.m_execute := λ _, Raise (Thrown payload) |}.

(** Priorities 10, 50, 30 once more; [thirty] throws. *)
Definition throwing_middlewares : list (MiddlewareManager.IMiddleware unit unit) :=
  [passing "ten" 10; passing "fifty" 50; throwing "thirty" 30 "denied"].

(** ** Vocabulary for routing *)

(** One segment of a pattern against one segment of a path, as
    [matchRoute] compares them: neither is empty, and the pattern
    segment is a parameter or the path segment itself. *)
Definition segment_matches (patternPart pathPart : string) : Prop :=
  patternPart ≠ "" ∧ pathPart ≠ ""
  ∧ (startsWith patternPart ":" = true ∨ patternPart = pathPart).

(** [registerMiddleware] called on each middleware of [l] in turn. *)
Definition register_middlewares (l : list HttpMiddleware) (srv : HttpServer.t)
  : HttpServer.t :=
  foldl (λ srv middleware, HttpServer.registerMiddleware middleware srv) srv l.

(** A middleware of the HTTP server that awaits [next()] and returns. *)
Definition pass_through (name : string) : HttpMiddleware :=
  {| mw_name := name; mw_handler := λ _, AwaitNext Return |}.

(** A handler that throws at once, and one that answers with a text and
    throws after that. *)
Definition failing_handler (name payload : string) : RouteHandler :=
  {| h_name := name; h_run := λ _, Raise (Thrown payload) |}.

Definition late_failing_handler (name text payload : string) : RouteHandler :=
  {| h_name := name; h_run := λ _, Call (send text) (Raise (Thrown payload)) |}.

(** A server with the routes [POST /echo], [GET /boom] and [GET /late]. *)
Definition echo_server : HttpServer.t :=
  HttpServer.registerRoute get "/late" (late_failing_handler "late" "done" "too late")
    (HttpServer.registerRoute get "/boom" (failing_handler "boom" "broken")
       (HttpServer.registerRoute post "/echo" (echo_handler "echo")
          (HttpServer.new default_config))).

(** [new URL(url, base)] on one more request target,
    [/search?q=a&q=b]. *)
Definition search_URL (url base : string)
  : option (string * list (string * string)) :=
  if bool_decide (url = "/search?q=a&q=b")
  then Some ("/search", [("q", "a"); ("q", "b")])
  else None.

(** The response of [ex'] has every header that the response of [ex]
    has, as [res.hasHeader] tells: whatever the case of the name. *)
Definition headers_kept (ex ex' : HttpServer.exchange) : Prop :=
  ∀ name,
    is_Some (object_get toLowerCase (HttpServer.res_headers (HttpServer.res ex)) name) →
    is_Some (object_get toLowerCase (HttpServer.res_headers (HttpServer.res ex')) name).

(** ** [RateLimitMiddleware] *)

(** One of the middlewares that come with the framework.  It keeps a
    [Map] from client to the count of its requests and the start of its
    window, and reads the clock; times and options are integers here. *)
Module RateLimitMiddleware.

Record RateLimitOptions : Type := {
  windowMs : Z;
  max : Z
}.

Record RequestCount : Type := {
  count : Z;
  windowStart : Z
}.

(** What [execute] reads of its context: [req.ip],
    [req.headers?.["x-forwarded-for"]], and whether there is a
    [req.response]. *)
Record Context : Type := {
  ip : option string;
  forwarded_for : option string;
  response : bool
}.

Definition name : string := "rate-limit".

Definition priority : Z := 90.

(** [a || b] on what may be a string: [undefined] and the empty string
    are passed over. *)
Definition or_else (a : option string) (b : string) : string :=
  match a with
  | Some (String c s) => String c s
  | _ => b
  end.

Definition getClientId (req : Context) : string :=
  or_else (ip req) (or_else (forwarded_for req) "unknown").

(** [isRateLimited]; [now] is what [Date.now()] answers. *)
Definition isRateLimited (options : RateLimitOptions) (clientId : string)
  (now : Z) (requests : list (string * RequestCount))
  : bool * list (string * RequestCount) :=
  match map_get requests clientId with
  | None => (false, requests)
  | Some requestCount =>
      if decide (windowMs options < now - windowStart requestCount)%Z
      then (false, map_delete requests clientId)
      else (bool_decide (max options ≤ count requestCount)%Z, requests)
  end.

Definition recordRequest (options : RateLimitOptions) (clientId : string)
  (now : Z) (requests : list (string * RequestCount))
  : list (string * RequestCount) :=
  match map_get requests clientId with
  | Some existing =>
      if decide (windowMs options < now - windowStart existing)%Z
      then map_set requests clientId {| count := 1; windowStart := now |}
      else map_set requests clientId
             {| count := count existing + 1;
                windowStart := windowStart existing |}
  | None => map_set requests clientId {| count := 1; windowStart := now |}
  end.

(** [execute]: what the middleware does to the response and to
    [next()], and its map afterwards.  [now1] and [now2] are the two
    readings of the clock, in [isRateLimited] and in [recordRequest]. *)
Definition execute (options : RateLimitOptions) (req : Context) (now1 now2 : Z)
  (requests : list (string * RequestCount))
  : script response_call * list (string * RequestCount) :=
  let clientId := getClientId req in
  let '(limited, requests1) := isRateLimited options clientId now1 requests in
  if limited && response req then
    (Call (status 429)
       (Call (json (JObject [("error", JString "Too Many Requests");
                             ("message", JString "Rate limit exceeded")]))
          Return),
     requests1)
  else (AwaitNext Return, recordRequest options clientId now2 requests1).

(** One request after the other from the same context; the answer says
    for each whether it got to [next()]. *)
Fixpoint serve (options : RateLimitOptions) (req : Context)
  (clock : list (Z * Z)) (requests : list (string * RequestCount))
  : list bool * list (string * RequestCount) :=
  match clock with
  | [] => ([], requests)
  | (now1, now2) :: rest =>
      let '(s, requests1) := execute options req now1 now2 requests in
      let '(passed, requests2) := serve options req rest requests1 in
      (awaits_next s :: passed, requests2)
  end.

(** Every count is at least one and at most [max]. *)
Definition counts_bounded (options : RateLimitOptions)
  (requests : list (string * RequestCount)) : Prop :=
  ∀ clientId requestCount, map_get requests clientId = Some requestCount →
    (1 ≤ count requestCount ≤ max options)%Z.

End RateLimitMiddleware.

(** ** [EventEmitter] *)

(** The emitter the application announces its lifecycle on.  A listener
    is a function, and what the emitter can tell about a function is
    which one it is; the functions here are those that the caller hands
    over, known by a name, and the wrappers that [once] makes, each a
    new function.  Listeners are taken not to call the emitter
    themselves. *)
Module EventEmitter.

Inductive listener : Type :=
| Function (name : string)
| onceWrapper (serial : nat) (name : string).

#[global] Instance listener_eq_dec : EqDecision listener.
Proof. solve_decision. Defined.

(** The function that is called in the end. *)
Definition target (l : listener) : string :=
  match l with
  | Function name => name
  | onceWrapper _ name => name
  end.

Definition is_wrapper (l : listener) : bool :=
  match l with
  | Function _ => false
  | onceWrapper _ _ => true
  end.

(** [Set.add] and [Set.delete] on a set that is iterated in insertion
    order. *)
Definition Set_add (s : list listener) (l : listener) : list listener :=
  if decide (l ∈ s) then s else s ++ [l].

Definition Set_delete (s : list listener) (l : listener) : list listener :=
  filter (λ l', l' ≠ l) s.

(** The [listeners] map, and how many wrappers [once] has made. *)
Record t : Type := {
  listeners : list (string * list listener);
  wrappers : nat
}.

Definition new : t := {| listeners := []; wrappers := 0 |}.

Definition on (event : string) (l : listener) (em : t) : t :=
  let eventListeners := default [] (map_get (listeners em) event) in
  {| listeners := map_set (listeners em) event (Set_add eventListeners l);
     wrappers := wrappers em |}.

Definition off (event : string) (l : listener) (em : t) : t :=
  match map_get (listeners em) event with
  | Some eventListeners =>
      let remaining := Set_delete eventListeners l in
      {| listeners :=
           if decide (length remaining = 0)
           then map_delete (listeners em) event
           else map_set (listeners em) event remaining;
         wrappers := wrappers em |}
  | None => em
  end.

Definition once (event : string) (name : string) (em : t) : t :=
  on event (onceWrapper (wrappers em) name)
    {| listeners := listeners em; wrappers := S (wrappers em) |}.

Definition removeAllListeners (event : option string) (em : t) : t :=
  match event with
  | Some (String c s) =>
      {| listeners := map_delete (listeners em) (String c s);
         wrappers := wrappers em |}
  | _ => {| listeners := []; wrappers := wrappers em |}
  end.

Definition listenerCount (event : string) (em : t) : nat :=
  length (default [] (map_get (listeners em) event)).

Definition eventNames (em : t) : list string := map_keys (listeners em).

(** What [emit] does: it calls a function, and logs what the function
    throws. *)
Inductive call : Type :=
| Called (name : string)
| ErrorLogged (event : string) (e : error).

(** The loop of [emit] over the listeners of the event; [throws] says
    what calling a function comes to.  A wrapper takes itself out of the
    set before it calls its function. *)
Fixpoint emit_loop (event : string) (throws : string → option error)
  (eventListeners : list listener) (em : t) : t * list call :=
  match eventListeners with
  | [] => (em, [])
  | l :: rest =>
      let em1 := if is_wrapper l then off event l em else em in
      let '(em2, tr) := emit_loop event throws rest em1 in
      (em2,
       Called (target l)
         :: match throws (target l) with
            | Some e => [ErrorLogged event e]
            | None => []
            end
         ++ tr)
  end.

Definition emit (event : string) (throws : string → option error) (em : t)
  : t * list call :=
  match map_get (listeners em) event with
  | Some eventListeners => emit_loop event throws eventListeners em
  | None => (em, [])
  end.

(** The functions called, in order. *)
Definition called (tr : list call) : list string :=
  omap (λ c, match c with Called name => Some name | _ => None end) tr.

(** What [on], [off], [once] and [emit] maintain: every event that is
    there has listeners, none of them twice, and every wrapper is one
    that [once] has made. *)
Definition well_formed (em : t) : Prop :=
  NoDup (map_keys (listeners em))
  ∧ ∀ event eventListeners,
      map_get (listeners em) event = Some eventListeners →
      eventListeners ≠ [] ∧ NoDup eventListeners
      ∧ ∀ serial name, onceWrapper serial name ∈ eventListeners →
          serial < wrappers em.

End EventEmitter.

(** An emitter with three listeners for [app:initialised]: [audit],
    then [banner] registered with [once], then [metrics]; and what
    calling them comes to: [banner] throws. *)
Definition lifecycle_emitter : EventEmitter.t :=
  EventEmitter.on "app:initialised" (EventEmitter.Function "metrics")
    (EventEmitter.once "app:initialised" "banner"
       (EventEmitter.on "app:initialised" (EventEmitter.Function "audit")
          EventEmitter.new)).

Definition banner_throws (name : string) : option error :=
  if bool_decide (name = "banner") then Some (Thrown "no terminal") else None.

(** * Properties *)

(** ** Containers *)

Lemma map_has_true {V : Type} (m : list (string * V)) (k : string) :
  map_has m k = true ↔ is_Some (map_get m k).
Proof.
  unfold map_has. destruct (map_get m k); split; intros H; done.
Qed.

Lemma map_get_keys {V : Type} (m : list (string * V)) (k : string) :
  is_Some (map_get m k) ↔ k ∈ map_keys m.
Proof.
  unfold map_keys. induction m as [|[k' v] m IH]; simpl.
  - split; [intros [? ?]; done | intros H; inversion H].
  - destruct (decide (k' = k)) as [->|Hne].
    + split; [intros _; left | intros _; by eexists].
    + rewrite IH. split; [by right | intros H].
      apply elem_of_cons in H as [H|H]; [congruence | done].
Qed.

Lemma map_get_None {V : Type} (m : list (string * V)) (k : string) :
  map_get m k = None ↔ k ∉ map_keys m.
Proof.
  rewrite <- map_get_keys. destruct (map_get m k); split; intros H; try done.
  all: exfalso; apply H; done.
Qed.

Lemma map_get_In {V : Type} (m : list (string * V)) (k : string) (v : V) :
  map_get m k = Some v → (k, v) ∈ m.
Proof.
  induction m as [|[k' v'] m IH]; simpl; [done|].
  destruct (decide (k' = k)) as [->|Hne].
  - intros [= ->]. left.
  - intros H. right. by apply IH.
Qed.

Lemma map_set_keys_new {V : Type} (m : list (string * V)) (k : string) (v : V) :
  k ∉ map_keys m → map_keys (map_set m k v) = map_keys m ++ [k].
Proof.
  unfold map_keys. induction m as [|[k' v'] m IH]; simpl; [done|].
  intros Hk. apply not_elem_of_cons in Hk as [Hne Hk].
  destruct (decide (k' = k)); [congruence|]. csimpl. f_equal. by apply IH.
Qed.

Lemma map_get_set {V : Type} (m : list (string * V)) (k k' : string) (v : V) :
  map_get (map_set m k v) k' = if decide (k = k') then Some v else map_get m k'.
Proof.
  induction m as [|[k0 v0] m IH]; simpl.
  - destruct (decide (k = k')); done.
  - destruct (decide (k0 = k)) as [->|Hne]; simpl.
    + destruct (decide (k = k')); done.
    + destruct (decide (k0 = k')) as [->|Hne'].
      * destruct (decide (k = k')); [congruence | done].
      * apply IH.
Qed.

Lemma Set_of_elem (l : list string) (x : string) : x ∈ Set_of l ↔ x ∈ l.
Proof.
  induction l as [|y l IH]; simpl; [done|].
  rewrite !elem_of_cons, list_elem_of_filter, IH.
  destruct (decide (x = y)); tauto.
Qed.

Lemma Set_of_NoDup (l : list string) : NoDup (Set_of l).
Proof.
  induction l as [|y l IH]; simpl; [constructor|].
  constructor.
  - rewrite list_elem_of_filter. tauto.
  - by apply NoDup_filter.
Qed.

(** ** Loops *)

(** An invariant of a [for_each] loop that may mention the elements
    already processed; [T] and [F] say what a throw and a shortage of fuel
    must satisfy. *)
Lemma for_each_prefix_inv {A S : Type} (body : A → S → outcome S)
  (I : list A → S → Prop) (T : error → Prop) (F : Prop) (l : list A) :
  (∀ pre x suf s, l = pre ++ x :: suf → I pre s →
     match body x s with
     | Ok s' => I (pre ++ [x]) s'
     | Throw e => T e
     | OutOfFuel => F
     end) →
  ∀ s, I [] s →
    match for_each body l s with
    | Ok s' => I l s'
    | Throw e => T e
    | OutOfFuel => F
    end.
Proof.
  intros Hbody.
  assert (∀ suf pre s, l = pre ++ suf → I pre s →
            match for_each body suf s with
            | Ok s' => I l s'
            | Throw e => T e
            | OutOfFuel => F
            end) as Haux.
  { induction suf as [|x suf IH]; intros pre s Hl HI; simpl.
    - rewrite app_nil_r in Hl. by subst.
    - specialize (Hbody pre x suf s Hl HI).
      destruct (body x s) as [s'| |]; simpl; try done.
      apply (IH (pre ++ [x])); [|done].
      by rewrite <- app_assoc. }
  intros s Hs. by apply (Haux l []).
Qed.

Lemma for_each_inv {A S : Type} (body : A → S → outcome S)
  (I : S → Prop) (T : error → Prop) (F : Prop) (l : list A) :
  (∀ x s, x ∈ l → I s →
     match body x s with
     | Ok s' => I s'
     | Throw e => T e
     | OutOfFuel => F
     end) →
  ∀ s, I s →
    match for_each body l s with
    | Ok s' => I s'
    | Throw e => T e
    | OutOfFuel => F
    end.
Proof.
  intros Hbody s Hs.
  apply (for_each_prefix_inv body (λ _, I) T F l); [|done].
  intros pre x suf s0 -> HI. apply Hbody; [|done].
  apply elem_of_app. right. left.
Qed.

Section ModuleManagerProperties.

Import ModuleManager.

(** ** Dependency graphs *)

Lemma edge_default (g : list (string * list string)) (m d : string) :
  edge g m d ↔ d ∈ default [] (map_get g m).
Proof.
  unfold edge. destruct (map_get g m) as [deps|]; simpl.
  - split; [intros (? & [= <-] & ?); done | intros; by eexists].
  - split; [intros (? & ? & ?); done | intros H; inversion H].
Qed.

Lemma edge_source (g : list (string * list string)) (m d : string) :
  edge g m d → m ∈ g.*1.
Proof.
  intros (deps & Hget & _). apply (map_get_keys g m). by eexists.
Qed.

Lemma edge_names (g : list (string * list string)) (m d : string) :
  edge g m d → d ∈ graph_names g.
Proof.
  intros (deps & Hget & Hd). unfold graph_names.
  apply elem_of_list_to_set, elem_of_app. right.
  apply list_elem_of_join. exists deps. split; [done|].
  apply map_get_In in Hget.
  apply list_elem_of_fmap. by exists (m, deps).
Qed.

Lemma key_names (g : list (string * list string)) (m : string) :
  m ∈ g.*1 → m ∈ graph_names g.
Proof.
  intros H. unfold graph_names. apply elem_of_list_to_set, elem_of_app. by left.
Qed.

Lemma topo_sorted_nil (g : list (string * list string)) : topo_sorted g [].
Proof. intros l1 m l2 H. by destruct l1. Qed.

Lemma topo_sorted_snoc (g : list (string * list string)) (l : list string) (n : string) :
  topo_sorted g l → (∀ d, edge g n d → d ∈ l) → topo_sorted g (l ++ [n]).
Proof.
  intros Hl Hn l1 m l2 Heq d Hd.
  destruct l2 as [|x l2 _] using rev_ind.
  - apply app_inj_tail in Heq as [-> ->]. by apply Hn.
  - rewrite app_comm_cons, app_assoc in Heq.
    apply app_inj_tail in Heq as [-> _]. by apply (Hl l1 m l2).
Qed.

(** In a sorted list everything a module reaches stands before it. *)
Lemma topo_sorted_reach (g : list (string * list string)) (l : list string)
  (m d : string) :
  topo_sorted g l → tc (edge g) m d →
  ∀ l1 l2, l = l1 ++ m :: l2 → d ∈ l1.
Proof.
  intros Hl Hreach. induction Hreach as [m d Hmd | m y d Hmy _ IH];
    intros l1 l2 ->.
  - by apply (Hl l1 m l2).
  - assert (y ∈ l1) as Hy by by apply (Hl l1 m l2).
    apply list_elem_of_split in Hy as (a & b & ->).
    apply elem_of_app. left.
    apply (IH a (b ++ m :: l2)). by rewrite <- app_assoc.
Qed.

Lemma topo_sorted_no_cycle (g : list (string * list string)) (l : list string)
  (n : string) :
  topo_sorted g l → NoDup l → n ∈ l → ¬ tc (edge g) n n.
Proof.
  intros Hl Hnd Hn Hcyc.
  apply list_elem_of_split in Hn as (l1 & l2 & ->).
  pose proof (topo_sorted_reach g _ n n Hl Hcyc l1 l2 eq_refl) as Hin.
  apply NoDup_app in Hnd as (_ & Hdisj & _).
  apply (Hdisj n Hin). left.
Qed.

Lemma topo_sorted_acyclic (g : list (string * list string)) (l : list string) :
  topo_sorted g l → NoDup l → (∀ k, k ∈ g.*1 → k ∈ l) → acyclic g.
Proof.
  intros Hl Hnd Hall n Hcyc.
  apply (topo_sorted_no_cycle g l n Hl Hnd); [|done].
  apply Hall. inversion Hcyc; subst; by eapply edge_source.
Qed.

(** ** [getInitialisationOrder] *)

Section TopologicalSort.

Variable g : list (string * list string).

(** [visit] leaves [visiting] as it found it. *)
Lemma visit_visiting (fuel : nat) :
  ∀ n s, match visit fuel g n s with
         | Ok s' => visiting s' = visiting s
         | _ => True
         end.
Proof.
  induction fuel as [|fuel IH]; intros n s; simpl; [done|].
  destruct (decide (n ∈ visiting s)) as [|Hn]; [done|].
  destruct (decide (n ∈ visited s)); [done|].
  pose proof (for_each_inv (visit fuel g)
                (λ s2, visiting s2 = visiting s ∪ {[n]}) (λ _, True) True
                (default [] (map_get g n))) as Hloop.
  match goal with |- context [for_each _ _ ?s1] => specialize (Hloop ltac:(
    intros d s2 _ Hs2; specialize (IH d s2);
    destruct (visit fuel g d s2); [congruence | done | done]) s1 eq_refl) end.
  destruct (for_each _ _ _) as [s2| |]; simpl; [|done|done].
  rewrite Hloop. set_solver.
Qed.

Lemma visit_inv (fuel : nat) :
  ∀ n s, n ∈ graph_names g → sort_inv g s →
    match visit fuel g n s with
    | Ok s' => sort_inv g s' ∧ visited s ⊆ visited s' ∧ n ∈ visited s'
    | _ => True
    end.
Proof.
  induction fuel as [|fuel IH]; intros n s Hn Hinv; simpl; [done|].
  destruct (decide (n ∈ visiting s)) as [|Hnv]; [done|].
  destruct (decide (n ∈ visited s)) as [|Hnd]; [done|].
  set (s1 := {| sorted := sorted s; visited := visited s;
                visiting := visiting s ∪ {[n]} |}).
  pose proof (for_each_prefix_inv (visit fuel g)
                (λ pre s2, sort_inv g s2 ∧ visiting s2 = visiting s1
                           ∧ visited s ⊆ visited s2
                           ∧ ∀ d, d ∈ pre → d ∈ visited s2)
                (λ _, True) True (default [] (map_get g n))) as Hloop.
  specialize (Hloop ltac:(
    intros pre d suf s2 Hsplit (Hi & Hv & Hsub & Hpre);
    assert (d ∈ graph_names g) as Hd
      by (apply (edge_names g n), edge_default; rewrite Hsplit;
          apply elem_of_app; right; left);
    specialize (IH d s2 Hd Hi); pose proof (visit_visiting fuel d s2) as Hvis;
    destruct (visit fuel g d s2) as [s3| |]; [|done|done];
    destruct IH as (Hi3 & Hsub3 & Hd3);
    (split; [done|]); (split; [congruence|]); (split; [set_solver|]);
    intros d' Hd'; apply elem_of_app in Hd' as [Hd'|Hd'];
      [apply Hsub3; by apply Hpre | apply list_elem_of_singleton in Hd'; by subst]) s1).
  destruct Hinv as (Hnodup & Hvs & Htopo & Hdisj & Hnames).
  specialize (Hloop ltac:(
    (split; [|split; [done|split; [done|intros d Hd; inversion Hd]]]);
    (split; [done|]); (split; [done|]); (split; [done|]); (split; [|done]);
    simpl; set_solver)).
  destruct (for_each _ _ _) as [s2| |]; simpl; [|done|done].
  destruct Hloop as ((Hnodup2 & Hvs2 & Htopo2 & Hdisj2 & Hnames2) & Hv2 & Hsub2 & Hdeps).
  assert (n ∉ visited s2) as Hn2 by (simpl in Hv2; set_solver).
  split; [|split; [simpl; set_solver | simpl; set_solver]].
  split; [|split; [|split; [|split]]]; simpl.
  - apply NoDup_app. split; [done|]. split; [|apply NoDup_singleton].
    intros x Hx Hx'. apply list_elem_of_singleton in Hx' as ->.
    by apply Hn2, Hvs2.
  - intros x. rewrite elem_of_union, elem_of_app, elem_of_singleton,
      list_elem_of_singleton, Hvs2. done.
  - apply topo_sorted_snoc; [done|].
    intros d Hd. apply Hvs2, Hdeps. by apply edge_default.
  - set_solver.
  - intros x Hx. apply elem_of_app in Hx as [Hx|Hx]; [by apply Hnames2|].
    apply list_elem_of_singleton in Hx. by subst.
Qed.

(** On an acyclic graph [visit] returns, whatever it is called on, as
    long as [visiting] is a chain of callers that all reach [n]. *)
Lemma visit_returns (fuel : nat) :
  acyclic g →
  ∀ n s, n ∈ graph_names g → visiting s ⊆ graph_names g →
    size (graph_names g) < fuel + size (visiting s) →
    (∀ v, v ∈ visiting s → tc (edge g) v n) →
    match visit fuel g n s with
    | Ok _ => True
    | _ => False
    end.
Proof.
  intros Hacyc. induction fuel as [|fuel IH]; intros n s Hn Hsub Hsize Hchain.
  - apply subseteq_size in Hsub. simpl in Hsize. lia.
  - simpl. destruct (decide (n ∈ visiting s)) as [Hin|Hnv].
    { by apply (Hacyc n), Hchain. }
    destruct (decide (n ∈ visited s)); [done|].
    pose proof (for_each_inv (visit fuel g)
                  (λ s2, visiting s2 = visiting s ∪ {[n]}) (λ _, False) False
                  (default [] (map_get g n))) as Hloop.
    match goal with |- context [for_each _ _ ?s1] => specialize (Hloop ltac:(
      intros d s2 Hd Hs2;
      apply edge_default in Hd;
      pose proof (visit_visiting fuel d s2) as Hvis;
      specialize (IH d s2 ltac:(by eapply edge_names)
                    ltac:(rewrite Hs2; set_solver)
                    ltac:(rewrite Hs2, size_union, size_singleton by set_solver; lia)
                    ltac:(rewrite Hs2; intros v Hv;
                          apply elem_of_union in Hv as [Hv|Hv];
                          [eapply tc_r; [by apply Hchain | done]
                          | apply elem_of_singleton in Hv as ->; by apply tc_once]));
      destruct (visit fuel g d s2); [congruence | done | done]) s1 eq_refl) end.
    destruct (for_each _ _ _) as [s2| |]; simpl; done.
Qed.

(** The fuel is enough on every graph, and the only thing thrown is the
    cycle error. *)
Lemma visit_fuel (fuel : nat) :
  ∀ n s, n ∈ graph_names g → visiting s ⊆ graph_names g →
    size (graph_names g) < fuel + size (visiting s) →
    match visit fuel g n s with
    | Ok _ => True
    | Throw e => ∃ m, e = Error_CircularFor m
    | OutOfFuel => False
    end.
Proof.
  induction fuel as [|fuel IH]; intros n s Hn Hsub Hsize.
  - apply subseteq_size in Hsub. simpl in Hsize. lia.
  - simpl. destruct (decide (n ∈ visiting s)) as [Hin|Hnv]; [by eexists|].
    destruct (decide (n ∈ visited s)); [done|].
    pose proof (for_each_inv (visit fuel g)
                  (λ s2, visiting s2 = visiting s ∪ {[n]})
                  (λ e, ∃ m, e = Error_CircularFor m) False
                  (default [] (map_get g n))) as Hloop.
    match goal with |- context [for_each _ _ ?s1] => specialize (Hloop ltac:(
      intros d s2 Hd Hs2;
      apply edge_default in Hd;
      pose proof (visit_visiting fuel d s2) as Hvis;
      specialize (IH d s2 ltac:(by eapply edge_names)
                    ltac:(rewrite Hs2; set_solver)
                    ltac:(rewrite Hs2, size_union, size_singleton by set_solver; lia));
      destruct (visit fuel g d s2); [congruence | done | done]) s1 eq_refl) end.
    destruct (for_each _ _ _) as [s2| |]; simpl; done.
Qed.

End TopologicalSort.

Lemma map_get_In_NoDup {V : Type} (m : list (string * V)) (k : string) (v : V) :
  NoDup (map_keys m) → (k, v) ∈ m → map_get m k = Some v.
Proof.
  unfold map_keys. induction m as [|[k' v'] m IH]; csimpl; intros Hnd Hin.
  - inversion Hin.
  - apply NoDup_cons in Hnd as [Hk' Hnd].
    apply elem_of_cons in Hin as [[= -> ->]|Hin].
    + by rewrite decide_True.
    + destruct (decide (k' = k)) as [->|]; [|by apply IH].
      exfalso. apply Hk'. apply list_elem_of_fmap. by exists (k, v).
Qed.

Lemma graph_names_inv (g : list (string * list string)) (x : string) :
  NoDup (map_keys g) → x ∈ graph_names g → x ∈ g.*1 ∨ ∃ m, edge g m x.
Proof.
  intros Hnd Hx. unfold graph_names in Hx.
  apply elem_of_list_to_set, elem_of_app in Hx as [Hx|Hx]; [by left|].
  right. apply list_elem_of_join in Hx as (deps & Hx & Hdeps).
  apply list_elem_of_fmap in Hdeps as ([m deps'] & -> & Hin).
  exists m, deps'. split; [|done]. by apply map_get_In_NoDup.
Qed.

Section ManagerFacts.

Context {W : Type}.
Implicit Types (mm : t W) (w : W).

Lemma consistent_edge mm (m d : string) :
  consistent mm → edge (dependencyGraph mm) m d ↔ declares mm m d.
Proof.
  intros (Hkeys & Hnd & Hmods). split.
  - intros (deps & Hget & Hd).
    assert (is_Some (map_get (modules mm) m)) as [module Hmod].
    { apply map_get_keys. rewrite Hkeys. apply map_get_keys. by eexists. }
    exists module. split; [done|].
    destruct (Hmods m module Hmod) as [_ Hg]. rewrite Hg in Hget.
    injection Hget as <-. by apply Set_of_elem.
  - intros (module & Hmod & Hd).
    destruct (Hmods m module Hmod) as [_ Hg].
    eexists. split; [done|]. by apply Set_of_elem.
Qed.

Lemma consistent_names mm (x : string) :
  consistent mm → dependencies_registered mm →
  x ∈ graph_names (dependencyGraph mm) → x ∈ map_keys (modules mm).
Proof.
  intros Hc Hreg Hx. pose proof Hc as (Hkeys & Hnd & _).
  apply graph_names_inv in Hx as [Hx|[m Hx]].
  - by rewrite Hkeys.
  - apply (Hreg m). by apply consistent_edge.
  - by rewrite <- Hkeys.
Qed.

(** The order computed on an acyclic graph: a rearrangement of the
    registered names in which dependencies come first. *)
Lemma getInitialisationOrder_acyclic mm :
  consistent mm → dependencies_registered mm → acyclic (dependencyGraph mm) →
  ∃ order, getInitialisationOrder mm = Ok order
    ∧ NoDup order
    ∧ order ≡ₚ map_keys (modules mm)
    ∧ topo_sorted (dependencyGraph mm) order.
Proof.
  intros Hc Hreg Hacyc. pose proof Hc as (Hkeys & Hnd & _).
  unfold getInitialisationOrder.
  set (g := dependencyGraph mm).
  pose proof (for_each_prefix_inv
    (λ moduleName s,
       if decide (moduleName ∈ visited s) then Ok s
       else visit (traversal_fuel g) g moduleName s)
    (λ pre s, sort_inv g s ∧ visiting s = ∅ ∧ ∀ k, k ∈ pre → k ∈ visited s)
    (λ _, False) False (map_keys (modules mm))) as Hloop.
  specialize (Hloop ltac:(
    intros pre k suf s Hsplit (Hi & Hv & Hpre);
    assert (k ∈ graph_names g) as Hk
      by (apply key_names; fold (map_keys g); unfold g; rewrite <- Hkeys, Hsplit;
          apply elem_of_app; right; left);
    destruct (decide (k ∈ visited s)) as [Hin|Hnin];
    [ split; [done|split; [done|]]; intros k' Hk';
      apply elem_of_app in Hk' as [Hk'|Hk'];
      [by apply Hpre | apply list_elem_of_singleton in Hk'; by subst]
    | pose proof (visit_visiting g (traversal_fuel g) k s) as Hvis;
      pose proof (visit_inv g (traversal_fuel g) k s Hk Hi) as Hinv;
      pose proof (visit_returns g (traversal_fuel g) Hacyc k s Hk
                    ltac:(rewrite Hv; set_solver)
                    ltac:(unfold traversal_fuel; lia)
                    ltac:(rewrite Hv; set_solver)) as Hret;
      destruct (visit (traversal_fuel g) g k s) as [s'| |]; [|done|done];
      destruct Hinv as (Hi' & Hsub & Hk');
      split; [done|split; [congruence|]]; intros k' Hk'';
      apply elem_of_app in Hk'' as [Hk''|Hk''];
      [apply Hsub; by apply Hpre | apply list_elem_of_singleton in Hk''; by subst] ])
    {| sorted := []; visited := ∅; visiting := ∅ |}
    ltac:(split; [|split; [done|intros k Hk; inversion Hk]];
          split; [constructor|split; [set_solver|split;
            [apply topo_sorted_nil|split; [set_solver|intros x Hx; inversion Hx]]]])).
  destruct (for_each _ _ _) as [s| |]; simpl; [|done|done].
  destruct Hloop as ((Hnodup & Hvs & Htopo & _ & Hnames) & _ & Hall).
  exists (sorted s). split; [done|]. split; [done|]. split; [|done].
  apply NoDup_Permutation; [done|done|].
  intros x. split.
  - intros Hx. by apply consistent_names, Hnames.
  - intros Hx. by apply Hvs, Hall.
Qed.

(** [getInitialisationOrder] always comes to an end, and throws nothing
    but its cycle error. *)
Lemma getInitialisationOrder_total mm :
  consistent mm →
  match getInitialisationOrder mm with
  | Ok _ => True
  | Throw e => ∃ m, e = Error_CircularFor m
  | OutOfFuel => False
  end.
Proof.
  intros (Hkeys & _). unfold getInitialisationOrder.
  set (g := dependencyGraph mm).
  pose proof (for_each_inv
    (λ moduleName s,
       if decide (moduleName ∈ visited s) then Ok s
       else visit (traversal_fuel g) g moduleName s)
    (λ s, visiting s = ∅) (λ e, ∃ m, e = Error_CircularFor m) False
    (map_keys (modules mm))) as Hloop.
  specialize (Hloop ltac:(
    intros k s Hk Hv; cbv beta in Hv |- *;
    destruct (decide (k ∈ visited s)); [exact Hv|];
    pose proof (visit_visiting g (traversal_fuel g) k s) as Hvis;
    pose proof (visit_fuel g (traversal_fuel g) k s
                  ltac:(apply key_names; fold (map_keys g); unfold g;
                        by rewrite <- Hkeys)
                  ltac:(rewrite Hv; set_solver)
                  ltac:(unfold traversal_fuel; lia)) as Hfuel;
    destruct (visit (traversal_fuel g) g k s); [congruence | done | done])
    {| sorted := []; visited := ∅; visiting := ∅ |} eq_refl).
  destruct (for_each _ _ _) as [s| |]; simpl; done.
Qed.

End ManagerFacts.

(** ** [detectCircularDependencies] *)

Section CycleDetection.

Variable g : list (string * list string).

Lemma detect_visit_unfold (fuel : nat) (n : string) (s : detect_state) :
  detect_visit (S fuel) g n s =
    if decide (n ∈ recursionStack s) then Ok (true, s)
    else if decide (n ∈ d_visited s) then Ok (false, s)
    else
      s2 ← for_each (detect_step (detect_visit fuel g) n) (default [] (map_get g n))
             {| d_visited := d_visited s ∪ {[n]};
                recursionStack := recursionStack s ∪ {[n]} |};
      Ok (false, {| d_visited := d_visited s2;
                    recursionStack := recursionStack s2 ∖ {[n]} |}).
Proof. reflexivity. Qed.

Lemma detect_visit_stack (fuel : nat) :
  ∀ n s, match detect_visit fuel g n s with
         | Ok (_, s') => recursionStack s' = recursionStack s
         | _ => True
         end.
Proof.
  induction fuel as [|fuel IH]; intros n s; [done|].
  rewrite detect_visit_unfold.
  destruct (decide (n ∈ recursionStack s)) as [|Hn]; [done|].
  destruct (decide (n ∈ d_visited s)); [done|].
  pose proof (for_each_inv (detect_step (detect_visit fuel g) n)
                (λ s2, recursionStack s2 = recursionStack s ∪ {[n]})
                (λ _, True) True (default [] (map_get g n))) as Hloop.
  match goal with |- context [for_each _ _ ?s1] => specialize (Hloop ltac:(
    intros d s2 _ Hs2; specialize (IH d s2); unfold detect_step;
    destruct (detect_visit fuel g d s2) as [[[] s3]| |]; simpl;
      [done | congruence | done | done]) s1 eq_refl) end.
  destruct (for_each _ _ _) as [s2| |]; simpl; [|done|done].
  rewrite Hloop. set_solver.
Qed.

Lemma detect_visit_inv (fuel : nat) :
  ∀ n s, detect_inv g s →
    match detect_visit fuel g n s with
    | Ok (true, s') => n ∈ recursionStack s
    | Ok (false, s') =>
        detect_inv g s' ∧ d_visited s ⊆ d_visited s'
        ∧ n ∈ d_visited s' ∧ n ∉ recursionStack s'
    | _ => True
    end.
Proof.
  induction fuel as [|fuel IH]; intros n s Hinv; [done|].
  rewrite detect_visit_unfold.
  destruct (decide (n ∈ recursionStack s)) as [|Hns]; [done|].
  destruct (decide (n ∈ d_visited s)) as [|Hnv]; [done|].
  set (s1 := {| d_visited := d_visited s ∪ {[n]};
                recursionStack := recursionStack s ∪ {[n]} |}).
  pose proof (for_each_prefix_inv (detect_step (detect_visit fuel g) n)
                (λ pre s2, detect_inv g s2
                           ∧ recursionStack s2 = recursionStack s1
                           ∧ d_visited s1 ⊆ d_visited s2
                           ∧ ∀ d, d ∈ pre → d ∈ d_visited s2 ∧ d ∉ recursionStack s2)
                (λ _, True) True (default [] (map_get g n))) as Hloop.
  specialize (Hloop ltac:(
    intros pre d suf s2 Hsplit (Hi & Hst & Hsub & Hpre);
    specialize (IH d s2 Hi); pose proof (detect_visit_stack fuel d s2) as Hstack;
    unfold detect_step;
    destruct (detect_visit fuel g d s2) as [[[] s3]| |]; simpl in *; [done| |done|done];
    destruct IH as (Hi3 & Hsub3 & Hd3 & Hd3');
    (split; [done|]); (split; [congruence|]); (split; [set_solver|]);
    intros d' Hd'; apply elem_of_app in Hd' as [Hd'|Hd'];
      [ destruct (Hpre d' Hd') as [? ?]; split; [set_solver | congruence]
      | apply list_elem_of_singleton in Hd'; by subst ]) s1).
  destruct Hinv as (order & Hnd & Htopo & Hmem).
  specialize (Hloop ltac:(
    split; [|split; [done|split; [done|intros d Hd; inversion Hd]]];
    exists order; split; [done|split; [done|]];
    intros x; rewrite Hmem; simpl; set_solver)).
  destruct (for_each _ _ _) as [s2| |]; simpl; [|done|done].
  destruct Hloop as ((order2 & Hnd2 & Htopo2 & Hmem2) & Hst2 & Hsub2 & Hdeps).
  simpl in Hst2, Hsub2.
  split; [|split; [set_solver|split; [set_solver|set_solver]]].
  exists (order2 ++ [n]). split; [|split].
  - apply NoDup_app. split; [done|]. split; [|apply NoDup_singleton].
    intros x Hx Hx'. apply list_elem_of_singleton in Hx' as ->.
    apply Hmem2 in Hx as [_ Hx]. apply Hx. rewrite Hst2. set_solver.
  - apply topo_sorted_snoc; [done|].
    intros d Hd. apply Hmem2, Hdeps. by apply edge_default.
  - intros x. rewrite elem_of_app, list_elem_of_singleton, Hmem2. simpl.
    rewrite Hst2. destruct (decide (x = n)) as [->|]; set_solver.
Qed.

(** The fuel is enough, and the only thing thrown is the cycle error. *)
Lemma detect_visit_fuel (fuel : nat) :
  ∀ n s, n ∈ graph_names g → recursionStack s ⊆ graph_names g →
    size (graph_names g) < fuel + size (recursionStack s) →
    match detect_visit fuel g n s with
    | Ok _ => True
    | Throw e => ∃ m, e = Error_CircularInvolving m
    | OutOfFuel => False
    end.
Proof.
  induction fuel as [|fuel IH]; intros n s Hn Hsub Hsize.
  - apply subseteq_size in Hsub. simpl in Hsize. lia.
  - rewrite detect_visit_unfold.
    destruct (decide (n ∈ recursionStack s)) as [|Hns]; [done|].
    destruct (decide (n ∈ d_visited s)); [done|].
    pose proof (for_each_inv (detect_step (detect_visit fuel g) n)
                  (λ s2, recursionStack s2 = recursionStack s ∪ {[n]})
                  (λ e, ∃ m, e = Error_CircularInvolving m) False
                  (default [] (map_get g n))) as Hloop.
    match goal with |- context [for_each _ _ ?s1] => specialize (Hloop ltac:(
      intros d s2 Hd Hs2;
      apply edge_default in Hd;
      pose proof (detect_visit_stack fuel d s2) as Hstack;
      specialize (IH d s2 ltac:(by eapply edge_names)
                    ltac:(rewrite Hs2; set_solver)
                    ltac:(rewrite Hs2, size_union, size_singleton by set_solver; lia));
      unfold detect_step;
      destruct (detect_visit fuel g d s2) as [[[] s3]| |]; simpl;
        [by eexists | congruence | done | done]) s1 eq_refl) end.
    destruct (for_each _ _ _) as [s2| |]; simpl; done.
Qed.

(** On an acyclic graph nothing is thrown and no call answers [true]. *)
Lemma detect_visit_acyclic (fuel : nat) :
  acyclic g →
  ∀ n s, (∀ v, v ∈ recursionStack s → tc (edge g) v n) →
    match detect_visit fuel g n s with
    | Ok (true, _) => False
    | Throw _ => False
    | _ => True
    end.
Proof.
  intros Hacyc. induction fuel as [|fuel IH]; intros n s Hchain; [done|].
  rewrite detect_visit_unfold.
  destruct (decide (n ∈ recursionStack s)) as [Hin|Hns].
  { by apply (Hacyc n), Hchain. }
  destruct (decide (n ∈ d_visited s)); [done|].
  pose proof (for_each_inv (detect_step (detect_visit fuel g) n)
                (λ s2, recursionStack s2 = recursionStack s ∪ {[n]})
                (λ _, False) True
                (default [] (map_get g n))) as Hloop.
  match goal with |- context [for_each _ _ ?s1] => specialize (Hloop ltac:(
    intros d s2 Hd Hs2;
    apply edge_default in Hd;
    pose proof (detect_visit_stack fuel d s2) as Hstack;
    specialize (IH d s2 ltac:(rewrite Hs2; intros v Hv;
                      apply elem_of_union in Hv as [Hv|Hv];
                      [eapply tc_r; [by apply Hchain | done]
                      | apply elem_of_singleton in Hv as ->; by apply tc_once]));
    unfold detect_step;
    destruct (detect_visit fuel g d s2) as [[[] s3]| |]; simpl;
      [done | congruence | done | done]) s1 eq_refl) end.
  destruct (for_each _ _ _) as [s2| |]; simpl; done.
Qed.

End CycleDetection.

Section ValidationFacts.

Context {W : Type}.
Implicit Types (mm : t W) (w : W).

(** [detectCircularDependencies] always comes to an end; it returns only
    on an acyclic graph and throws nothing but its cycle error. *)
Lemma detectCircularDependencies_total mm :
  consistent mm →
  match detectCircularDependencies mm with
  | Ok _ => acyclic (dependencyGraph mm)
  | Throw e => ∃ m, e = Error_CircularInvolving m
  | OutOfFuel => False
  end.
Proof.
  intros (Hkeys & Hnd & _). unfold detectCircularDependencies.
  set (g := dependencyGraph mm).
  pose proof (for_each_prefix_inv
    (λ moduleName s,
       if decide (moduleName ∈ d_visited s) then Ok s
       else '(_, s') ← detect_visit (traversal_fuel g) g moduleName s; Ok s')
    (λ pre s, detect_inv g s ∧ recursionStack s = ∅
              ∧ ∀ k, k ∈ pre → k ∈ d_visited s)
    (λ e, ∃ m, e = Error_CircularInvolving m) False
    (map_keys (modules mm))) as Hloop.
  specialize (Hloop ltac:(
    intros pre k suf s Hsplit (Hi & Hst & Hpre);
    assert (k ∈ graph_names g) as Hk
      by (apply key_names; fold (map_keys g); unfold g; rewrite <- Hkeys, Hsplit;
          apply elem_of_app; right; left);
    destruct (decide (k ∈ d_visited s)) as [Hin|Hnin];
    [ split; [done|split; [done|]]; intros k' Hk';
      apply elem_of_app in Hk' as [Hk'|Hk'];
      [by apply Hpre | apply list_elem_of_singleton in Hk'; by subst]
    | pose proof (detect_visit_stack g (traversal_fuel g) k s) as Hstack;
      pose proof (detect_visit_inv g (traversal_fuel g) k s Hi) as Hinv;
      pose proof (detect_visit_fuel g (traversal_fuel g) k s Hk
                    ltac:(rewrite Hst; set_solver)
                    ltac:(unfold traversal_fuel; lia)) as Hfuel;
      destruct (detect_visit (traversal_fuel g) g k s) as [[[] s']| |];
        simpl in *; [set_solver| |done|done];
      destruct Hinv as (Hi' & Hsub & Hk' & _);
      split; [done|split; [congruence|]]; intros k' Hk'';
      apply elem_of_app in Hk'' as [Hk''|Hk''];
      [apply Hsub; by apply Hpre | apply list_elem_of_singleton in Hk''; by subst] ])
    {| d_visited := ∅; recursionStack := ∅ |}
    ltac:(split; [|split; [done|intros k Hk; inversion Hk]];
          exists []; split; [constructor|split; [apply topo_sorted_nil|]];
          intros x; simpl; set_solver)).
  destruct (for_each _ _ _) as [s| |]; simpl; [|done|done].
  destruct Hloop as ((order & Hnodup & Htopo & Hmem) & Hst & Hall).
  apply (topo_sorted_acyclic g order Htopo Hnodup).
  intros k Hk. apply Hmem. split; [|rewrite Hst; set_solver].
  apply Hall. by rewrite Hkeys.
Qed.

Lemma detectCircularDependencies_acyclic mm :
  consistent mm → acyclic (dependencyGraph mm) →
  detectCircularDependencies mm = Ok ().
Proof.
  intros Hc Hacyc. pose proof (detectCircularDependencies_total mm Hc) as Htot.
  unfold detectCircularDependencies in *.
  set (g := dependencyGraph mm) in *.
  pose proof (for_each_inv
    (λ moduleName s,
       if decide (moduleName ∈ d_visited s) then Ok s
       else '(_, s') ← detect_visit (traversal_fuel g) g moduleName s; Ok s')
    (λ s, recursionStack s = ∅) (λ _, False) True
    (map_keys (modules mm))) as Hloop.
  specialize (Hloop ltac:(
    intros k s _ Hst; cbv beta in Hst |- *;
    destruct (decide (k ∈ d_visited s)); [exact Hst|];
    pose proof (detect_visit_stack g (traversal_fuel g) k s) as Hstack;
    pose proof (detect_visit_acyclic g (traversal_fuel g) Hacyc k s
                  ltac:(rewrite Hst; set_solver)) as Hno;
    destruct (detect_visit (traversal_fuel g) g k s) as [[[] s']| |];
      simpl in *; [done|congruence|done|done])
    {| d_visited := ∅; recursionStack := ∅ |} eq_refl).
  destruct (for_each _ _ _) as [s| |]; simpl in *; done.
Qed.

(** With every dependency registered, the first loop of
    [validateDependencies] throws nothing. *)
Lemma validateDependencies_registered mm :
  consistent mm → dependencies_registered mm →
  validateDependencies mm = detectCircularDependencies mm.
Proof.
  intros Hc Hreg. pose proof Hc as (Hkeys & Hnd & _).
  unfold validateDependencies.
  pose proof (for_each_inv
    (λ (entry : string * list string) (_ : unit),
       for_each
         (λ dependency (_ : unit),
            if map_has (modules mm) dependency then Ok ()
            else Throw (Error_MissingDependency entry.1 dependency))
         entry.2 ())
    (λ _, True) (λ _, False) False (dependencyGraph mm)) as Hloop.
  specialize (Hloop ltac:(
    intros [m deps] [] Hentry _; simpl;
    pose proof (for_each_inv
      (λ dependency (_ : unit),
         if map_has (modules mm) dependency then Ok ()
         else Throw (Error_MissingDependency m dependency))
      (λ _, True) (λ _, False) False deps) as Hinner;
    specialize (Hinner ltac:(
      intros d [] Hd _;
      assert (d ∈ map_keys (modules mm)) as Hin
        by (apply (Hreg m), consistent_edge; [done|];
            exists deps; split; [|done];
            apply map_get_In_NoDup; [by rewrite <- Hkeys | done]);
      apply map_get_keys, map_has_true in Hin; by rewrite Hin) () I);
    by destruct (for_each _ deps ())) () I).
  destruct (for_each _ (dependencyGraph mm) ()) as [[]| |]; simpl; done.
Qed.

End ValidationFacts.

(** ** Registration keeps the manager consistent *)

Section RegistrationFacts.

Context {W : Type}.
Implicit Types (mm : t W) (w : W).

Lemma new_consistent : consistent (@new W).
Proof.
  split; [done|]. split; [constructor|]. intros k module H. inversion H.
Qed.

Lemma register_consistent mm mm' (module : IModule W) :
  consistent mm → register module mm = Ok mm' → consistent mm'.
Proof.
  intros (Hkeys & Hnd & Hmods). unfold register.
  destruct (map_has (modules mm) (m_name module)) eqn:Hhas; [done|].
  intros [= <-].
  assert (m_name module ∉ map_keys (modules mm)) as Hnew.
  { rewrite <- map_get_keys, <- map_has_true. by rewrite Hhas. }
  unfold consistent, buildDependencyGraph. simpl.
  rewrite !map_set_keys_new by (by rewrite <- ?Hkeys).
  split; [by rewrite Hkeys|]. split.
  - apply NoDup_app. split; [done|]. split; [|apply NoDup_singleton].
    intros x Hx Hx'. apply list_elem_of_singleton in Hx' as ->. done.
  - intros k module' Hget. rewrite map_get_set in Hget. rewrite map_get_set.
    destruct (decide (m_name module = k)) as [<-|Hne].
    + by injection Hget as <-.
    + by apply Hmods.
Qed.

Lemma map_delete_keys {V : Type} (m : list (string * V)) (k : string) :
  map_keys (map_delete m k) = filter (λ k', k' ≠ k) (map_keys m).
Proof.
  unfold map_keys, map_delete. induction m as [|[k' v] m IH]; [done|].
  rewrite filter_cons. csimpl. rewrite filter_cons.
  destruct (decide (k' ≠ k)); csimpl; by rewrite IH.
Qed.

Lemma map_get_delete {V : Type} (m : list (string * V)) (k k' : string) :
  map_get (map_delete m k) k' = if decide (k = k') then None else map_get m k'.
Proof.
  unfold map_delete. induction m as [|[k0 v0] m IH]; simpl.
  - by destruct (decide (k = k')).
  - rewrite filter_cons. simpl. destruct (decide (k0 ≠ k)) as [Hne|Heq]; simpl.
    + destruct (decide (k0 = k')) as [->|]; [|done].
      destruct (decide (k = k')); [congruence | done].
    + rewrite IH. apply dec_stable in Heq as ->.
      by destruct (decide (k = k')).
Qed.

Lemma unregister_consistent mm mm' (moduleName : string) :
  consistent mm → unregister moduleName mm = Ok mm' → consistent mm'.
Proof.
  intros (Hkeys & Hnd & Hmods). unfold unregister.
  destruct (map_get (modules mm) moduleName); [|done].
  destruct (decide (0 < length _)); [done|]. intros [= <-].
  unfold consistent. simpl. rewrite !map_delete_keys, Hkeys.
  split; [done|]. split.
  - rewrite <- Hkeys. by apply NoDup_filter.
  - intros k module. rewrite !map_get_delete.
    destruct (decide (moduleName = k)); [done|]. apply Hmods.
Qed.

Lemma register_all_consistent (l : list (IModule W)) mm :
  register_all l = Ok mm → consistent mm.
Proof.
  unfold register_all. revert mm.
  induction l as [|module l IH] using rev_ind; intros mm; simpl.
  - intros [= <-]. apply new_consistent.
  - rewrite foldl_app. simpl.
    destruct (foldl _ _ l) as [mm0| |]; simpl; [|done|done].
    intros Hreg. eapply register_consistent; [|done]. by apply IH.
Qed.

Lemma manager_of_consistent (l : list (IModule W)) : consistent (manager_of l).
Proof.
  unfold manager_of. destruct (register_all l) eqn:Hreg;
    [by eapply register_all_consistent | apply new_consistent | apply new_consistent].
Qed.

Lemma dependencies_registeredb_true mm :
  dependencies_registeredb mm = true → dependencies_registered mm.
Proof.
  unfold dependencies_registeredb. rewrite forallb_forall.
  intros Hall m d (module & Hget & Hd).
  apply map_get_In in Hget.
  specialize (Hall (m, module)). simpl in Hall.
  rewrite forallb_forall in Hall.
  apply map_get_keys, map_has_true, Hall; by apply list_elem_of_In.
Qed.

(** A graph on which the detection returns has no cycle. *)
Lemma detected_acyclic mm :
  consistent mm → detectCircularDependencies mm = Ok () →
  acyclic (dependencyGraph mm).
Proof.
  intros Hc Hdet. pose proof (detectCircularDependencies_total mm Hc) as Htot.
  by rewrite Hdet in Htot.
Qed.

End RegistrationFacts.

(** ** The loops of [initialise] and [shutdown] *)

Section LoopFacts.

Context {W : Type}.
Implicit Types (mm : t W) (w : W) (mods : list (string * IModule W)).

(** When the initialiser of [m] is called, every registered name that
    stands before [m] in the order has been dealt with: its initialiser
    has returned, or it said it was disabled. *)
Lemma initialise_loop_called mods (order : list string) :
  ∀ w r w' tr, initialise_loop mods order w = (r, w', tr) →
  ∀ pre m suf, tr = pre ++ InitialiseCalled m :: suf →
  ∃ l1 l2, order = l1 ++ m :: l2
    ∧ ∀ d, d ∈ l1 → d ∈ map_keys mods →
        InitialiseReturned d ∈ pre ∨ IsEnabled d false ∈ pre.
Proof.
  induction order as [|x rest IH]; intros w r w' tr Hloop pre m suf Htr;
    simpl in Hloop.
  - injection Hloop as <- <- <-. by destruct pre.
  - destruct (map_get mods x) as [module|] eqn:Hget.
    + destruct (m_isEnabled module w).
      * destruct (m_initialise module w) as [w1 [e|]].
        -- injection Hloop as <- <- <-.
           destruct pre as [|e1 [|e2 [|e3 pre]]]; simplify_eq/=.
           ++ exists [], rest. split; [done|]. intros d Hd. inversion Hd.
           ++ by destruct pre.
        -- destruct (initialise_loop mods rest w1) as [[r1 w1'] tr1] eqn:Hrest.
           injection Hloop as <- <- <-.
           destruct pre as [|e1 [|e2 [|e3 pre]]]; simplify_eq/=.
           ++ exists [], rest. split; [done|]. intros d Hd. inversion Hd.
           ++ destruct (IH _ _ _ _ Hrest pre m suf eq_refl) as (l1 & l2 & -> & Hl1).
              exists (x :: l1), l2. split; [done|].
              intros d Hd Hk. apply elem_of_cons in Hd as [->|Hd].
              ** left. set_solver.
              ** destruct (Hl1 d Hd Hk); [left | right]; set_solver.
      * destruct (initialise_loop mods rest w) as [[r1 w1'] tr1] eqn:Hrest.
        injection Hloop as <- <- <-.
        destruct pre as [|e1 pre]; simplify_eq/=.
        destruct (IH _ _ _ _ Hrest pre m suf eq_refl) as (l1 & l2 & -> & Hl1).
        exists (x :: l1), l2. split; [done|].
        intros d Hd Hk. apply elem_of_cons in Hd as [->|Hd].
        -- right. set_solver.
        -- destruct (Hl1 d Hd Hk); [left | right]; set_solver.
    + destruct (IH _ _ _ _ Hloop pre m suf Htr) as (l1 & l2 & -> & Hl1).
      exists (x :: l1), l2. split; [done|].
      intros d Hd Hk. apply elem_of_cons in Hd as [->|Hd]; [|by apply Hl1].
      apply map_get_keys in Hk. rewrite Hget in Hk. by destruct Hk.
Qed.

(** A module that says it is disabled is passed over. *)
Lemma initialise_loop_disabled mods (order : list string) (name : string)
  (module : IModule W) :
  map_get mods name = Some module → (∀ w, m_isEnabled module w = false) →
  ∀ w, InitialiseCalled name ∉ (initialise_loop mods order w).2.
Proof.
  intros Hget Hoff. induction order as [|x rest IH]; intros w; simpl.
  - set_solver.
  - destruct (map_get mods x) as [module'|] eqn:Hget'; [|apply IH].
    destruct (m_isEnabled module' w) eqn:Hen.
    + assert (x ≠ name) as Hne.
      { intros ->. rewrite Hget in Hget'. injection Hget' as <-.
        by rewrite Hoff in Hen. }
      destruct (m_initialise module' w) as [w1 [e|]].
      * simpl. set_solver.
      * specialize (IH w1).
        destruct (initialise_loop mods rest w1) as [[r1 w1'] tr1]. simpl in *.
        set_solver.
    + specialize (IH w).
      destruct (initialise_loop mods rest w) as [[r1 w1'] tr1]. simpl in *.
      set_solver.
Qed.

(** Unless an initialiser throws, the loop gets to every name of the
    order that has a module. *)
Lemma initialise_loop_reaches mods (order : list string) :
  ∀ w r w' tr, initialise_loop mods order w = (r, w', tr) →
  ∀ s, s ∈ order → s ∈ map_keys mods →
    InitialiseCalled s ∈ tr ∨ IsEnabled s false ∈ tr
    ∨ ∃ f e, r = Throw e ∧ InitialiseThrew f e ∈ tr.
Proof.
  induction order as [|x rest IH]; intros w r w' tr Hloop s Hs Hk;
    simpl in Hloop; [inversion Hs|].
  destruct (map_get mods x) as [module|] eqn:Hget.
  - destruct (m_isEnabled module w).
    + destruct (m_initialise module w) as [w1 [e|]].
      * injection Hloop as <- <- <-. right. right. exists x, e. set_solver.
      * destruct (initialise_loop mods rest w1) as [[r1 w1'] tr1] eqn:Hrest.
        injection Hloop as <- <- <-.
        apply elem_of_cons in Hs as [->|Hs]; [left; set_solver|].
        destruct (IH _ _ _ _ Hrest s Hs Hk) as [H|[H|(f & e & -> & H)]];
          [left; set_solver | right; left; set_solver
          | right; right; exists f, e; set_solver].
    + destruct (initialise_loop mods rest w) as [[r1 w1'] tr1] eqn:Hrest.
      injection Hloop as <- <- <-.
      apply elem_of_cons in Hs as [->|Hs]; [right; left; set_solver|].
      destruct (IH _ _ _ _ Hrest s Hs Hk) as [H|[H|(f & e & -> & H)]];
        [left; set_solver | right; left; set_solver
        | right; right; exists f, e; set_solver].
  - apply elem_of_cons in Hs as [->|Hs]; [|by eapply IH].
    apply map_get_keys in Hk. rewrite Hget in Hk. by destruct Hk.
Qed.

(** Whatever the loop reports about a module concerns a name of the
    order that has a module. *)
Lemma initialise_loop_returned mods (order : list string) :
  ∀ w s, InitialiseReturned s ∈ (initialise_loop mods order w).2 →
    s ∈ order ∧ s ∈ map_keys mods.
Proof.
  induction order as [|x rest IH]; intros w s; simpl; [set_solver|].
  destruct (map_get mods x) as [module|] eqn:Hget.
  - assert (x ∈ map_keys mods) as Hx by (apply map_get_keys; by eexists).
    destruct (m_isEnabled module w).
    + destruct (m_initialise module w) as [w1 [e|]]; simpl; [set_solver|].
      specialize (IH w1 s).
      destruct (initialise_loop mods rest w1) as [[r1 w1'] tr1]. simpl in *.
      intros H. repeat (apply elem_of_cons in H as [H|H]; simplify_eq);
        [set_solver|]. destruct (IH H). set_solver.
    + specialize (IH w s).
      destruct (initialise_loop mods rest w) as [[r1 w1'] tr1]. simpl in *.
      intros H. apply elem_of_cons in H as [H|H]; simplify_eq.
      destruct (IH H). set_solver.
  - intros H. destruct (IH w s H). set_solver.
Qed.

(** The loop throws only what an initialiser threw. *)
Lemma initialise_loop_throw mods (order : list string) :
  ∀ w, match (initialise_loop mods order w).1.1 with
       | Ok _ => True
       | Throw e => ∃ f, InitialiseThrew f e ∈ (initialise_loop mods order w).2
       | OutOfFuel => False
       end.
Proof.
  induction order as [|x rest IH]; intros w; simpl; [done|].
  destruct (map_get mods x) as [module|]; [|apply IH].
  destruct (m_isEnabled module w).
  - destruct (m_initialise module w) as [w1 [e|]]; simpl.
    + exists x. set_solver.
    + specialize (IH w1).
      destruct (initialise_loop mods rest w1) as [[[]] tr1]; simpl in *;
        [done| |done]. destruct IH as [f Hf]. exists f. set_solver.
  - specialize (IH w).
    destruct (initialise_loop mods rest w) as [[[]] tr1]; simpl in *;
      [done| |done]. destruct IH as [f Hf]. exists f. set_solver.
Qed.

(** [shutdown] calls the hook of every name that has a module. *)
Lemma shutdown_loop_calls mods (order : list string) :
  ∀ w s, s ∈ order → s ∈ map_keys mods →
    ShutdownCalled s ∈ (shutdown_loop mods order w).2.
Proof.
  induction order as [|x rest IH]; intros w s Hs Hk; simpl; [inversion Hs|].
  destruct (map_get mods x) as [module|] eqn:Hget.
  - destruct (m_shutdown module w) as [w1 thrown].
    specialize (IH w1 s).
    destruct (shutdown_loop mods rest w1) as [w2 tr]. simpl in *.
    apply elem_of_cons in Hs as [->|Hs]; [set_solver|].
    specialize (IH Hs Hk). set_solver.
  - apply elem_of_cons in Hs as [->|Hs]; [|by apply IH].
    apply map_get_keys in Hk. rewrite Hget in Hk. by destruct Hk.
Qed.

End LoopFacts.

(** ** The order of [getInitialisationOrder] and the registration order *)

Section VisitOrder.

Variable g : list (string * list string).

(** [visit] adds to the end of [sorted], and only names that [n]
    reaches. *)
Lemma visit_extends (fuel : nat) :
  ∀ n s, match visit fuel g n s with
         | Ok s' => ∃ added, sorted s' = sorted s ++ added
                      ∧ ∀ x, x ∈ added → rtc (edge g) n x
         | _ => True
         end.
Proof.
  induction fuel as [|fuel IH]; intros n s; simpl; [done|].
  destruct (decide (n ∈ visiting s)) as [|Hn]; [done|].
  destruct (decide (n ∈ visited s)).
  { exists []. rewrite app_nil_r. split; [done|]. intros x Hx. inversion Hx. }
  pose proof (for_each_inv (visit fuel g)
                (λ s2, ∃ added, sorted s2 = sorted s ++ added
                         ∧ ∀ x, x ∈ added → rtc (edge g) n x)
                (λ _, True) True (default [] (map_get g n))) as Hloop.
  match goal with |- context [for_each _ _ ?s1] => specialize (Hloop ltac:(
    intros d s2 Hd (added & Hs2 & Hadded); specialize (IH d s2);
    apply edge_default in Hd;
    destruct (visit fuel g d s2) as [s3| |]; [|done|done];
    destruct IH as (added' & Hs3 & Hadded');
    exists (added ++ added'); split; [by rewrite Hs3, Hs2, app_assoc|];
    intros x Hx; apply elem_of_app in Hx as [Hx|Hx]; [by apply Hadded|];
    eapply rtc_l; [done | by apply Hadded']) s1
    ltac:(exists []; rewrite app_nil_r; split; [done|];
          intros x Hx; inversion Hx)) end.
  destruct (for_each _ _ _) as [s2| |]; simpl; [|done|done].
  destruct Hloop as (added & Hs2 & Hadded).
  exists (added ++ [n]). split; [by rewrite Hs2, app_assoc|].
  intros x Hx. apply elem_of_app in Hx as [Hx|Hx]; [by apply Hadded|].
  by apply list_elem_of_singleton in Hx as ->.
Qed.

(** Whatever a sorted name reaches is sorted too. *)
Lemma sorted_closed (s : sort_state) (x y : string) :
  sort_inv g s → x ∈ sorted s → rtc (edge g) x y → y ∈ sorted s.
Proof.
  intros (_ & _ & Htopo & _) Hx Hreach.
  induction Hreach as [x|x d y Hxd _ IH]; [done|].
  apply IH. apply list_elem_of_split in Hx as (l1 & l2 & Hsplit).
  rewrite Hsplit. apply elem_of_app. left. by apply (Htopo l1 x l2).
Qed.

End VisitOrder.

Section OrderFacts.

Context {W : Type}.
Implicit Types (mm : t W).

(** The modules are visited in registration order: whatever the first
    modules registered reach comes first in the order. *)
Lemma getInitialisationOrder_registration_order mm (order : list string) :
  consistent mm → getInitialisationOrder mm = Ok order →
  ∀ pre suf, map_keys (modules mm) = pre ++ suf →
    ∃ l1 l2, order = l1 ++ l2
      ∧ ∀ x, x ∈ l1 ↔ ∃ k, k ∈ pre ∧ rtc (edge (dependencyGraph mm)) k x.
Proof.
  intros (Hkeys & Hnd & _). unfold getInitialisationOrder.
  set (g := dependencyGraph mm).
  pose proof (for_each_prefix_inv
    (λ moduleName s,
       if decide (moduleName ∈ visited s) then Ok s
       else visit (traversal_fuel g) g moduleName s)
    (λ seen s,
       sort_inv g s
       ∧ (∀ x, x ∈ sorted s ↔ ∃ k, k ∈ seen ∧ rtc (edge g) k x)
       ∧ ∀ pre suf, seen = pre ++ suf →
           ∃ l1 l2, sorted s = l1 ++ l2
             ∧ ∀ x, x ∈ l1 ↔ ∃ k, k ∈ pre ∧ rtc (edge g) k x)
    (λ _, True) True (map_keys (modules mm))) as Hloop.
  assert (∀ seen k s s',
            sort_inv g s' →
            (∀ x, x ∈ sorted s ↔ ∃ k', k' ∈ seen ∧ rtc (edge g) k' x) →
            (∀ pre suf, seen = pre ++ suf →
               ∃ l1 l2, sorted s = l1 ++ l2
                 ∧ ∀ x, x ∈ l1 ↔ ∃ k', k' ∈ pre ∧ rtc (edge g) k' x) →
            (∃ added, sorted s' = sorted s ++ added
               ∧ ∀ x, x ∈ added → rtc (edge g) k x) →
            k ∈ sorted s' →
            (∀ x, x ∈ sorted s' ↔ ∃ k', k' ∈ seen ++ [k] ∧ rtc (edge g) k' x)
            ∧ ∀ pre suf, seen ++ [k] = pre ++ suf →
                ∃ l1 l2, sorted s' = l1 ++ l2
                  ∧ ∀ x, x ∈ l1 ↔ ∃ k', k' ∈ pre ∧ rtc (edge g) k' x) as Hstep.
  { intros seen k s s' Hinv' Hall Hhist (added & Hs' & Hadded) Hk.
    assert (∀ x, x ∈ sorted s' ↔ ∃ k', k' ∈ seen ++ [k] ∧ rtc (edge g) k' x)
      as Hall'.
    { intros x. split.
      - rewrite Hs'. intros Hx. apply elem_of_app in Hx as [Hx|Hx].
        + apply Hall in Hx as (k' & Hk' & Hreach). exists k'. split; [|done].
          apply elem_of_app. by left.
        + exists k. split; [|by apply Hadded].
          apply elem_of_app. right. apply list_elem_of_here.
      - intros (k' & Hk' & Hreach).
        apply (sorted_closed g s' k' x Hinv'); [|done].
        apply elem_of_app in Hk' as [Hk'|Hk'].
        + rewrite Hs'. apply elem_of_app. left. apply Hall.
          exists k'. split; [done|]. apply rtc_refl.
        + by apply list_elem_of_singleton in Hk' as ->. }
    split; [done|]. intros pre suf Hsplit.
    destruct suf as [|y suf _] using rev_ind.
    - rewrite app_nil_r in Hsplit. subst pre.
      exists (sorted s'), []. by rewrite app_nil_r.
    - rewrite app_assoc in Hsplit. apply app_inj_tail in Hsplit as [-> _].
      destruct (Hhist pre suf eq_refl) as (l1 & l2 & Hs & Hl1).
      exists l1, (l2 ++ added). split; [|done].
      by rewrite Hs', Hs, app_assoc. }
  specialize (Hloop ltac:(
    intros seen k suf s Hsplit (Hi & Hall & Hhist);
    assert (k ∈ graph_names g) as Hk
      by (apply key_names; fold (map_keys g); unfold g; rewrite <- Hkeys, Hsplit;
          apply elem_of_app; right; left);
    destruct (decide (k ∈ visited s)) as [Hin|Hnin];
    [ split; [done|]; apply (Hstep seen k s s); [done|done|done| |];
      [ exists []; rewrite app_nil_r; split; [done|]; intros x Hx; inversion Hx
      | by apply Hi ]
    | pose proof (visit_inv g (traversal_fuel g) k s Hk Hi) as Hinv;
      pose proof (visit_extends g (traversal_fuel g) k s) as Hext;
      destruct (visit (traversal_fuel g) g k s) as [s'| |]; [|done|done];
      destruct Hinv as (Hi' & Hsub & Hk');
      split; [done|]; apply (Hstep seen k s s'); [done|done|done|done|];
      by apply Hi' ])
    {| sorted := []; visited := ∅; visiting := ∅ |}
    ltac:(split; [|split];
          [ split; [constructor|split; [set_solver|split;
              [apply topo_sorted_nil|split; [set_solver|intros x Hx; inversion Hx]]]]
          | intros x; split; [intros Hx; inversion Hx
                             | intros (k & Hk & _); inversion Hk]
          | intros pre suf Hsplit; symmetry in Hsplit;
            apply app_eq_nil in Hsplit as [-> ->];
            exists [], []; split; [done|]; intros x; split;
              [intros Hx; inversion Hx | intros (k & Hk & _); inversion Hk] ])).
  destruct (for_each _ _ _) as [s| |]; simpl; [|done|done].
  intros [= <-]. destruct Hloop as (_ & _ & Hhist). apply Hhist.
Qed.

(** The same in terms of what the modules declare. *)
Lemma declared_registration_order mm (order : list string) :
  consistent mm → getInitialisationOrder mm = Ok order →
  ∀ pre suf, map_keys (modules mm) = pre ++ suf →
    ∃ l1 l2, order = l1 ++ l2
      ∧ ∀ x, x ∈ l1 ↔ ∃ k, k ∈ pre ∧ rtc (declares mm) k x.
Proof.
  intros Hc Hord pre suf Hsplit.
  destruct (getInitialisationOrder_registration_order mm order Hc Hord pre suf Hsplit)
    as (l1 & l2 & Horder & Hl1).
  exists l1, l2. split; [done|]. intros x. rewrite Hl1.
  split; intros (k & Hk & Hreach); exists k; (split; [done|]);
    (eapply rtc_subrel; [|done]); intros a b Hab; by apply consistent_edge.
Qed.

(** Unless a module that stands before [s] throws, the loop gets to
    [s]. *)
Lemma initialise_loop_reaches_or_stops (mods : list (string * IModule W))
  (order : list string) :
  ∀ w r w' tr, initialise_loop mods order w = (r, w', tr) →
  ∀ s, s ∈ order → s ∈ map_keys mods →
    InitialiseCalled s ∈ tr ∨ IsEnabled s false ∈ tr
    ∨ ∃ f e l1 l2, order = l1 ++ s :: l2 ∧ f ∈ l1
                   ∧ r = Throw e ∧ InitialiseThrew f e ∈ tr.
Proof.
  assert (∀ (x : string) (rest : list string) (s : string) (r : outcome unit)
            (tr tr0 : list event),
            (InitialiseCalled s ∈ tr ∨ IsEnabled s false ∈ tr
             ∨ ∃ f e l1 l2, rest = l1 ++ s :: l2 ∧ f ∈ l1
                            ∧ r = Throw e ∧ InitialiseThrew f e ∈ tr) →
            InitialiseCalled s ∈ tr0 ++ tr ∨ IsEnabled s false ∈ tr0 ++ tr
            ∨ ∃ f e l1 l2, x :: rest = l1 ++ s :: l2 ∧ f ∈ l1
                           ∧ r = Throw e ∧ InitialiseThrew f e ∈ tr0 ++ tr)
    as Hlift.
  { intros x rest s r tr tr0 [H|[H|(f & e & l1 & l2 & -> & Hf & -> & H)]].
    - left. apply elem_of_app. by right.
    - right. left. apply elem_of_app. by right.
    - right. right. exists f, e, (x :: l1), l2.
      split; [done|]. split; [by right|]. split; [done|].
      apply elem_of_app. by right. }
  induction order as [|x rest IH]; intros w r w' tr Hloop s Hs Hk;
    simpl in Hloop; [inversion Hs|].
  destruct (map_get mods x) as [module|] eqn:Hget.
  - destruct (m_isEnabled module w).
    + destruct (m_initialise module w) as [w1 [e|]].
      * injection Hloop as <- <- <-.
        apply elem_of_cons in Hs as [->|Hs]; [left; set_solver|].
        destruct (decide (s = x)) as [->|Hne]; [left; set_solver|].
        apply list_elem_of_split in Hs as (l1 & l2 & ->).
        right. right. exists x, e, (x :: l1), l2.
        split; [done|]. split; [by left|]. split; [done|]. set_solver.
      * destruct (initialise_loop mods rest w1) as [[r1 w1'] tr1] eqn:Hrest.
        injection Hloop as <- <- <-.
        apply elem_of_cons in Hs as [->|Hs]; [left; set_solver|].
        apply (Hlift x rest s r1 tr1
                 [IsEnabled x true; InitialiseCalled x; InitialiseReturned x]).
        by apply (IH _ _ _ _ Hrest).
    + destruct (initialise_loop mods rest w) as [[r1 w1'] tr1] eqn:Hrest.
      injection Hloop as <- <- <-.
      apply elem_of_cons in Hs as [->|Hs]; [right; left; set_solver|].
      apply (Hlift x rest s r1 tr1 [IsEnabled x false]).
      by apply (IH _ _ _ _ Hrest).
  - apply elem_of_cons in Hs as [->|Hs].
    { apply map_get_keys in Hk. rewrite Hget in Hk. by destruct Hk. }
    apply (Hlift x rest s r tr []). by apply (IH _ _ _ _ Hloop).
Qed.

(** The first loop of [validateDependencies]. *)
Lemma missing_dependency_loop mm :
  match
    for_each
      (λ entry (_ : unit),
         for_each
           (λ dependency (_ : unit),
              if map_has (modules mm) dependency then Ok ()
              else Throw (Error_MissingDependency entry.1 dependency))
           entry.2 ())
      (dependencyGraph mm) ()
  with
  | Ok _ =>
      ∀ m deps d, (m, deps) ∈ dependencyGraph mm → d ∈ deps →
        d ∈ map_keys (modules mm)
  | Throw e =>
      ∃ m deps d, e = Error_MissingDependency m d
        ∧ (m, deps) ∈ dependencyGraph mm ∧ d ∈ deps
        ∧ d ∉ map_keys (modules mm)
  | OutOfFuel => False
  end.
Proof.
  pose proof (for_each_prefix_inv
    (λ entry (_ : unit),
       for_each
         (λ dependency (_ : unit),
            if map_has (modules mm) dependency then Ok ()
            else Throw (Error_MissingDependency entry.1 dependency))
         entry.2 ())
    (λ pre _, ∀ m deps d, (m, deps) ∈ pre → d ∈ deps → d ∈ map_keys (modules mm))
    (λ e, ∃ m deps d, e = Error_MissingDependency m d
            ∧ (m, deps) ∈ dependencyGraph mm ∧ d ∈ deps
            ∧ d ∉ map_keys (modules mm))
    False (dependencyGraph mm)) as Hloop.
  apply Hloop; [|intros m deps d Hin; inversion Hin].
  intros pre [m deps] suf [] Hsplit Hpre. cbn [fst snd].
  pose proof (for_each_prefix_inv
    (λ dependency (_ : unit),
       if map_has (modules mm) dependency then Ok ()
       else Throw (Error_MissingDependency m dependency))
    (λ pre' _, ∀ d, d ∈ pre' → d ∈ map_keys (modules mm))
    (λ e, ∃ m deps d, e = Error_MissingDependency m d
            ∧ (m, deps) ∈ dependencyGraph mm ∧ d ∈ deps
            ∧ d ∉ map_keys (modules mm))
    False deps) as Hinner.
  specialize (Hinner ltac:(
    intros pre' d suf' [] Hsplit' Hpre'; cbv beta;
    destruct (map_has (modules mm) d) eqn:Hhas;
    [ intros d' Hd'; apply elem_of_app in Hd' as [Hd'|Hd'];
      [ by apply Hpre'
      | apply list_elem_of_singleton in Hd' as ->;
        by apply map_get_keys, map_has_true ]
    | exists m, deps, d; split; [done|]; split;
      [ rewrite Hsplit; apply elem_of_app; right; left
      | split; [rewrite Hsplit'; apply elem_of_app; right; left|];
        intros Hin; apply map_get_keys, map_has_true in Hin; congruence ] ])
    () ltac:(intros d Hd; inversion Hd)).
  destruct (for_each _ deps ()) as [[]| |]; [|done|done].
  intros m' deps' d Hin Hd. apply elem_of_app in Hin as [Hin|Hin].
  - by apply (Hpre m' deps').
  - apply list_elem_of_singleton in Hin as [= -> ->]. by apply Hinner.
Qed.

Lemma consistent_entry mm (m d : string) :
  consistent mm →
  (∃ deps, (m, deps) ∈ dependencyGraph mm ∧ d ∈ deps) ↔ declares mm m d.
Proof.
  intros Hc. rewrite <- consistent_edge by done. pose proof Hc as (Hkeys & Hnd & _).
  unfold edge. split; intros (deps & H1 & H2); exists deps; split; try done.
  - apply map_get_In_NoDup; [by rewrite <- Hkeys|done].
  - by apply map_get_In.
Qed.

(** [validateDependencies] returns only when every declared dependency
    is registered and no module reaches itself. *)
Lemma validateDependencies_returns mm :
  consistent mm → validateDependencies mm = Ok () →
  dependencies_registered mm ∧ acyclic (dependencyGraph mm).
Proof.
  intros Hc Hval. pose proof (missing_dependency_loop mm) as Hloop.
  unfold validateDependencies in Hval.
  destruct (for_each _ (dependencyGraph mm) ()) as [[]| |]; [|done|done].
  simpl in Hval. split.
  - intros m d Hdecl. apply consistent_entry in Hdecl as (deps & Hin & Hd); [|done].
    by apply (Hloop m deps).
  - by apply detected_acyclic.
Qed.

End OrderFacts.

(** ** [ModuleManager.initialise] and [ModuleManager.shutdown] *)

Section InitialiseFacts.

Context {W : Type}.
Implicit Types (mm : t W) (w : W).

Lemma initialise_loop_no_warning (mods : list (string * IModule W))
  (order : list string) (message : string) :
  ∀ w, Warned message ∉ (initialise_loop mods order w).2.
Proof.
  induction order as [|x rest IH]; intros w; simpl; [set_solver|].
  destruct (map_get mods x) as [module|]; [|apply IH].
  destruct (m_isEnabled module w).
  - destruct (m_initialise module w) as [w1 [e|]]; simpl; [set_solver|].
    specialize (IH w1).
    destruct (initialise_loop mods rest w1) as [[r1 w1'] tr1]. simpl in *.
    set_solver.
  - specialize (IH w).
    destruct (initialise_loop mods rest w) as [[r1 w1'] tr1]. simpl in *.
    set_solver.
Qed.

(** Once validation and ordering have gone through, [initialise] is its
    loop. *)
Lemma initialise_unfold mm w (order : list string) :
  isInitialised mm = false → validateDependencies mm = Ok () →
  getInitialisationOrder mm = Ok order →
  (initialise mm w).2 = (initialise_loop (modules mm) order w).2
  ∧ (initialise mm w).1.1.1 = (initialise_loop (modules mm) order w).1.1
  ∧ (initialise mm w).1.1.2 =
      match (initialise_loop (modules mm) order w).1.1 with
      | Ok _ => {| modules := modules mm;
                   dependencyGraph := dependencyGraph mm;
                   isInitialised := true |}
      | _ => mm
      end.
Proof.
  intros Hinit Hval Hord. unfold initialise. rewrite Hinit, Hval, Hord.
  destruct (initialise_loop (modules mm) order w) as [[[[]| |] w'] tr]; done.
Qed.

(** C1, as amended.  On a consistent manager, with every declared
    dependency registered and no dependency cycle:
    [getInitialisationOrder] returns an order that is a rearrangement of
    the registered names, in which every module stands after each of its
    declared dependencies; the modules are visited in registration
    order, so that whatever the modules registered first reach stands
    first in it, and nothing but the registration order and the
    dependency sets has a say; [initialise] goes through the modules in
    that order; and when it calls the initialiser of a module, the
    initialiser of each of its declared dependencies has already
    returned, unless that dependency said it was disabled, in which case
    it was passed over.  The initialiser of a module that says it is
    disabled is never called; and when [initialise] returns, every
    registered module has had its initialiser called or has said it was
    disabled, whatever its dependencies said. *)
Theorem initialise_respects_dependencies mm w :
  consistent mm →
  dependencies_registered mm → acyclic (dependencyGraph mm) →
  ∃ order,
    getInitialisationOrder mm = Ok order
    ∧ order ≡ₚ map_keys (modules mm)
    ∧ (∀ l1 m l2 d, order = l1 ++ m :: l2 → declares mm m d → d ∈ l1)
    ∧ (∀ pre suf, map_keys (modules mm) = pre ++ suf →
         ∃ l1 l2, order = l1 ++ l2
           ∧ ∀ x, x ∈ l1 ↔ ∃ k, k ∈ pre ∧ rtc (declares mm) k x)
    ∧ (∀ mm2 : t W,
         map_keys (modules mm2) = map_keys (modules mm) →
         dependencyGraph mm2 = dependencyGraph mm →
         getInitialisationOrder mm2 = Ok order)
    ∧ (isInitialised mm = false →
       (initialise mm w).2 = (initialise_loop (modules mm) order w).2)
    ∧ (∀ pre m suf, (initialise mm w).2 = pre ++ InitialiseCalled m :: suf →
         ∀ d, declares mm m d →
           InitialiseReturned d ∈ pre ∨ IsEnabled d false ∈ pre)
    ∧ (∀ name module, map_get (modules mm) name = Some module →
         (∀ w', m_isEnabled module w' = false) →
         InitialiseCalled name ∉ (initialise mm w).2)
    ∧ (isInitialised mm = false → (initialise mm w).1.1.1 = Ok () →
       ∀ s, s ∈ map_keys (modules mm) →
         InitialiseCalled s ∈ (initialise mm w).2
         ∨ IsEnabled s false ∈ (initialise mm w).2).
Proof.
  intros Hc Hreg Hacyc.
  destruct (getInitialisationOrder_acyclic mm Hc Hreg Hacyc)
    as (order & Hord & Hnd & Hperm & Htopo).
  exists order. split; [done|]. split; [done|].
  assert (∀ l1 m l2 d, order = l1 ++ m :: l2 → declares mm m d → d ∈ l1) as Hbefore.
  { intros l1 m l2 d Hsplit Hd. apply (Htopo l1 m l2 Hsplit).
    by apply consistent_edge. }
  split; [done|]. split; [by apply declared_registration_order|].
  assert (validateDependencies mm = Ok ()) as Hval.
  { rewrite validateDependencies_registered by done.
    by apply detectCircularDependencies_acyclic. }
  split; [|split; [|split; [|split]]].
  - intros mm2 Hk Hg. rewrite <- Hord. unfold getInitialisationOrder.
    by rewrite Hk, Hg.
  - intros Hinit. by destruct (initialise_unfold mm w order Hinit Hval Hord).
  - intros pre m suf Htr d Hd.
    destruct (isInitialised mm) eqn:Hinit.
    { unfold initialise in Htr. rewrite Hinit in Htr. cbn [snd] in Htr.
      destruct pre as [|ev pre]; [done|]. by destruct pre. }
    destruct (initialise_unfold mm w order Hinit Hval Hord) as (Htr' & _ & _).
    rewrite Htr' in Htr.
    destruct (initialise_loop (modules mm) order w) as [[r w'] tr] eqn:Hloop.
    destruct (initialise_loop_called _ _ _ _ _ _ Hloop pre m suf Htr)
      as (l1 & l2 & Hsplit & Hl1).
    apply Hl1; [by eapply Hbefore | by eapply Hreg].
  - intros name module Hget Hoff.
    destruct (isInitialised mm) eqn:Hinit.
    { unfold initialise. rewrite Hinit. cbn [snd]. set_solver. }
    destruct (initialise_unfold mm w order Hinit Hval Hord) as (-> & _ & _).
    by apply (initialise_loop_disabled (modules mm) order name module).
  - intros Hinit Hok s Hs.
    destruct (initialise_unfold mm w order Hinit Hval Hord) as (Htr' & Hr' & _).
    rewrite Htr'. rewrite Hr' in Hok.
    destruct (initialise_loop (modules mm) order w) as [[r w'] tr] eqn:Hloop.
    cbn [fst snd] in *.
    destruct (initialise_loop_reaches _ _ _ _ _ _ Hloop s) as [H|[H|(f & e & Hr & _)]];
      [by rewrite Hperm|done|by left|by right|congruence].
Qed.

(** C2, as amended.  On a consistent manager that is not yet initialised
    and on which every declared dependency is registered, a dependency
    cycle makes [initialise] throw the cycle error of
    [detectCircularDependencies]; no hook has been called and the manager
    and the world are as they were. *)
Theorem initialise_rejects_cycle mm w :
  consistent mm → isInitialised mm = false → dependencies_registered mm →
  (∃ n, tc (edge (dependencyGraph mm)) n n) →
  ∃ m, initialise mm w = (Throw (Error_CircularInvolving m), mm, w, []).
Proof.
  intros Hc Hinit Hreg [n Hcyc]. unfold initialise. rewrite Hinit.
  rewrite validateDependencies_registered by done.
  pose proof (detectCircularDependencies_total mm Hc) as Htot.
  destruct (detectCircularDependencies mm) as [[]|e|]; [|by destruct Htot as [m ->]; exists m|done].
  by destruct (Htot n).
Qed.

(** C9, as amended.  When an initialiser throws, [initialise] leaves
    the manager as it was, its flag still false.  Validation had gone
    through, and goes through again: every declared dependency is
    registered and nothing is cyclic.  A later call is therefore not the
    warning-only return: it is the loop over the same order from its
    first module, dependencies first; and every module whose initialiser
    had returned on the failed attempt has it called again, unless it
    now says it is disabled or the initialiser of a module that stands
    before it in the order throws this time, which ends the loop. *)
Theorem failed_initialise_is_retried mm w (e : error) mm' w' (tr : list event)
  (f : string) :
  consistent mm →
  isInitialised mm = false →
  initialise mm w = (Throw e, mm', w', tr) →
  InitialiseThrew f e ∈ tr →
  mm' = mm
  ∧ isInitialised mm' = false
  ∧ dependencies_registered mm'
  ∧ acyclic (dependencyGraph mm')
  ∧ validateDependencies mm' = Ok ()
  ∧ ∃ order,
      getInitialisationOrder mm' = Ok order
      ∧ order ≡ₚ map_keys (modules mm')
      ∧ (∀ l1 m l2 d, order = l1 ++ m :: l2 → declares mm' m d → d ∈ l1)
      ∧ tr = (initialise_loop (modules mm') order w).2
      ∧ ∀ w2,
          (Warned "Module manager already initialised" ∉ (initialise mm' w2).2)
          ∧ (initialise mm' w2).2 = (initialise_loop (modules mm') order w2).2
          ∧ (initialise mm' w2).1.1.1 = (initialise_loop (modules mm') order w2).1.1
          ∧ (∀ pre m suf,
               (initialise mm' w2).2 = pre ++ InitialiseCalled m :: suf →
               ∀ d, declares mm' m d →
                 InitialiseReturned d ∈ pre ∨ IsEnabled d false ∈ pre)
          ∧ ∀ s, InitialiseReturned s ∈ tr →
              InitialiseCalled s ∈ (initialise mm' w2).2
              ∨ IsEnabled s false ∈ (initialise mm' w2).2
              ∨ ∃ f2 e2 l1 l2,
                  order = l1 ++ s :: l2 ∧ f2 ∈ l1
                  ∧ (initialise mm' w2).1.1.1 = Throw e2
                  ∧ InitialiseThrew f2 e2 ∈ (initialise mm' w2).2.
Proof.
  intros Hc Hinit Hrun Hthrew.
  pose proof Hrun as Hrun'. unfold initialise in Hrun'. rewrite Hinit in Hrun'.
  destruct (validateDependencies mm) as [[]| |] eqn:Hval;
    [|injection Hrun' as <- <- <- <-; inversion Hthrew|done].
  destruct (getInitialisationOrder mm) as [order| |] eqn:Hord;
    [|injection Hrun' as <- <- <- <-; inversion Hthrew|done].
  destruct (initialise_loop (modules mm) order w) as [[r1 w1] tr1] eqn:Hloop.
  assert (mm' = mm ∧ tr1 = tr) as [-> ->].
  { destruct r1; by simplify_eq. }
  destruct (validateDependencies_returns mm Hc Hval) as [Hreg Hacyc].
  destruct (getInitialisationOrder_acyclic mm Hc Hreg Hacyc)
    as (order' & Hord' & Hnd & Hperm & Htopo).
  assert (order' = order) as -> by congruence.
  assert (∀ l1 m l2 d, order = l1 ++ m :: l2 → declares mm m d → d ∈ l1) as Hbefore.
  { intros l1 m l2 d Hsplit Hd. apply (Htopo l1 m l2 Hsplit).
    by apply consistent_edge. }
  split; [done|]. split; [done|]. split; [done|]. split; [done|]. split; [done|].
  exists order. split; [done|]. split; [done|]. split; [done|].
  split; [by rewrite Hloop|]. intros w2.
  destruct (initialise_unfold mm w2 order Hinit Hval Hord) as (Htr2 & Hr2 & _).
  rewrite Htr2, Hr2. split; [apply initialise_loop_no_warning|].
  split; [done|]. split; [done|].
  destruct (initialise_loop (modules mm) order w2) as [[r2 w2'] tr2] eqn:Hloop2.
  split.
  - intros pre m suf Htr d Hd.
    destruct (initialise_loop_called _ _ _ _ _ _ Hloop2 pre m suf Htr)
      as (l1 & l2 & Hsplit & Hl1).
    apply Hl1; [by eapply Hbefore | by eapply Hreg].
  - intros s Hs.
    pose proof (initialise_loop_returned (modules mm) order w s) as Hret.
    rewrite Hloop in Hret. destruct (Hret Hs) as [Hso Hsk].
    by apply (initialise_loop_reaches_or_stops _ _ _ _ _ _ Hloop2).
Qed.

(** A module that says it is disabled never has its initialiser called. *)
Lemma initialise_skips_disabled mm w (name : string) (module : IModule W) :
  map_get (modules mm) name = Some module →
  (∀ w', m_isEnabled module w' = false) →
  InitialiseCalled name ∉ (initialise mm w).2.
Proof.
  intros Hget Hoff. unfold initialise.
  destruct (isInitialised mm); [set_solver|].
  destruct (validateDependencies mm) as [[]| |]; [|set_solver|set_solver].
  destruct (getInitialisationOrder mm) as [order| |]; [|set_solver|set_solver].
  pose proof (initialise_loop_disabled (modules mm) order name module Hget Hoff w)
    as Hloop.
  by destruct (initialise_loop (modules mm) order w) as [[[[]| |] w'] tr].
Qed.

(** [shutdown] calls the shutdown hook of every registered module,
    enabled or not. *)
Lemma shutdown_calls_every_module mm w (name : string) :
  consistent mm → isInitialised mm = true →
  dependencies_registered mm → acyclic (dependencyGraph mm) →
  name ∈ map_keys (modules mm) →
  ShutdownCalled name ∈ (shutdown mm w).2.
Proof.
  intros Hc Hinit Hreg Hacyc Hname.
  destruct (getInitialisationOrder_acyclic mm Hc Hreg Hacyc)
    as (order & Hord & _ & Hperm & _).
  unfold shutdown. rewrite Hinit, Hord. simpl.
  pose proof (shutdown_loop_calls (modules mm) (reverse order) w name) as Hcalls.
  destruct (shutdown_loop (modules mm) (reverse order) w) as [w' tr]. simpl in *.
  apply Hcalls; [|done]. rewrite elem_of_reverse. by rewrite Hperm.
Qed.

End InitialiseFacts.

Lemma stack_example_acyclic : acyclic (dependencyGraph stack_example).
Proof.
  apply detected_acyclic; [apply manager_of_consistent | by vm_compute].
Qed.

Lemma branches_example_acyclic : acyclic (dependencyGraph branches_example).
Proof.
  apply detected_acyclic; [apply manager_of_consistent | by vm_compute].
Qed.

(** [web], [jobs], [db] and [log] registered in that order are
    initialised as [log], [web], [db], [jobs]: [web] is visited first
    and brings [log] along, then [jobs] brings [db]. *)
Lemma initialise_respects_dependencies_witness :
  getInitialisationOrder branches_example = Ok ["log"; "web"; "db"; "jobs"]
  ∧ ∃ order,
      getInitialisationOrder branches_example = Ok order
      ∧ order ≡ₚ map_keys (modules branches_example)
      ∧ (∀ l1 m l2 d,
           order = l1 ++ m :: l2 → declares branches_example m d → d ∈ l1)
      ∧ (∀ pre suf, map_keys (modules branches_example) = pre ++ suf →
           ∃ l1 l2, order = l1 ++ l2
             ∧ ∀ x, x ∈ l1 ↔ ∃ k, k ∈ pre ∧ rtc (declares branches_example) k x)
      ∧ (∀ mm2 : t unit,
           map_keys (modules mm2) = map_keys (modules branches_example) →
           dependencyGraph mm2 = dependencyGraph branches_example →
           getInitialisationOrder mm2 = Ok order)
      ∧ (isInitialised branches_example = false →
         (initialise branches_example ()).2
         = (initialise_loop (modules branches_example) order ()).2)
      ∧ (∀ pre m suf,
           (initialise branches_example ()).2 = pre ++ InitialiseCalled m :: suf →
           ∀ d, declares branches_example m d →
             InitialiseReturned d ∈ pre ∨ IsEnabled d false ∈ pre)
      ∧ (∀ name module, map_get (modules branches_example) name = Some module →
           (∀ w', m_isEnabled module w' = false) →
           InitialiseCalled name ∉ (initialise branches_example ()).2)
      ∧ (isInitialised branches_example = false →
         (initialise branches_example ()).1.1.1 = Ok () →
         ∀ s, s ∈ map_keys (modules branches_example) →
           InitialiseCalled s ∈ (initialise branches_example ()).2
           ∨ IsEnabled s false ∈ (initialise branches_example ()).2).
Proof.
  split; [by vm_compute|].
  apply (initialise_respects_dependencies branches_example ()).
  - apply manager_of_consistent.
  - apply dependencies_registeredb_true. by vm_compute.
  - apply branches_example_acyclic.
Defined.

(** C1 as it is stated fails: [A] declares [B], [B] is registered and
    disabled, nothing is cyclic, and the initialiser of [A] is called
    although that of [B] has not returned: it is never called. *)
Lemma initialise_with_disabled_dependency :
  consistent disabled_dependency_example
  ∧ isInitialised disabled_dependency_example = false
  ∧ dependencies_registered disabled_dependency_example
  ∧ acyclic (dependencyGraph disabled_dependency_example)
  ∧ declares disabled_dependency_example "A" "B"
  ∧ (initialise disabled_dependency_example ()).2
    = [IsEnabled "B" false; IsEnabled "A" true]
        ++ InitialiseCalled "A" :: [InitialiseReturned "A"]
  ∧ (InitialiseReturned "B" ∉ [IsEnabled "B" false; IsEnabled "A" true])
  ∧ InitialiseCalled "B" ∉ (initialise disabled_dependency_example ()).2.
Proof.
  assert (consistent disabled_dependency_example) as Hc
    by apply manager_of_consistent.
  split; [done|]. split; [done|].
  split; [apply dependencies_registeredb_true; by vm_compute|].
  split; [apply detected_acyclic; [done | by vm_compute]|].
  split; [eexists; split; [by vm_compute | set_solver]|].
  split; [by vm_compute|].
  split; [set_solver|]. vm_compute. set_solver.
Qed.

Lemma cycle_example_cycle : tc (edge (dependencyGraph cycle_example)) "A" "A".
Proof.
  apply tc_l with "B"; [|apply tc_once];
    (eexists; split; [by vm_compute | set_solver]).
Qed.

(** [A] needs [B] and [B] needs [A]: the cycle is found while [B] is
    visited, and nothing is initialised. *)
Lemma initialise_rejects_cycle_witness :
  initialise cycle_example () = (Throw (Error_CircularInvolving "B"), cycle_example, (), [])
  ∧ ∃ m, initialise cycle_example ()
         = (Throw (Error_CircularInvolving m), cycle_example, (), []).
Proof.
  split; [by vm_compute|].
  apply (initialise_rejects_cycle cycle_example ()).
  - apply manager_of_consistent.
  - reflexivity.
  - apply dependencies_registeredb_true. by vm_compute.
  - exists "A". apply cycle_example_cycle.
Defined.

(** C2 as it is stated fails: the graph has the cycle [A], [B], [A], and
    what [initialise] throws is the error about the missing [ghost],
    which [validateDependencies] looks for first. *)
Lemma initialise_cycle_with_missing_dependency :
  consistent cycle_and_ghost_example
  ∧ isInitialised cycle_and_ghost_example = false
  ∧ tc (edge (dependencyGraph cycle_and_ghost_example)) "A" "A"
  ∧ initialise cycle_and_ghost_example ()
    = (Throw (Error_MissingDependency "B" "ghost"), cycle_and_ghost_example, (), [])
  ∧ ∀ m, (initialise cycle_and_ghost_example ()).1.1.1
         ≠ Throw (Error_CircularInvolving m).
Proof.
  split; [apply manager_of_consistent|]. split; [done|]. split.
  - apply tc_l with "B"; [|apply tc_once];
      (eexists; split; [by vm_compute | set_solver]).
  - split; [by vm_compute|]. intros m. by vm_compute.
Qed.

(** [cache] and [db] initialise and [auth] throws; the manager is left
    as it was, and every later call starts with [cache] again. *)
Lemma failed_initialise_is_retried_witness :
  initialise flaky_example 0
  = (Throw (Thrown "no key"), flaky_example, 1,
     [IsEnabled "cache" true; InitialiseCalled "cache"; InitialiseReturned "cache";
      IsEnabled "db" true; InitialiseCalled "db"; InitialiseReturned "db";
      IsEnabled "auth" true; InitialiseCalled "auth";
      InitialiseThrew "auth" (Thrown "no key")])
  ∧ getInitialisationOrder flaky_example = Ok ["cache"; "db"; "auth"]
  ∧ isInitialised flaky_example = false
  ∧ dependencies_registered flaky_example
  ∧ acyclic (dependencyGraph flaky_example)
  ∧ validateDependencies flaky_example = Ok ()
  ∧ ∃ order,
      getInitialisationOrder flaky_example = Ok order
      ∧ order ≡ₚ map_keys (modules flaky_example)
      ∧ (∀ l1 m l2 d, order = l1 ++ m :: l2 → declares flaky_example m d → d ∈ l1)
      ∧ [IsEnabled "cache" true; InitialiseCalled "cache"; InitialiseReturned "cache";
         IsEnabled "db" true; InitialiseCalled "db"; InitialiseReturned "db";
         IsEnabled "auth" true; InitialiseCalled "auth";
         InitialiseThrew "auth" (Thrown "no key")]
        = (initialise_loop (modules flaky_example) order 0).2
      ∧ ∀ w2,
          (Warned "Module manager already initialised"
             ∉ (initialise flaky_example w2).2)
          ∧ (initialise flaky_example w2).2
            = (initialise_loop (modules flaky_example) order w2).2
          ∧ (initialise flaky_example w2).1.1.1
            = (initialise_loop (modules flaky_example) order w2).1.1
          ∧ (∀ pre m suf,
               (initialise flaky_example w2).2 = pre ++ InitialiseCalled m :: suf →
               ∀ d, declares flaky_example m d →
                 InitialiseReturned d ∈ pre ∨ IsEnabled d false ∈ pre)
          ∧ ∀ s, InitialiseReturned s
                   ∈ [IsEnabled "cache" true; InitialiseCalled "cache";
                      InitialiseReturned "cache";
                      IsEnabled "db" true; InitialiseCalled "db";
                      InitialiseReturned "db";
                      IsEnabled "auth" true; InitialiseCalled "auth";
                      InitialiseThrew "auth" (Thrown "no key")] →
              InitialiseCalled s ∈ (initialise flaky_example w2).2
              ∨ IsEnabled s false ∈ (initialise flaky_example w2).2
              ∨ ∃ f2 e2 l1 l2,
                  order = l1 ++ s :: l2 ∧ f2 ∈ l1
                  ∧ (initialise flaky_example w2).1.1.1 = Throw e2
                  ∧ InitialiseThrew f2 e2 ∈ (initialise flaky_example w2).2.
Proof.
  split; [by vm_compute|]. split; [by vm_compute|].
  refine (proj2 (failed_initialise_is_retried flaky_example 0 (Thrown "no key")
            flaky_example 1 _ "auth" (manager_of_consistent _) eq_refl eq_refl _)).
  set_solver.
Defined.

(** C9 as it is stated fails: on the failed attempt the initialisers of
    [cache] and [db] return and that of [auth] throws; the next call
    starts over with [cache], whose initialiser throws this time, and
    the initialiser of [db] is not called again. *)
Lemma retry_stops_before_initialised_module :
  consistent flaky_example
  ∧ isInitialised flaky_example = false
  ∧ initialise flaky_example 0
    = (Throw (Thrown "no key"), flaky_example, 1,
       [IsEnabled "cache" true; InitialiseCalled "cache"; InitialiseReturned "cache";
        IsEnabled "db" true; InitialiseCalled "db"; InitialiseReturned "db";
        IsEnabled "auth" true; InitialiseCalled "auth";
        InitialiseThrew "auth" (Thrown "no key")])
  ∧ initialise flaky_example 1
    = (Throw (Thrown "gone"), flaky_example, 2,
       [IsEnabled "cache" true; InitialiseCalled "cache";
        InitialiseThrew "cache" (Thrown "gone")])
  ∧ InitialiseCalled "db" ∉ (initialise flaky_example 1).2.
Proof.
  split; [apply manager_of_consistent|]. split; [done|].
  split; [by vm_compute|]. split; [by vm_compute|].
  vm_compute. set_solver.
Qed.

(** C5, on the input where the code departs from it: [A] is registered
    and disabled, [initialise] passes it over, and [shutdown] calls its
    shutdown hook all the same, after that of [B]. *)
Theorem shutdown_calls_disabled_module :
  (initialise disabled_example ()).1.1.1 = Ok ()
  ∧ (initialise disabled_example ()).2
    = [IsEnabled "A" false; IsEnabled "B" true;
       InitialiseCalled "B"; InitialiseReturned "B"]
  ∧ (shutdown (initialise disabled_example ()).1.1.2 ()).2
    = [ShutdownCalled "B"; ShutdownReturned "B";
       ShutdownCalled "A"; ShutdownReturned "A"].
Proof. by vm_compute. Qed.

End ModuleManagerProperties.

(** ** [Array.prototype.sort] *)

Section SortFacts.

Context {A : Type} (key : A → Z).


Lemma sort_insert_perm (x : A) (l : list A) :
  sort_insert (descending key) x l ≡ₚ x :: l.
Proof.
  induction l as [|y l IH]; simpl; [done|].
  destruct (decide (descending key x y ≤ 0)%Z); [done|].
  rewrite IH. apply Permutation_swap.
Qed.

Lemma Array_sort_perm (l : list A) : Array_sort (descending key) l ≡ₚ l.
Proof.
  induction l as [|x l IH]; simpl; [done|].
  by rewrite sort_insert_perm, IH.
Qed.

Lemma sort_insert_sorted (x : A) (l : list A) :
  StronglySorted (λ a b, (key b ≤ key a)%Z) l →
  StronglySorted (λ a b, (key b ≤ key a)%Z) (sort_insert (descending key) x l).
Proof.
  induction 1 as [|y l Hl IH Hy]; simpl.
  - repeat constructor.
  - unfold descending at 1. destruct (decide (key y - key x ≤ 0)%Z) as [Hle|Hgt].
    + constructor; [by constructor|].
      constructor; [lia|].
      eapply Forall_impl; [exact Hy|]. simpl. intros; lia.
    + constructor; [done|].
      rewrite sort_insert_perm. constructor; [lia | done].
Qed.

Lemma Array_sort_sorted (l : list A) :
  StronglySorted (λ a b, (key b ≤ key a)%Z) (Array_sort (descending key) l).
Proof.
  induction l as [|x l IH]; simpl; [constructor | by apply sort_insert_sorted].
Qed.

Lemma sort_insert_stable (p : Z) (x : A) (l : list A) :
  filter (λ a, key a = p) (sort_insert (descending key) x l)
  = filter (λ a, key a = p) (x :: l).
Proof.
  induction l as [|y l IH]; simpl; [done|].
  unfold descending at 1. destruct (decide (key y - key x ≤ 0)%Z) as [Hle|Hgt]; [done|].
  rewrite !filter_cons, IH, !filter_cons.
  destruct (decide (key y = p)), (decide (key x = p)); try done. lia.
Qed.

Lemma Array_sort_stable (p : Z) (l : list A) :
  filter (λ a, key a = p) (Array_sort (descending key) l) = filter (λ a, key a = p) l.
Proof.
  induction l as [|x l IH]; simpl; [done|].
  rewrite sort_insert_stable, !filter_cons, IH. done.
Qed.

End SortFacts.

(** ** [MiddlewareManager] *)

Section ChainFacts.

Import MiddlewareManager.

Context {C A : Type}.
Implicit Types (mm : t C A) (l : list (IMiddleware C A)) (context : C)
  (tr : list (event A)).

Lemma register_all_snoc l (middleware : IMiddleware C A) :
  register_all (l ++ [middleware]) = (mm ← register_all l; register middleware mm).
Proof. unfold register_all. by rewrite foldl_app. Qed.

(** After any run of registrations the array holds what was registered,
    by descending priority, and equal priorities in registration order. *)
Lemma register_all_sorted l mm :
  register_all l = Ok mm →
  middlewares mm ≡ₚ l
  ∧ StronglySorted (λ a b, (m_priority b ≤ m_priority a)%Z) (middlewares mm)
  ∧ ∀ p, filter (λ m, m_priority m = p) (middlewares mm)
         = filter (λ m, m_priority m = p) l.
Proof.
  revert mm. induction l as [|middleware l IH] using rev_ind; intros mm.
  - intros [= <-]. simpl. split; [done|]. split; [constructor | done].
  - rewrite register_all_snoc.
    destruct (register_all l) as [mm0| |]; simpl; [|done|done].
    destruct (IH mm0 eq_refl) as (Hperm & _ & Hstable).
    unfold register. destruct (existsb _ _); [done|]. intros [= <-]. simpl.
    split; [|split].
    + by rewrite (Array_sort_perm m_priority), Hperm.
    + apply (Array_sort_sorted m_priority).
    + intros p. rewrite (Array_sort_stable m_priority), !filter_app.
      by rewrite Hstable.
Qed.

(** *** The cursor *)

Lemma next_unfold (fuel : nat) l context (currentIndex : nat) tr :
  next (S fuel) l context (currentIndex, tr) =
    if decide (length l ≤ currentIndex)%nat then (Ok (), (currentIndex, tr))
    else
      match l !! currentIndex with
      | None => (Ok (), (S currentIndex, tr))
      | Some middleware =>
          match
            run_script (act_of (m_name middleware)) (next fuel l context)
              (m_execute middleware context)
              (S currentIndex, tr ++ [Executing (m_name middleware)])
          with
          | (Throw e, (i, tr')) =>
              (Throw e, (i, tr' ++ [ErrorLogged (m_name middleware) e]))
          | r => r
          end
      end.
Proof. reflexivity. Qed.

Lemma executed_app tr1 tr2 : executed (tr1 ++ tr2) = executed tr1 ++ executed tr2.
Proof. apply omap_app. Qed.

Lemma next_cursor_inv (fuel : nat) l context :
  ∀ st, cursor_inv l st → length l < fuel + st.1 →
    cursor_inv l (next fuel l context st).2
    ∧ st.1 ≤ (next fuel l context st).2.1
    ∧ (next fuel l context st).1 ≠ OutOfFuel.
Proof.
  induction fuel as [|fuel IH]; intros [idx tr] Hinv Hfuel.
  - destruct Hinv as [Hle _]. simpl in *. lia.
  - rewrite next_unfold.
    destruct (decide (length l ≤ idx)%nat) as [|Hlt]; [done|].
    destruct (l !! idx) as [middleware|] eqn:Hget.
    2: { apply lookup_ge_None in Hget. lia. }
    assert (cursor_inv l (S idx, tr ++ [Executing (m_name middleware)])) as Hinv'.
    { destruct Hinv as [_ Hex]. split; [simpl; lia|]. simpl in *.
      rewrite executed_app, Hex. simpl.
      symmetry. apply take_S_r. by rewrite list_lookup_fmap, Hget. }
    assert (∀ st, st.1 > idx → cursor_inv l st →
              cursor_inv l (next fuel l context st).2
              ∧ st.1 ≤ (next fuel l context st).2.1
              ∧ (next fuel l context st).1 ≠ OutOfFuel) as Hnxt.
    { intros st Hst Hi. apply IH; [done|]. simpl in Hfuel. lia. }
    (* the cursor only grows, so every nested call is above [idx] *)
    assert (∀ s st, st.1 > idx → cursor_inv l st →
              cursor_inv l (run_script (act_of (m_name middleware))
                              (next fuel l context) s st).2
              ∧ st.1 ≤ (run_script (act_of (m_name middleware))
                              (next fuel l context) s st).2.1
              ∧ (run_script (act_of (m_name middleware))
                              (next fuel l context) s st).1 ≠ OutOfFuel) as Hscript.
    { induction s as [|e|a k IHs|k IHs]; intros st Hst Hi; simpl.
      - done.
      - done.
      - destruct st as [i t]. simpl. apply IHs; [done|].
        destruct Hi as [Hi Hex]. split; [done|]. simpl in *.
        by rewrite executed_app, app_nil_r.
      - destruct (Hnxt st Hst Hi) as (Hinv2 & Hle & Hne).
        destruct (next fuel l context st) as [[[]| |] st']; simpl in *;
          [|done|done].
        destruct (IHs st' ltac:(lia) Hinv2) as (? & ? & ?).
        split; [done|]. split; [lia|done]. }
    specialize (Hscript (m_execute middleware context)
                  (S idx, tr ++ [Executing (m_name middleware)])
                  ltac:(simpl; lia) Hinv').
    destruct (run_script _ _ _ _) as [[[]|e|] [i tr']]; simpl in *.
    + destruct Hscript as (? & ? & ?). split; [done|]. split; [lia|done].
    + destruct Hscript as ([? Hex] & ? & ?). split; [|split; [lia|done]].
      split; [done|]. simpl in *. by rewrite executed_app, app_nil_r.
    + by destruct Hscript as (_ & _ & ?).
Qed.



(** The cursor never goes back. *)
Lemma run_script_mono (name : string)
  (nxt : nat * list (event A) → outcome unit * (nat * list (event A)))
  (s : script A) :
  (∀ st, st.1 ≤ (nxt st).2.1) →
  ∀ st, st.1 ≤ (run_script (act_of name) nxt s st).2.1.
Proof.
  intros Hnxt. induction s as [|e|a k IH|k IH]; intros st; simpl; try done.
  - destruct st as [i tr]. simpl. apply (IH (i, _)).
  - specialize (Hnxt st).
    destruct (nxt st) as [[[]| |] st']; simpl in *; [|done|done].
    specialize (IH st'). lia.
Qed.

Lemma next_mono (fuel : nat) l context :
  ∀ st, st.1 ≤ (next fuel l context st).2.1.
Proof.
  induction fuel as [|fuel IH]; intros [idx tr]; [done|].
  rewrite next_unfold.
  destruct (decide (length l ≤ idx)); [done|].
  destruct (l !! idx) as [middleware|]; [|simpl; lia].
  pose proof (run_script_mono (m_name middleware) (next fuel l context)
                (m_execute middleware context) IH
                (S idx, tr ++ [Executing (m_name middleware)])) as Hrun.
  destruct (run_script _ _ _ _) as [[[]|e|] [c tr']]; simpl in *; lia.
Qed.

(** A middleware that never awaits [next()] leaves the cursor alone. *)
Lemma run_script_no_next (name : string)
  (nxt : nat * list (event A) → outcome unit * (nat * list (event A)))
  (s : script A) :
  next_calls s = 0 →
  ∀ st, (run_script (act_of name) nxt s st).2.1 = st.1.
Proof.
  induction s as [|e|a k IH|k IH]; intros Hs st; simpl in *; try done.
  destruct st as [i tr]. simpl. by rewrite IH.
Qed.

(** If the middleware at [i] never awaits [next()] and those before it
    await it at most once, the cursor stops right after [i]. *)
Lemma next_bounded (fuel : nat) l context (i : nat) (m : IMiddleware C A) :
  l !! i = Some m → next_calls (m_execute m context) = 0 →
  (∀ j m', j < i → l !! j = Some m' → next_calls (m_execute m' context) ≤ 1) →
  ∀ st, st.1 ≤ i → (next fuel l context st).2.1 ≤ S i.
Proof.
  intros Hm Hstop Hbefore. induction fuel as [|fuel IH]; intros [idx tr] Hidx;
    simpl in Hidx; [simpl; lia|].
  rewrite next_unfold.
  destruct (decide (length l ≤ idx)); [simpl; lia|].
  destruct (l !! idx) as [middleware|] eqn:Hget; [|simpl; lia].
  assert ((run_script (act_of (m_name middleware)) (next fuel l context)
             (m_execute middleware context)
             (S idx, tr ++ [Executing (m_name middleware)])).2.1 ≤ S i) as Hrun.
  { destruct (decide (idx = i)) as [->|Hne].
    - rewrite Hm in Hget. injection Hget as <-.
      by rewrite run_script_no_next.
    - assert (next_calls (m_execute middleware context) ≤ 1) as Hone
        by (apply (Hbefore idx); [lia | done]).
      assert (∀ s st, next_calls s ≤ 1 → st.1 ≤ i →
                (run_script (act_of (m_name middleware)) (next fuel l context)
                   s st).2.1 ≤ S i) as Hscript.
      { induction s as [|e|a k IHs|k IHs]; intros st Hs Hst; simpl in *.
        - lia.
        - lia.
        - destruct st as [c t]. simpl. by apply IHs.
        - specialize (IH st Hst).
          destruct (next fuel l context st) as [[[]| |] st']; simpl in *;
            [|done|done].
          rewrite run_script_no_next by lia. done. }
      apply Hscript; [done | simpl; lia]. }
  destruct (run_script _ _ _ _) as [[[]|e|] [c tr']]; done.
Qed.

(** If every middleware gets to an [await next()], the cursor reaches
    the end of the array. *)
Lemma next_reaches_end (fuel : nat) l context :
  (∀ m, m ∈ l → awaits_next (m_execute m context) = true) →
  ∀ st, cursor_inv l st → length l < fuel + st.1 →
    (next fuel l context st).2.1 = length l.
Proof.
  intros Hall. induction fuel as [|fuel IH]; intros [idx tr] Hinv Hfuel.
  { destruct Hinv as [Hle _]. simpl in *. lia. }
  pose proof (next_cursor_inv (S fuel) l context (idx, tr) Hinv Hfuel)
    as ([Hend _] & _ & _).
  revert Hend. rewrite next_unfold.
  destruct (decide (length l ≤ idx)) as [Hge|Hlt].
  { destruct Hinv as [Hle _]. simpl in *. lia. }
  destruct (l !! idx) as [middleware|] eqn:Hget.
  2: { apply lookup_ge_None in Hget. lia. }
  assert (cursor_inv l (S idx, tr ++ [Executing (m_name middleware)])) as Hinv'.
  { destruct Hinv as [_ Hex]. split; [simpl; lia|]. simpl in *.
    rewrite executed_app, Hex. simpl.
    symmetry. apply take_S_r. by rewrite list_lookup_fmap, Hget. }
  assert (∀ s st, awaits_next s = true → st.1 > idx → cursor_inv l st →
            length l ≤ (run_script (act_of (m_name middleware))
                          (next fuel l context) s st).2.1) as Hscript.
  { induction s as [|e|a k IHs|k IHs]; intros st Hs Hst Hi; simpl in *;
      try done.
    - destruct st as [c t]. simpl. apply IHs; [done|done|].
      destruct Hi as [Hi Hex]. split; [done|]. simpl in *.
      by rewrite executed_app, app_nil_r.
    - pose proof (IH st Hi ltac:(simpl in Hfuel; lia)) as Hreach.
      pose proof (next_cursor_inv fuel l context st Hi ltac:(simpl in Hfuel; lia))
        as (Hinv2 & _ & _).
      destruct (next fuel l context st) as [[[]| |] st']; simpl in *;
        [|lia|lia].
      pose proof (run_script_mono (m_name middleware) (next fuel l context) k
                    (next_mono fuel l context) st'). lia. }
  specialize (Hscript (m_execute middleware context)
                (S idx, tr ++ [Executing (m_name middleware)])
                (Hall middleware ltac:(by eapply list_elem_of_lookup_2))
                ltac:(simpl; lia) Hinv').
  destruct (run_script _ _ _ _) as [[[]|e|] [c tr']]; simpl in *; lia.
Qed.

End ChainFacts.

(** ** Plain objects *)

Section ObjectFacts.

Context {V : Type} (key : string → string).

Implicit Types (o : list (string * V)) (name : string) (v : V).

Lemma object_get_None o name :
  object_get key o name = None ↔ key name ∉ key <$> map_keys o.
Proof.
  unfold map_keys. induction o as [|[name' v'] o IH]; csimpl.
  - split; [intros _; apply not_elem_of_nil | done].
  - rewrite not_elem_of_cons.
    destruct (decide (key name' = key name)) as [Heq|Hne].
    + split; [done|]. intros [Hne _]. by destruct Hne.
    + rewrite IH. split; [|tauto]. intros Hnin. split; [congruence|done].
Qed.

Lemma replace_property_get o name v name' :
  is_Some (object_get key o name) →
  object_get key (replace_property key o name v) name'
  = if decide (key name = key name') then Some v else object_get key o name'.
Proof.
  induction o as [|[name0 v0] o IH]; simpl; [by intros [? ?]|]. intros Hsome.
  destruct (decide (key name0 = key name)) as [Heq|Hne]; simpl.
  - destruct (decide (key name = key name')) as [Heq'|Hne']; [done|].
    by rewrite decide_False by congruence.
  - destruct (decide (key name0 = key name')) as [Heq'|Hne'].
    + by rewrite decide_False by congruence.
    + by apply IH.
Qed.

Lemma replace_property_keys o name v :
  key <$> map_keys (replace_property key o name v) = key <$> map_keys o.
Proof.
  unfold map_keys. induction o as [|[name0 v0] o IH]; simpl; [done|].
  destruct (decide (key name0 = key name)) as [Heq|Hne]; csimpl.
  - by rewrite Heq.
  - by rewrite IH.
Qed.

Lemma insert_index_perm (i : N) o name v :
  insert_index key i o name v ≡ₚ (name, v) :: o.
Proof.
  induction o as [|[name0 v0] o IH]; simpl; [done|].
  destruct (array_index (key name0)) as [j|]; [|done].
  destruct (j <? i)%N; [|done]. rewrite IH. apply Permutation_swap.
Qed.

Lemma insert_index_get (i : N) o name v name' :
  object_get key o name = None →
  object_get key (insert_index key i o name v) name'
  = if decide (key name = key name') then Some v else object_get key o name'.
Proof.
  induction o as [|[name0 v0] o IH]; simpl; [done|].
  destruct (decide (key name0 = key name)) as [Heq|Hne]; [done|]. intros Hget.
  destruct (array_index (key name0)) as [j|]; [|done].
  destruct (j <? i)%N; [|done]. simpl.
  destruct (decide (key name0 = key name')) as [Heq'|Hne'].
  - by rewrite decide_False by congruence.
  - by apply IH.
Qed.

Lemma snoc_get o name v name' :
  object_get key o name = None →
  object_get key (o ++ [(name, v)]) name'
  = if decide (key name = key name') then Some v else object_get key o name'.
Proof.
  induction o as [|[name0 v0] o IH]; simpl; [done|].
  destruct (decide (key name0 = key name)) as [Heq|Hne]; [done|]. intros Hget.
  destruct (decide (key name0 = key name')) as [Heq'|Hne'].
  - by rewrite decide_False by congruence.
  - by apply IH.
Qed.

Lemma object_set_perm o name v :
  object_get key o name = None →
  object_set key o name v ≡ₚ (name, v) :: o.
Proof.
  intros Hget. unfold object_set. rewrite Hget.
  destruct (array_index (key name)) as [i|]; [apply insert_index_perm|].
  by rewrite Permutation_app_comm.
Qed.

(** The property that was set is there, and no other has changed. *)
Lemma object_get_set o name v name' :
  object_get key (object_set key o name v) name'
  = if decide (key name = key name') then Some v else object_get key o name'.
Proof.
  unfold object_set. destruct (object_get key o name) as [w|] eqn:Hget.
  - by apply replace_property_get.
  - destruct (array_index (key name)) as [i|];
      [by apply insert_index_get | by apply snoc_get].
Qed.

Lemma object_set_NoDup o name v :
  NoDup (key <$> map_keys o) →
  NoDup (key <$> map_keys (object_set key o name v)).
Proof.
  intros Hnd. destruct (object_get key o name) as [w|] eqn:Hget.
  - unfold object_set. rewrite Hget. by rewrite replace_property_keys.
  - unfold map_keys. rewrite (object_set_perm o name v Hget). csimpl.
    apply NoDup_cons. split; [|done]. by apply object_get_None.
Qed.

End ObjectFacts.

Lemma object_get_id {V : Type} (o : list (string * V)) (name : string) :
  object_get id o name = map_get o name.
Proof. induction o as [|[name' v'] o IH]; simpl; [done|]. by rewrite IH. Qed.

(** ** The chain of [HttpServer.handleRequest] *)

Section HttpChainFacts.

Import HttpServer.

Implicit Types (srv : t) (request : HttpRequest) (ex : exchange).

Lemma bind_unfold {A B : Type} (m : M A) (f : A → M B) ex :
  (m ≫= f) ex =
    match m ex with
    | (Ok a, ex') => f a ex'
    | (Throw e, ex') => (Throw e, ex')
    | (OutOfFuel, ex') => (OutOfFuel, ex')
    end.
Proof. reflexivity. Qed.

(** The methods of the response touch neither the cursor nor the log,
    and need no fuel. *)
Lemma setHeader_frame (name value : string) ex :
  middlewareIndex (setHeader name value ex).2 = middlewareIndex ex
  ∧ log (setHeader name value ex).2 = log ex
  ∧ (setHeader name value ex).1 ≠ OutOfFuel.
Proof.
  unfold setHeader. destruct (res_body (res ex)); [done|].
  destruct (negb _); [done|]. by destruct (checkInvalidHeaderChar _).
Qed.

Lemma end_frame (data : payload) ex :
  middlewareIndex (end_ data ex).2 = middlewareIndex ex
  ∧ log (end_ data ex).2 = log ex
  ∧ (end_ data ex).1 ≠ OutOfFuel.
Proof.
  unfold end_. destruct (res_body (res ex)); [done|].
  cbv zeta. by destruct (bool_decide _).
Qed.

Lemma respond_frame (call : response_call) ex :
  middlewareIndex (respond call ex).2 = middlewareIndex ex
  ∧ log (respond call ex).2 = log ex
  ∧ (respond call ex).1 ≠ OutOfFuel.
Proof.
  assert (∀ name value data,
            middlewareIndex ((_ ← setHeader name value; end_ data) ex).2
            = middlewareIndex ex
            ∧ log ((_ ← setHeader name value; end_ data) ex).2 = log ex
            ∧ ((_ ← setHeader name value; end_ data) ex).1 ≠ OutOfFuel) as Hboth.
  { intros name value data. rewrite bind_unfold.
    destruct (setHeader_frame name value ex) as (Hi & Hl & Hne).
    destruct (setHeader name value ex) as [[[]| |] ex1]; [|done|done].
    destruct (end_frame data ex1) as (Hi' & Hl' & Hne').
    simpl in Hi, Hl. by rewrite Hi', Hl', Hi, Hl. }
  destruct call; simpl; [done|apply Hboth|apply Hboth|apply setHeader_frame].
Qed.

(** A route handler writes nothing into the log. *)
Lemma run_script_handler_log (e : error) (s : script response_call) :
  ∀ ex, log (run_script respond (throw e) s ex).2 = log ex.
Proof.
  induction s as [|e'|a k IH|k IH]; intros ex; simpl; try done.
  destruct (respond_frame a ex) as (_ & Hl & _).
  destruct (respond a ex) as [[[]| |] ex']; simpl in *; try done.
  by rewrite IH.
Qed.

Lemma next_unfold_http (fuel : nat) srv request ex :
  next (S fuel) srv request ex =
    if decide (middlewareIndex ex < length (middlewares srv)) then
      match middlewares srv !! middlewareIndex ex with
      | Some middleware =>
          run_script respond (next fuel srv request)
            (mw_handler middleware request)
            {| res := res ex;
               middlewareIndex := S (middlewareIndex ex);
               log := log ex ++ [MiddlewareCalled (mw_name middleware)] |}
      | None =>
          (Ok (), {| res := res ex;
                     middlewareIndex := S (middlewareIndex ex);
                     log := log ex |})
      end
    else executeRoute srv request ex.
Proof.
  simpl. destruct (decide _); [|done].
  by destruct (middlewares srv !! middlewareIndex ex).
Qed.

Lemma run_script_respond_no_next (nxt : M unit) (s : script response_call) :
  next_calls s = 0 →
  ∀ ex, middlewareIndex (run_script respond nxt s ex).2 = middlewareIndex ex
        ∧ log (run_script respond nxt s ex).2 = log ex.
Proof.
  induction s as [|e|a k IH|k IH]; intros Hs ex; simpl in *; try done.
  destruct (respond_frame a ex) as (Hi & Hl & _).
  destruct (respond a ex) as [[[]| |] ex']; simpl in *; try done.
  destruct (IH Hs ex') as [-> ->]. done.
Qed.

(** If the middleware at [i] never awaits [next()] and those before it
    await it at most once, the chain stops right after [i]:
    [executeRoute] is not reached. *)
Lemma next_stops (fuel : nat) srv request (i : nat) (mw : HttpMiddleware) :
  middlewares srv !! i = Some mw → next_calls (mw_handler mw request) = 0 →
  (∀ j mw', j < i → middlewares srv !! j = Some mw' →
     next_calls (mw_handler mw' request) ≤ 1) →
  ∀ ex, middlewareIndex ex ≤ i → chain_inv srv ex →
    chain_inv srv (next fuel srv request ex).2
    ∧ middlewareIndex (next fuel srv request ex).2 ≤ S i.
Proof.
  intros Hmw Hstop Hbefore.
  assert (i < length (middlewares srv)) as Hi by by eapply lookup_lt_Some.
  induction fuel as [|fuel IH]; intros ex Hidx Hinv; [simpl; split; [done|lia]|].
  rewrite next_unfold_http.
  destruct (decide (middlewareIndex ex < length (middlewares srv))) as [Hlt|]; [|lia].
  destruct (middlewares srv !! middlewareIndex ex) as [middleware|] eqn:Hget.
  2: { apply lookup_ge_None in Hget. lia. }
  set (ex1 := {| res := res ex; middlewareIndex := S (middlewareIndex ex);
                 log := log ex ++ [MiddlewareCalled (mw_name middleware)] |}).
  assert (chain_inv srv ex1) as Hinv1.
  { destruct Hinv as [_ Hlog]. split; [simpl; lia|]. simpl.
    rewrite Hlog. erewrite (take_S_r _ _ middleware) by done.
    by rewrite fmap_app. }
  destruct (decide (middlewareIndex ex = i)) as [Heq|Hne].
  - rewrite Heq, Hmw in Hget. injection Hget as <-.
    destruct (run_script_respond_no_next (next fuel srv request) _ Hstop ex1)
      as [Hidx' Hlog'].
    destruct Hinv1 as [? Hlog1]. split; [split|].
    + rewrite Hidx'. done.
    + rewrite Hlog', Hidx'. done.
    + rewrite Hidx'. simpl. lia.
  - assert (next_calls (mw_handler middleware request) ≤ 1) as Hone
      by (apply (Hbefore (middlewareIndex ex)); [lia | done]).
    assert (∀ s ex0, next_calls s ≤ 1 → middlewareIndex ex0 ≤ i →
              chain_inv srv ex0 →
              chain_inv srv (run_script respond (next fuel srv request) s ex0).2
              ∧ middlewareIndex
                  (run_script respond (next fuel srv request) s ex0).2 ≤ S i)
      as Hscript.
    { induction s as [|e|a k IHs|k IHs]; intros ex0 Hs Hex0 Hinv0; simpl in *.
      - split; [done|lia].
      - split; [done|lia].
      - destruct (respond_frame a ex0) as (Hi0 & Hl0 & _).
        assert (chain_inv srv (respond a ex0).2) as Hinv0'.
        { destruct Hinv0 as [? ?]. split; [by rewrite Hi0 | by rewrite Hl0, Hi0]. }
        destruct (respond a ex0) as [[[]| |] ex0']; simpl in *;
          [|split; [done|lia]|split; [done|lia]].
        apply IHs; [done | lia | done].
      - destruct (IH ex0 Hex0 Hinv0) as [Hinv' Hidx'].
        destruct (next fuel srv request ex0) as [[[]| |] ex0']; simpl in *;
          [|done|done].
        destruct (run_script_respond_no_next (next fuel srv request) k
                    ltac:(lia) ex0') as [Hk1 Hk2].
        destruct Hinv' as [? ?].
        split; [split|]; rewrite ?Hk1, ?Hk2; done. }
    apply Hscript; [done | simpl; lia | done].
Qed.

(** The fuel of [handleRequest] is enough, whatever the middlewares and
    handlers do. *)
Lemma run_script_respond_total (nxt : M unit) (s : script response_call)
  (lo hi : nat) :
  (∀ ex, lo ≤ middlewareIndex ex ≤ hi →
     (nxt ex).1 ≠ OutOfFuel
     ∧ middlewareIndex ex ≤ middlewareIndex (nxt ex).2 ≤ hi) →
  ∀ ex, lo ≤ middlewareIndex ex ≤ hi →
    (run_script respond nxt s ex).1 ≠ OutOfFuel
    ∧ middlewareIndex ex ≤ middlewareIndex (run_script respond nxt s ex).2 ≤ hi.
Proof.
  intros Hnxt. induction s as [|e|a k IH|k IH]; intros ex Hex; simpl.
  - split; [done|lia].
  - split; [done|lia].
  - destruct (respond_frame a ex) as (Hi & _ & Hne).
    destruct (respond a ex) as [[[]| |] ex']; simpl in *;
      [|split; [done|lia]|done].
    destruct (IH ex' ltac:(lia)) as [? ?]. split; [done|lia].
  - destruct (Hnxt ex Hex) as [Hne Hle].
    destruct (nxt ex) as [[[]| |] ex']; simpl in *; [|split; [done|lia]|done].
    destruct (IH ex' ltac:(lia)) as [? ?]. split; [done|lia].
Qed.

Lemma executeRoute_total srv request ex :
  (executeRoute srv request ex).1 ≠ OutOfFuel
  ∧ middlewareIndex (executeRoute srv request ex).2 = middlewareIndex ex.
Proof.
  assert (∀ handler request' ex',
            (call_handler handler request' ex').1 ≠ OutOfFuel
            ∧ middlewareIndex (call_handler handler request' ex').2
              = middlewareIndex ex') as Hcall.
  { intros handler request' ex'. unfold call_handler.
    rewrite bind_unfold. unfold record. cbv beta iota.
    pose proof (run_script_respond_total (throw (TypeError "next is not a function"))
                  (h_run handler request') (middlewareIndex ex') (middlewareIndex ex')
                  ltac:(intros ex0 Hex0; unfold throw; simpl; split; [done|lia])
                  {| res := res ex'; middlewareIndex := middlewareIndex ex';
                     log := log ex' ++ [HandlerCalled (h_name handler) request'] |}
                  ltac:(simpl; lia)) as [Hne Hle].
    split; [done|]. simpl in Hle. lia. }
  unfold executeRoute. rewrite bind_unfold. unfold record. cbv beta iota.
  destruct (map_get (routes srv) _) as [handler|]; [apply (Hcall _ _ {| res := _ |})|].
  destruct (findParameterizedRoute _ _ _) as [[handler p]|];
    [apply (Hcall _ _ {| res := _ |})|].
  by unfold sendErrorResponse, throw.
Qed.

Lemma next_total (fuel : nat) srv request :
  ∀ ex, middlewareIndex ex ≤ length (middlewares srv) →
    length (middlewares srv) < fuel + middlewareIndex ex →
    (next fuel srv request ex).1 ≠ OutOfFuel
    ∧ middlewareIndex ex ≤ middlewareIndex (next fuel srv request ex).2
      ≤ length (middlewares srv).
Proof.
  induction fuel as [|fuel IH]; intros ex Hle Hfuel; [simpl in *; lia|].
  rewrite next_unfold_http.
  destruct (decide (middlewareIndex ex < length (middlewares srv))) as [Hlt|Hge].
  - destruct (middlewares srv !! middlewareIndex ex) as [middleware|] eqn:Hget;
      [|simpl; split; [done|lia]].
    pose proof (run_script_respond_total (next fuel srv request)
                  (mw_handler middleware request)
                  (S (middlewareIndex ex)) (length (middlewares srv))
                  ltac:(intros ex0 Hex0; apply IH; simpl in *; lia)
                  {| res := res ex; middlewareIndex := S (middlewareIndex ex);
                     log := log ex ++ [MiddlewareCalled (mw_name middleware)] |}
                  ltac:(simpl; lia)) as [Hne Hidx].
    split; [done|]. simpl in Hidx. lia.
  - destruct (executeRoute_total srv request ex) as [Hne Heq].
    split; [done|]. rewrite Heq. lia.
Qed.

End HttpChainFacts.

Section ExecuteFacts.

Import MiddlewareManager.

Context {C A : Type}.
Implicit Types (mm : t C A) (l : list (IMiddleware C A)) (context : C).

Lemma execute_unfold mm context :
  execute mm context =
    ((next (S (length (middlewares mm))) (middlewares mm) context (0, [])).1,
     (next (S (length (middlewares mm))) (middlewares mm) context (0, [])).2.2).
Proof.
  unfold execute.
  by destruct (next _ _ _ _) as [r [i tr]].
Qed.

(** C6, as amended.  Whatever has been registered, the array holds it by
    descending priority, equal priorities in registration order.
    [execute] comes to an end and calls [execute] of the middlewares in
    the order of the array, never skipping one: all of them if each gets
    to an [await next()].  If the middleware at [i] returns without
    awaiting [next()] and none of those before it awaits [next()] more
    than once, no middleware after [i] is executed.  [execute] has no
    step after the last middleware; in [HttpServer.handleRequest], whose
    chain runs in registration order and ends in [executeRoute], the same
    condition keeps [executeRoute] and every middleware after [i] from
    being called. *)
Theorem middleware_chain_order l mm context :
  register_all l = Ok mm →
  (middlewares mm ≡ₚ l
   ∧ StronglySorted (λ a b, (m_priority b ≤ m_priority a)%Z) (middlewares mm)
   ∧ ∀ p, filter (λ m, m_priority m = p) (middlewares mm)
          = filter (λ m, m_priority m = p) l)
  ∧ (execute mm context).1 ≠ OutOfFuel
  ∧ (∃ n, executed (execute mm context).2 = take n (m_name <$> middlewares mm))
  ∧ ((∀ m, m ∈ l → awaits_next (m_execute m context) = true) →
     executed (execute mm context).2 = m_name <$> middlewares mm)
  ∧ (∀ i m, middlewares mm !! i = Some m →
       next_calls (m_execute m context) = 0 →
       (∀ j m', j < i → middlewares mm !! j = Some m' →
          next_calls (m_execute m' context) ≤ 1) →
       ∃ n, n ≤ S i
         ∧ executed (execute mm context).2 = take n (m_name <$> middlewares mm))
  ∧ (∀ (srv : HttpServer.t) (request : HttpRequest) (res0 : HttpServer.ServerResponse)
       (i : nat) (mw : HttpMiddleware),
       HttpServer.middlewares srv !! i = Some mw →
       next_calls (mw_handler mw request) = 0 →
       (∀ j mw', j < i → HttpServer.middlewares srv !! j = Some mw' →
          next_calls (mw_handler mw' request) ≤ 1) →
       ∃ n, n ≤ S i
         ∧ HttpServer.log
             (HttpServer.next (S (length (HttpServer.middlewares srv))) srv request
                {| HttpServer.res := res0;
                   HttpServer.middlewareIndex := 0;
                   HttpServer.log := [] |}).2
           = (λ mw', HttpServer.MiddlewareCalled (mw_name mw'))
               <$> take n (HttpServer.middlewares srv)).
Proof.
  intros Hreg. split; [by apply register_all_sorted|].
  rewrite execute_unfold. cbn [fst snd].
  assert (cursor_inv (middlewares mm) (0, [])) as Hinv0
    by (split; [simpl; lia | done]).
  pose proof (next_cursor_inv (S (length (middlewares mm))) (middlewares mm) context
                (0, []) Hinv0 ltac:(simpl; lia)) as ([Hle Hex] & _ & Hfuel).
  split; [done|]. split; [by eexists|]. split; [|split].
  - intros Hall. rewrite Hex.
    rewrite (next_reaches_end (S (length (middlewares mm))) (middlewares mm) context).
    + apply take_ge. by rewrite length_fmap.
    + intros m Hm. apply Hall.
      destruct (register_all_sorted l mm Hreg) as (Hperm & _). by rewrite <- Hperm.
    + done.
    + simpl. lia.
  - intros i m Hm Hstop Hbefore. eexists. split; [|exact Hex].
    apply (next_bounded _ _ _ i m); [done | done | done | simpl; lia].
  - intros srv request res0 i mw Hmw Hstop Hbefore.
    destruct (next_stops (S (length (HttpServer.middlewares srv))) srv request i mw
                Hmw Hstop Hbefore
                {| HttpServer.res := res0; HttpServer.middlewareIndex := 0;
                   HttpServer.log := [] |}
                ltac:(simpl; lia) ltac:(split; [simpl; lia | done]))
      as [[_ Hlog] Hidx].
    eexists. split; [exact Hidx | exact Hlog].
Qed.

End ExecuteFacts.

Section ExecuteExamples.

Import MiddlewareManager.

(** Priorities 10, 50, 30 registered in that order, each middleware
    awaiting [next()]: executed as 50, 30, 10. *)
Lemma middleware_chain_order_witness :
  m_name <$> middlewares (manager_with three_middlewares) = ["fifty"; "thirty"; "ten"]
  ∧ executed (execute (manager_with three_middlewares) ()).2 = ["fifty"; "thirty"; "ten"]
  ∧ (execute (manager_with three_middlewares) ()).1 ≠ OutOfFuel
  ∧ ∃ n, executed (execute (manager_with three_middlewares) ()).2
         = take n (m_name <$> middlewares (manager_with three_middlewares)).
Proof.
  split; [by vm_compute|]. split; [by vm_compute|].
  pose proof (middleware_chain_order three_middlewares
                (manager_with three_middlewares) () eq_refl)
    as (_ & Hfuel & Hprefix & _).
  split; [exact Hfuel | exact Hprefix].
Defined.

(** C6 as it is stated fails: [thirty] returns without awaiting
    [next()], and [ten], which comes after it, is executed all the same,
    because [fifty] awaits [next()] a second time and the cursor is
    shared. *)
Lemma later_middleware_runs_after_a_stop :
  middlewares (manager_with insisting_middlewares) !! 1 = Some (stopping "thirty" 30)
  ∧ next_calls (m_execute (stopping "thirty" 30) ()) = 0
  ∧ middlewares (manager_with insisting_middlewares) !! 2 = Some (passing "ten" 10)
  ∧ execute (manager_with insisting_middlewares) ()
    = (Ok (), [Executing "fifty"; Executing "thirty"; Executing "ten"]).
Proof. by vm_compute. Qed.

End ExecuteExamples.

(** ** Requests *)

Section RequestFacts.

Import HttpServer.

Implicit Types (srv : t) (request : HttpRequest) (ex : exchange)
  (req : IncomingMessage).

Lemma split_nonempty (sep : ascii) (s : string) : split sep s ≠ [].
Proof.
  destruct s as [|c s]; simpl; [done|].
  destruct (Ascii.eqb c sep); [done|]. by destruct (split sep s).
Qed.

(** A path that starts with a slash has an empty first segment, and
    [matchRoute] gives up on an empty segment: no pattern matches it. *)
Lemma matchRoute_leading_slash (pattern rest : string) :
  matchRoute pattern (String "/" rest) = None.
Proof.
  unfold matchRoute. simpl split.
  destruct (bool_decide _); [done|].
  pose proof (split_nonempty "/" pattern) as Hne.
  destruct (split "/" pattern) as [|part parts]; [done|]. simpl.
  by rewrite orb_true_r.
Qed.

Lemma findParameterizedRoute_leading_slash (entries : list (string * RouteHandler))
  (method rest : string) :
  findParameterizedRoute entries method (String "/" rest) = None.
Proof.
  induction entries as [|[routeKey handler] entries IH]; simpl; [done|].
  destruct (_ || _); [done|]. by rewrite matchRoute_leading_slash.
Qed.

(** [setHeader] on a response that has not ended, with a name and a
    value that node takes. *)
Lemma setHeader_accepted (name value : string) ex :
  res_body (res ex) = None →
  checkIsHttpToken name = true →
  checkInvalidHeaderChar value = false →
  setHeader name value ex
  = (Ok (),
     {| res := {| statusCode := statusCode (res ex);
                  res_headers :=
                    object_set toLowerCase (res_headers (res ex)) name value;
                  res_body := None |};
        middlewareIndex := middlewareIndex ex;
        log := log ex |}).
Proof. intros Hbody Hname Hvalue. unfold setHeader. by rewrite Hbody, Hname, Hvalue. Qed.

(** [applyCORSHeaders] on a response that is still empty: the headers
    of the configuration when node takes the origin as a header value,
    and a throw before any header is set when it does not. *)
Lemma applyCORSHeaders_new srv (code : Z) (i : nat) (l : list event) :
  cors_accepted srv = true →
  applyCORSHeaders srv
    {| res := {| statusCode := code; res_headers := []; res_body := None |};
       middlewareIndex := i; log := l |}
  = (Ok (),
     {| res := {| statusCode := code; res_headers := cors_headers srv;
                  res_body := None |};
        middlewareIndex := i; log := l |}).
Proof.
  unfold cors_accepted. intros Hok%negb_true_iff.
  unfold applyCORSHeaders, cors_headers. cbv zeta.
  rewrite bind_unfold. unfold respond at 1.
  rewrite setHeader_accepted by done.
  by destruct (default false _).
Qed.

Lemma applyCORSHeaders_refused srv ex :
  cors_accepted srv = false →
  res_body (res ex) = None →
  applyCORSHeaders srv ex
  = (Throw (ERR_INVALID_CHAR "Access-Control-Allow-Origin"), ex).
Proof.
  unfold cors_accepted. intros Hbad%negb_false_iff Hbody.
  unfold applyCORSHeaders. cbv zeta.
  rewrite bind_unfold. unfold respond at 1. unfold setHeader.
  by rewrite Hbody, Hbad.
Qed.

Lemma cors_headers_set_content_type srv (value : string) :
  object_set toLowerCase (cors_headers srv) "Content-Type" value
  = cors_headers srv ++ [("Content-Type", value)].
Proof. unfold cors_headers. by destruct (default false _). Qed.

(** What the [catch] of the listener does to a response that has not
    ended. *)
Lemma listener_catch (e : error) (code : Z) (hs : list (string * string))
  (i : nat) (l : list event) :
  (_ ← record (ErrorLogged e);
   sendErrorResponse the_ServerResponse 500 "Internal Server Error")
    {| res := {| statusCode := code; res_headers := hs; res_body := None |};
       middlewareIndex := i; log := l |}
  = (Ok (),
     {| res := {| statusCode := 500;
                  res_headers :=
                    object_set toLowerCase hs "Content-Type" "application/json";
                  res_body :=
                    Some (Json (JObject [("error", JString "Internal Server Error")])) |};
        middlewareIndex := i;
        log := l ++ [ErrorLogged e] |}).
Proof. reflexivity. Qed.


(** When no route is found [executeRoute] throws: it hands
    [sendErrorResponse] the object that has no [setHeader]. *)
Lemma executeRoute_unmatched srv request ex :
  map_get (routes srv) (method request +:+ ":" +:+ pathname request) = None →
  findParameterizedRoute (routes srv) (method request) (pathname request) = None →
  executeRoute srv request ex
  = (Throw (TypeError "response.setHeader is not a function"),
     {| res := res ex; middlewareIndex := middlewareIndex ex;
        log := log ex ++ [RouteDispatch (method request +:+ ":" +:+ pathname request)] |}).
Proof.
  intros Hexact Hparam. unfold executeRoute.
  rewrite bind_unfold. simpl. by rewrite Hexact, Hparam.
Qed.


Section Platform.

Variable URL : string → string → option (string * list (string * string)).
Variable JSON_parse : string → option JSON.


(** [handleRequest] on a request that parses and is not [OPTIONS]: the
    CORS headers, then the chain. *)
Lemma handleRequest_chain srv req request ex :
  parseRequest URL JSON_parse req = Ok request →
  method request ≠ "OPTIONS" →
  handleRequest URL JSON_parse srv req ex
  = (_ ← applyCORSHeaders srv;
     next (S (length (middlewares srv))) srv request) ex.
Proof.
  intros Hparse Hmethod. unfold handleRequest. rewrite Hparse.
  by rewrite bool_decide_eq_false_2.
Qed.

Lemma requestListener_dispatch srv req request :
  parseRequest URL JSON_parse req = Ok request →
  method request ≠ "OPTIONS" →
  cors_accepted srv = true →
  handleRequest URL JSON_parse srv req
    {| res := new_ServerResponse; middlewareIndex := 0; log := [] |}
  = next (S (length (middlewares srv))) srv request
      {| res := {| statusCode := 200; res_headers := cors_headers srv;
                   res_body := None |};
         middlewareIndex := 0; log := [] |}.
Proof.
  intros Hparse Hmethod Hcors.
  rewrite (handleRequest_chain srv req request _ Hparse Hmethod).
  rewrite bind_unfold. unfold new_ServerResponse.
  by rewrite applyCORSHeaders_new.
Qed.

(** On a server without middleware whose configured origin node takes
    as a header value, a request for a path under which nothing is
    registered is answered with [500], not [404]. *)
Lemma unmatched_request_is_500 srv req request (rest : string) :
  parseRequest URL JSON_parse req = Ok request →
  method request ≠ "OPTIONS" →
  cors_accepted srv = true →
  middlewares srv = [] →
  pathname request = String "/" rest →
  map_get (routes srv) (method request +:+ ":" +:+ pathname request) = None →
  requestListener URL JSON_parse srv req
  = (Ok (),
     {| res := internal_server_error (cors_headers srv);
        middlewareIndex := 0;
        log := [RouteDispatch (method request +:+ ":" +:+ pathname request);
                ErrorLogged (TypeError "response.setHeader is not a function")] |}).
Proof.
  intros Hparse Hmethod Hcors Hmw Hpath Hexact. unfold requestListener.
  rewrite (requestListener_dispatch srv req request Hparse Hmethod Hcors).
  rewrite Hmw, next_unfold_http. rewrite Hmw. simpl length.
  destruct (decide (_ < 0)) as [Hlt|_]; [simpl in Hlt; lia|].
  rewrite executeRoute_unmatched;
    [|done|rewrite Hpath; apply findParameterizedRoute_leading_slash].
  cbn [res middlewareIndex log].
  rewrite listener_catch, cors_headers_set_content_type. reflexivity.
Qed.



End Platform.

Lemma map_set_keys_existing {V : Type} (m : list (string * V)) (k : string) (v : V) :
  k ∈ map_keys m → map_keys (map_set m k v) = map_keys m.
Proof.
  unfold map_keys. induction m as [|[k' v'] m IH]; csimpl; intros Hk.
  - inversion Hk.
  - destruct (decide (k' = k)) as [->|Hne]; [done|]. csimpl. f_equal.
    apply IH. apply elem_of_cons in Hk as [Hk|Hk]; [congruence | done].
Qed.


End RequestFacts.

Section ListenerExamples.

Import HttpServer.

(** ** The listener on concrete requests *)

(** C3, on the input where the code departs from it: [GET /users/:id] is
    registered and [GET /users/42] is requested.  The key is split at
    every colon, so the pattern that is tried is [/users/]; and a path
    that starts with a slash has an empty first segment, on which
    [matchRoute] gives up even with the whole pattern.  No route is
    found, the handler is not called, and the answer is [500]; it is
    [500] as well, not [404], for [GET /users/42/extra]. *)
Theorem parameterised_route_is_not_matched :
  split ":" "GET:/users/:id" = ["GET"; "/users/"; "id"]
  ∧ matchRoute "/users/:id" "/users/42" = None
  ∧ findParameterizedRoute (routes users_server) "GET" "/users/42" = None
  ∧ requestListener path_URL two_body_JSON_parse users_server
      (request_of "GET" "/users/42")
    = (Ok (),
       {| res := internal_server_error (cors_headers users_server);
          middlewareIndex := 0;
          log := [RouteDispatch "GET:/users/42";
                  ErrorLogged (TypeError "response.setHeader is not a function")] |})
  ∧ requestListener path_URL two_body_JSON_parse users_server
      (request_of "GET" "/users/42/extra")
    = (Ok (),
       {| res := internal_server_error (cors_headers users_server);
          middlewareIndex := 0;
          log := [RouteDispatch "GET:/users/42/extra";
                  ErrorLogged (TypeError "response.setHeader is not a function")] |}).
Proof. by vm_compute. Qed.

(** C4, on the input where the code departs from it: nothing is
    registered and [GET /missing] is requested.  [executeRoute] hands
    [sendErrorResponse] the object of [createResponse], the call of its
    missing [setHeader] throws, and the listener answers [500] with
    [Internal Server Error]; [404] and [Not Found] are never sent. *)
Theorem unmatched_request_gets_500 :
  requestListener path_URL two_body_JSON_parse (new default_config)
    (request_of "GET" "/missing")
  = (Ok (),
     {| res := {| statusCode := 500;
                  res_headers :=
                    [("Access-Control-Allow-Origin", "*");
                     ("Access-Control-Allow-Methods",
                      "GET, POST, PUT, DELETE, PATCH, OPTIONS");
                     ("Access-Control-Allow-Headers",
                      "Content-Type, Authorization, X-Requested-With");
                     ("Content-Type", "application/json")];
                  res_body :=
                    Some (Json (JObject [("error", JString "Internal Server Error")])) |};
        middlewareIndex := 0;
        log := [RouteDispatch "GET:/missing";
                ErrorLogged (TypeError "response.setHeader is not a function")] |}).
Proof. by vm_compute. Qed.






End ListenerExamples.

Section LifecycleProperties.

Import ModuleManager.

(** ** More on the lifecycle manager *)

Section RegistryFacts.

Context {W : Type}.
Implicit Types (mm : t W) (w : W).

Lemma map_set_values_new {V : Type} (m : list (string * V)) (k : string) (v : V) :
  k ∉ map_keys m → map_values (map_set m k v) = map_values m ++ [v].
Proof.
  unfold map_keys, map_values. induction m as [|[k' v'] m IH]; csimpl; intros Hk.
  - done.
  - apply not_elem_of_cons in Hk as [Hne Hk].
    rewrite decide_False by done. csimpl. by rewrite IH.
Qed.

(** [register] and [get].  A name that is taken is refused and nothing
    changes; otherwise the module is stored under its name, last in
    [getAll], every other name keeps what it had, and the manager is as
    initialised as it was. *)
Theorem register_then_get mm (module : IModule W) :
  match register module mm with
  | Ok mm' =>
      get (m_name module) mm = None
      ∧ get (m_name module) mm' = Some module
      ∧ (∀ k, k ≠ m_name module → get k mm' = get k mm)
      ∧ getAll mm' = getAll mm ++ [module]
      ∧ isInitialised mm' = isInitialised mm
  | Throw e =>
      e = Error_ModuleAlreadyRegistered (m_name module)
      ∧ is_Some (get (m_name module) mm)
  | OutOfFuel => False
  end.
Proof.
  unfold register, get, getAll.
  destruct (map_has (modules mm) (m_name module)) eqn:Hhas.
  - split; [done|]. by apply map_has_true.
  - assert (map_get (modules mm) (m_name module) = None) as Hnone.
    { unfold map_has in Hhas. by destruct (map_get _ _). }
    cbn [modules isInitialised]. split; [done|]. split.
    { rewrite map_get_set. by rewrite decide_True. }
    split.
    { intros k Hk. rewrite map_get_set. by rewrite decide_False. }
    split; [|done]. apply map_set_values_new. by apply map_get_None.
Qed.

Lemma findDependents_elem (g : list (string * list string)) (name m : string) :
  NoDup (map_keys g) → m ∈ findDependents g name ↔ edge g m name.
Proof.
  intros Hnd. unfold findDependents, edge. rewrite list_elem_of_fmap. split.
  - intros ([m' deps] & -> & Hin). apply list_elem_of_filter in Hin as [Hdep Hin].
    exists deps. split; [|done]. by apply map_get_In_NoDup.
  - intros (deps & Hget & Hdep). exists (m, deps). split; [done|].
    apply list_elem_of_filter. split; [done|]. by apply map_get_In.
Qed.

(** [unregister].  It throws for a name that is not registered, and for
    a registered module that some registered module declares as a
    dependency, naming exactly the modules that do; otherwise the module
    is gone, every other name keeps what it had, and the manager stays
    consistent, with its dependencies registered if they were. *)
Theorem unregister_guards_dependents mm (name : string) :
  consistent mm →
  match unregister name mm with
  | Ok mm' =>
      is_Some (get name mm)
      ∧ (∀ m, ¬ declares mm m name)
      ∧ get name mm' = None
      ∧ (∀ k, k ≠ name → get k mm' = get k mm)
      ∧ consistent mm'
      ∧ (dependencies_registered mm → dependencies_registered mm')
  | Throw e =>
      (get name mm = None ∧ e = Error_ModuleNotFound name)
      ∨ (is_Some (get name mm)
         ∧ ∃ dependents, e = Error_ModuleRequiredBy name dependents
             ∧ dependents ≠ []
             ∧ ∀ m, m ∈ dependents ↔ declares mm m name)
  | OutOfFuel => False
  end.
Proof.
  intros Hc. pose proof Hc as (Hkeys & Hnd & Hmods).
  assert (NoDup (map_keys (dependencyGraph mm))) as Hndg by by rewrite <- Hkeys.
  destruct (unregister name mm) as [mm'| |] eqn:Hun.
  - pose proof (unregister_consistent mm mm' name Hc Hun) as Hc'.
    unfold unregister, get in *.
    destruct (map_get (modules mm) name) as [module|] eqn:Hget; [|done].
    destruct (decide (0 < length (findDependents (dependencyGraph mm) name)))
      as [|Hlen]; [done|].
    injection Hun as <-. cbn [modules].
    assert (findDependents (dependencyGraph mm) name = []) as Hnil.
    { destruct (findDependents _ _); [done|]. simpl in Hlen. lia. }
    assert (∀ m, ¬ declares mm m name) as Hnone.
    { intros m Hdecl. apply consistent_edge in Hdecl; [|done].
      apply findDependents_elem in Hdecl; [|done].
      rewrite Hnil in Hdecl. inversion Hdecl. }
    split; [by eexists|]. split; [done|]. split.
    { rewrite map_get_delete. by rewrite decide_True. }
    split.
    { intros k Hk. rewrite map_get_delete. by rewrite decide_False. }
    split; [done|].
    intros Hreg m d (module' & Hget' & Hd). cbn [modules] in *.
    rewrite map_get_delete in Hget'.
    destruct (decide (name = m)) as [|Hne]; [done|].
    rewrite map_delete_keys. apply list_elem_of_filter.
    assert (declares mm m d) as Hdecl by by exists module'.
    split; [|by apply (Hreg m)].
    intros ->. by apply (Hnone m).
  - unfold unregister, get in *.
    destruct (map_get (modules mm) name) as [module|] eqn:Hget.
    + destruct (decide (0 < length (findDependents (dependencyGraph mm) name)))
        as [Hlen|]; [|done].
      injection Hun as <-. right. split; [by eexists|].
      eexists. split; [done|]. split.
      { intros Hnil. rewrite Hnil in Hlen. simpl in Hlen. lia. }
      intros m. rewrite findDependents_elem by done. by apply consistent_edge.
    + injection Hun as <-. by left.
  - unfold unregister in Hun.
    destruct (map_get (modules mm) name); [|done].
    by destruct (decide _).
Qed.

End RegistryFacts.

(** ** More on validation and ordering *)

Section CulpritFacts.

Variable g : list (string * list string).

(** The closure answers [true] only for a module that is on the stack. *)
Lemma detect_visit_true (fuel : nat) (n : string) (s s' : detect_state) :
  detect_visit fuel g n s = Ok (true, s') → n ∈ recursionStack s.
Proof.
  destruct fuel as [|fuel]; [done|]. rewrite detect_visit_unfold.
  destruct (decide (n ∈ recursionStack s)); [done|].
  destruct (decide (n ∈ d_visited s)); [done|].
  by destruct (for_each _ _ _).
Qed.

(** The module that the cycle error names lies on a cycle. *)
Lemma detect_visit_culprit (fuel : nat) :
  ∀ n s, (∀ v, v ∈ recursionStack s → tc (edge g) v n) →
    match detect_visit fuel g n s with
    | Throw e => ∃ m, e = Error_CircularInvolving m ∧ tc (edge g) m m
    | _ => True
    end.
Proof.
  induction fuel as [|fuel IH]; intros n s Hchain; [done|].
  rewrite detect_visit_unfold.
  destruct (decide (n ∈ recursionStack s)) as [|Hn]; [done|].
  destruct (decide (n ∈ d_visited s)); [done|].
  pose proof (for_each_inv (detect_step (detect_visit fuel g) n)
                (λ s2, recursionStack s2 = recursionStack s ∪ {[n]})
                (λ e, ∃ m, e = Error_CircularInvolving m ∧ tc (edge g) m m) True
                (default [] (map_get g n))) as Hloop.
  match goal with |- context [for_each _ _ ?s1] => specialize (Hloop ltac:(
    intros d s2 Hd Hs2; cbv beta in Hs2 |- *;
    apply edge_default in Hd;
    assert (∀ v, v ∈ recursionStack s2 → tc (edge g) v d) as Hchain2
      by (intros v Hv; rewrite Hs2 in Hv;
          apply elem_of_union in Hv as [Hv|Hv];
          [ eapply tc_r; [by apply Hchain|done]
          | apply elem_of_singleton in Hv as ->; by apply tc_once ]);
    specialize (IH d s2 Hchain2);
    pose proof (detect_visit_stack g fuel d s2) as Hstack;
    pose proof (detect_visit_true fuel d s2) as Htrue;
    unfold detect_step;
    destruct (detect_visit fuel g d s2) as [[[] s3]| |]; simpl;
      [ exists n; split; [done|];
        specialize (Htrue s3 eq_refl); rewrite Hs2 in Htrue;
        apply elem_of_union in Htrue as [Htrue|Htrue];
        [ eapply tc_l; [exact Hd | by apply Hchain]
        | apply elem_of_singleton in Htrue; subst; by apply tc_once ]
      | congruence | done | done ]) s1 eq_refl) end.
  by destruct (for_each _ _ _) as [s2| |].
Qed.

End CulpritFacts.

Section ValidationExtras.

Context {W : Type}.
Implicit Types (mm : t W) (w : W).

(** What [getInitialisationOrder] returns, when it returns: every
    registered name once, each after the dependencies its graph entry
    lists. *)
Lemma getInitialisationOrder_sound mm (order : list string) :
  consistent mm → getInitialisationOrder mm = Ok order →
  NoDup order
  ∧ topo_sorted (dependencyGraph mm) order
  ∧ (∀ k, k ∈ map_keys (modules mm) → k ∈ order)
  ∧ (∀ x, x ∈ order → x ∈ graph_names (dependencyGraph mm)).
Proof.
  intros (Hkeys & Hnd & _). unfold getInitialisationOrder.
  set (g := dependencyGraph mm).
  pose proof (for_each_prefix_inv
    (λ moduleName s,
       if decide (moduleName ∈ visited s) then Ok s
       else visit (traversal_fuel g) g moduleName s)
    (λ pre s, sort_inv g s ∧ ∀ k, k ∈ pre → k ∈ visited s)
    (λ _, True) True (map_keys (modules mm))) as Hloop.
  specialize (Hloop ltac:(
    intros pre k suf s Hsplit (Hi & Hpre);
    assert (k ∈ graph_names g) as Hk
      by (apply key_names; fold (map_keys g); unfold g; rewrite <- Hkeys, Hsplit;
          apply elem_of_app; right; left);
    destruct (decide (k ∈ visited s)) as [Hin|Hnin];
    [ split; [done|]; intros k' Hk';
      apply elem_of_app in Hk' as [Hk'|Hk'];
      [by apply Hpre | apply list_elem_of_singleton in Hk'; by subst]
    | pose proof (visit_inv g (traversal_fuel g) k s Hk Hi) as Hinv;
      destruct (visit (traversal_fuel g) g k s) as [s'| |]; [|done|done];
      destruct Hinv as (Hi' & Hsub & Hk');
      split; [done|]; intros k' Hk'';
      apply elem_of_app in Hk'' as [Hk''|Hk''];
      [apply Hsub; by apply Hpre | apply list_elem_of_singleton in Hk''; by subst] ])
    {| sorted := []; visited := ∅; visiting := ∅ |}
    ltac:(split; [|intros k Hk; inversion Hk];
          split; [constructor|split; [set_solver|split;
            [apply topo_sorted_nil|split; [set_solver|intros x Hx; inversion Hx]]]])).
  destruct (for_each _ _ _) as [s| |]; simpl; [|done|done].
  intros [= <-].
  destruct Hloop as ((Hnodup & Hvs & Htopo & _ & Hnames) & Hall).
  split; [done|]. split; [done|]. split; [|done].
  intros k Hk. by apply Hvs, Hall.
Qed.

(** A missing dependency.  When some registered module declares a
    dependency that is not registered, [validateDependencies] throws the
    missing-dependency error for such a pair, and [initialise] passes it
    on: no hook is called and the manager is unchanged. *)
Theorem initialise_reports_missing_dependency mm w :
  consistent mm → isInitialised mm = false →
  (∃ m d, declares mm m d ∧ d ∉ map_keys (modules mm)) →
  ∃ m d, declares mm m d ∧ (d ∉ map_keys (modules mm))
    ∧ validateDependencies mm = Throw (Error_MissingDependency m d)
    ∧ initialise mm w = (Throw (Error_MissingDependency m d), mm, w, []).
Proof.
  intros Hc Hinit (m0 & d0 & Hdecl0 & Hd0).
  pose proof (missing_dependency_loop mm) as Hloop.
  unfold initialise, validateDependencies. rewrite Hinit.
  destruct (for_each _ (dependencyGraph mm) ()) as [[]|e|]; [| |done].
  - exfalso. apply consistent_entry in Hdecl0 as (deps & Hin & Hd); [|done].
    apply Hd0. by apply (Hloop m0 deps).
  - destruct Hloop as (m & deps & d & -> & Hin & Hd & Hmiss).
    exists m, d. split; [|done]. apply consistent_entry; [done|]. by exists deps.
Qed.

(** What [detectCircularDependencies] comes to: it returns on an acyclic
    graph, and the module that its error names reaches itself. *)
Lemma detectCircularDependencies_outcomes mm :
  consistent mm →
  match detectCircularDependencies mm with
  | Ok _ => acyclic (dependencyGraph mm)
  | Throw e =>
      ∃ m, e = Error_CircularInvolving m ∧ tc (edge (dependencyGraph mm)) m m
  | OutOfFuel => False
  end.
Proof.
  intros Hc. pose proof (detectCircularDependencies_total mm Hc) as Htot.
  unfold detectCircularDependencies in *.
  set (g := dependencyGraph mm) in *.
  pose proof (for_each_inv
    (λ moduleName s,
       if decide (moduleName ∈ d_visited s) then Ok s
       else '(_, s') ← detect_visit (traversal_fuel g) g moduleName s; Ok s')
    (λ s, recursionStack s = ∅)
    (λ e, ∃ m, e = Error_CircularInvolving m ∧ tc (edge g) m m) True
    (map_keys (modules mm))) as Hloop.
  specialize (Hloop ltac:(
    intros k s _ Hst; cbv beta in Hst |- *;
    destruct (decide (k ∈ d_visited s)); [done|];
    pose proof (detect_visit_stack g (traversal_fuel g) k s) as Hstack;
    pose proof (detect_visit_culprit g (traversal_fuel g) k s
                  ltac:(rewrite Hst; set_solver)) as Hculprit;
    destruct (detect_visit (traversal_fuel g) g k s) as [[b s']| |]; simpl;
      [congruence | done | done])
    {| d_visited := ∅; recursionStack := ∅ |} eq_refl).
  destruct (for_each _ _ _) as [s| |]; simpl in *; done.
Qed.

(** [detectCircularDependencies] decides whether the graph has a cycle:
    it returns on an acyclic graph and on no other, and the module that
    its error names reaches itself along dependency edges. *)
Theorem detectCircularDependencies_decides mm :
  consistent mm →
  (detectCircularDependencies mm = Ok () ↔ acyclic (dependencyGraph mm))
  ∧ match detectCircularDependencies mm with
    | Ok _ => True
    | Throw e =>
        ∃ m, e = Error_CircularInvolving m ∧ tc (edge (dependencyGraph mm)) m m
    | OutOfFuel => False
    end.
Proof.
  intros Hc. split.
  - split; [by apply detected_acyclic | by apply detectCircularDependencies_acyclic].
  - pose proof (detectCircularDependencies_outcomes mm Hc) as Hout.
    by destruct (detectCircularDependencies mm).
Qed.

Lemma validated_order mm :
  consistent mm → validateDependencies mm = Ok () →
  ∃ order, getInitialisationOrder mm = Ok order
    ∧ order ≡ₚ map_keys (modules mm).
Proof.
  intros Hc Hval.
  destruct (validateDependencies_returns mm Hc Hval) as [Hreg Hacyc].
  destruct (getInitialisationOrder_acyclic mm Hc Hreg Hacyc)
    as (order & Hord & _ & Hperm & _).
  by exists order.
Qed.

(** After [validateDependencies] has returned, [getInitialisationOrder]
    returns as well: its own cycle check cannot fire inside
    [initialise].  The order is a rearrangement of the registered names
    with dependencies first. *)
Theorem validated_manager_has_order mm :
  consistent mm → validateDependencies mm = Ok () →
  ∃ order, getInitialisationOrder mm = Ok order
    ∧ order ≡ₚ map_keys (modules mm)
    ∧ ∀ l1 m l2 d, order = l1 ++ m :: l2 → declares mm m d → d ∈ l1.
Proof.
  intros Hc Hval.
  destruct (validateDependencies_returns mm Hc Hval) as [Hreg Hacyc].
  destruct (getInitialisationOrder_acyclic mm Hc Hreg Hacyc)
    as (order & Hord & _ & Hperm & Htopo).
  exists order. split; [done|]. split; [done|].
  intros l1 m l2 d Hsplit Hdecl. apply (Htopo l1 m l2 Hsplit).
  by apply consistent_edge.
Qed.

End ValidationExtras.

(** ** More on [initialise] and [shutdown] *)

Section LifecycleExtras.

Context {W : Type}.
Implicit Types (mm : t W) (w : W) (mods : list (string * IModule W)).

(** The initialisers are called along the order, each at most once. *)
Lemma initialise_loop_calls_sublist mods (order : list string) :
  ∀ w, initialiser_calls (initialise_loop mods order w).2 `sublist_of` order.
Proof.
  induction order as [|x rest IH]; intros w; simpl; [done|].
  destruct (map_get mods x) as [module|]; [|by apply sublist_cons].
  destruct (m_isEnabled module w).
  - destruct (m_initialise module w) as [w1 [e|]]; simpl.
    + apply sublist_skip, sublist_nil_l.
    + specialize (IH w1).
      destruct (initialise_loop mods rest w1) as [[r1 w1'] tr1]. simpl in *.
      by apply sublist_skip.
  - specialize (IH w).
    destruct (initialise_loop mods rest w) as [[r1 w1'] tr1]. simpl in *.
    by apply sublist_cons.
Qed.

(** A throw is the last thing the loop does. *)
Lemma initialise_loop_threw mods (order : list string) :
  ∀ w pre f e suf,
    (initialise_loop mods order w).2 = pre ++ InitialiseThrew f e :: suf →
    suf = []
    ∧ (initialise_loop mods order w).1.1 = Throw e
    ∧ ∃ pre', pre = pre' ++ [IsEnabled f true; InitialiseCalled f].
Proof.
  induction order as [|x rest IH]; intros w pre f e suf; simpl.
  - by destruct pre.
  - destruct (map_get mods x) as [module|]; [|apply IH].
    destruct (m_isEnabled module w).
    + destruct (m_initialise module w) as [w1 [e1|]]; simpl.
      * intros Htr.
        destruct pre as [|e1' [|e2' [|e3' pre]]]; simplify_eq/=.
        -- split; [done|]. split; [done|]. by exists [].
        -- by destruct pre.
      * specialize (IH w1).
        destruct (initialise_loop mods rest w1) as [[r1 w1'] tr1]. simpl in *.
        intros Htr.
        destruct pre as [|e1' [|e2' [|e3' pre]]]; simplify_eq/=.
        destruct (IH pre f e suf eq_refl) as (-> & -> & pre' & ->).
        split; [done|]. split; [done|].
        by exists (IsEnabled x true :: InitialiseCalled x
                     :: InitialiseReturned x :: pre').
    + specialize (IH w).
      destruct (initialise_loop mods rest w) as [[r1 w1'] tr1]. simpl in *.
      intros Htr. destruct pre as [|e1' pre]; simplify_eq/=.
      destruct (IH pre f e suf eq_refl) as (-> & -> & pre' & ->).
      split; [done|]. split; [done|]. by exists (IsEnabled x false :: pre').
Qed.

(** When the loop returns, it has dealt with every name of the order
    that has a module. *)
Lemma initialise_loop_ok mods (order : list string) :
  ∀ w, (initialise_loop mods order w).1.1 = Ok () →
  ∀ s, s ∈ order → s ∈ map_keys mods →
    InitialiseReturned s ∈ (initialise_loop mods order w).2
    ∨ IsEnabled s false ∈ (initialise_loop mods order w).2.
Proof.
  induction order as [|x rest IH]; intros w Hok s Hs Hk; simpl in *;
    [inversion Hs|].
  destruct (map_get mods x) as [module|] eqn:Hget.
  - destruct (m_isEnabled module w).
    + destruct (m_initialise module w) as [w1 [e|]]; [done|].
      specialize (IH w1).
      destruct (initialise_loop mods rest w1) as [[r1 w1'] tr1]. simpl in *.
      apply elem_of_cons in Hs as [->|Hs]; [left; set_solver|].
      destruct (IH Hok s Hs Hk); [left | right]; set_solver.
    + specialize (IH w).
      destruct (initialise_loop mods rest w) as [[r1 w1'] tr1]. simpl in *.
      apply elem_of_cons in Hs as [->|Hs]; [right; set_solver|].
      destruct (IH Hok s Hs Hk); [left | right]; set_solver.
  - apply elem_of_cons in Hs as [->|Hs]; [|by apply IH].
    apply map_get_keys in Hk. rewrite Hget in Hk. by destruct Hk.
Qed.

(** When the loop returns and no module said it was disabled, the
    initialisers called are those of the names that have a module, in
    the order given. *)
Lemma initialise_loop_all_enabled mods (order : list string) :
  ∀ w, (initialise_loop mods order w).1.1 = Ok () →
    (∀ n, IsEnabled n false ∉ (initialise_loop mods order w).2) →
    initialiser_calls (initialise_loop mods order w).2
    = filter (λ n, n ∈ map_keys mods) order.
Proof.
  induction order as [|x rest IH]; intros w Hok Hen; simpl in *; [done|].
  destruct (map_get mods x) as [module|] eqn:Hget.
  - rewrite filter_cons_True by (apply map_get_keys; by eexists).
    destruct (m_isEnabled module w).
    + destruct (m_initialise module w) as [w1 [e|]]; [done|].
      specialize (IH w1).
      destruct (initialise_loop mods rest w1) as [[r1 w1'] tr1]. simpl in *.
      f_equal. apply IH; [done|]. intros n Hn. apply (Hen n). set_solver.
    + specialize (Hen x).
      destruct (initialise_loop mods rest w) as [[r1 w1'] tr1]. simpl in *.
      set_solver.
  - rewrite filter_cons_False; [by apply IH|].
    intros Hk. apply map_get_keys in Hk. rewrite Hget in Hk. by destruct Hk.
Qed.

(** The shutdown hooks called are those of the names that have a
    module, in the order given, whatever the hooks do. *)
Lemma shutdown_loop_calls_exact mods (order : list string) :
  ∀ w, shutdown_calls (shutdown_loop mods order w).2
       = filter (λ n, n ∈ map_keys mods) order.
Proof.
  induction order as [|x rest IH]; intros w; simpl; [done|].
  destruct (map_get mods x) as [module|] eqn:Hget.
  - rewrite filter_cons_True by (apply map_get_keys; by eexists).
    destruct (m_shutdown module w) as [w1 thrown].
    specialize (IH w1).
    destruct (shutdown_loop mods rest w1) as [w2 tr]. simpl in *.
    destruct thrown; simpl; by f_equal.
  - rewrite filter_cons_False; [by apply IH|].
    intros Hk. apply map_get_keys in Hk. rewrite Hget in Hk. by destruct Hk.
Qed.

Lemma filter_registered mm (order : list string) :
  consistent mm → getInitialisationOrder mm = Ok order →
  filter (λ n, n ∈ map_keys (modules mm)) order ≡ₚ map_keys (modules mm).
Proof.
  intros Hc Hord. pose proof Hc as (_ & Hnd & _).
  destruct (getInitialisationOrder_sound mm order Hc Hord) as (Hndo & _ & Hall & _).
  apply NoDup_Permutation; [by apply NoDup_filter | done |].
  intros x. rewrite list_elem_of_filter. split; [by intros []|].
  intros Hx. split; [done|]. by apply Hall.
Qed.

Lemma filter_split {A : Type} (P : A → Prop) `{∀ x, Decision (P x)}
  (l a b : list A) (x : A) :
  filter P l = a ++ x :: b →
  ∃ l1 l2, l = l1 ++ x :: l2 ∧ filter P l1 = a ∧ filter P l2 = b.
Proof.
  revert a. induction l as [|y l IH]; intros a Hf.
  - by destruct a.
  - destruct (decide (P y)) as [Hy|Hy].
    + rewrite filter_cons_True in Hf by done.
      destruct a as [|z a]; simpl in Hf; injection Hf as -> Hf.
      * by exists [], l.
      * destruct (IH a Hf) as (l1 & l2 & -> & <- & <-).
        exists (z :: l1), l2. by rewrite filter_cons_True.
    + rewrite filter_cons_False in Hf by done.
      destruct (IH a Hf) as (l1 & l2 & -> & <- & <-).
      exists (y :: l1), l2. by rewrite filter_cons_False.
Qed.

Lemma filter_all {A : Type} (P : A → Prop) `{∀ x, Decision (P x)} (l : list A) :
  (∀ x, x ∈ l → P x) → filter P l = l.
Proof.
  induction l as [|y l IH]; intros Hall; [done|].
  rewrite filter_cons_True by (apply Hall; left).
  f_equal. apply IH. intros x Hx. apply Hall. by right.
Qed.

(** [initialise] is idempotent.  After a call that returned, the manager
    is initialised, and every later call only warns: it calls no hook and
    changes nothing, also when modules have been registered meanwhile,
    which are therefore never initialised. *)
Theorem initialise_twice mm w mm1 w1 (tr : list event) :
  initialise mm w = (Ok (), mm1, w1, tr) →
  isInitialised mm1 = true
  ∧ modules mm1 = modules mm
  ∧ ∀ w2,
      initialise mm1 w2
      = (Ok (), mm1, w2, [Warned "Module manager already initialised"])
      ∧ ∀ (module : IModule W) mm2, register module mm1 = Ok mm2 →
          initialise mm2 w2
          = (Ok (), mm2, w2, [Warned "Module manager already initialised"]).
Proof.
  intros Hrun.
  assert (isInitialised mm1 = true ∧ modules mm1 = modules mm) as [Hflag Hmods].
  { unfold initialise in Hrun.
    destruct (isInitialised mm) eqn:Hinit; [by simplify_eq|].
    destruct (validateDependencies mm) as [[]| |]; [|done|done].
    destruct (getInitialisationOrder mm) as [order| |]; [|done|done].
    destruct (initialise_loop (modules mm) order w) as [[[[]| |] w'] tr'];
      by simplify_eq. }
  split; [done|]. split; [done|]. intros w2. split.
  - unfold initialise. by rewrite Hflag.
  - intros module mm2 Hreg. unfold register in Hreg.
    destruct (map_has _ _); [done|]. injection Hreg as <-.
    unfold initialise. cbn [isInitialised]. by rewrite Hflag.
Qed.

(** [initialise] fails fast.  When an initialiser throws, that is the
    last thing [initialise] does to a module: the error is what
    [initialise] throws, and the manager is left as it was, not
    initialised. *)
Theorem initialise_stops_at_first_failure mm w (pre suf : list event)
  (f : string) (e : error) :
  (initialise mm w).2 = pre ++ InitialiseThrew f e :: suf →
  suf = []
  ∧ (∃ pre', pre = pre' ++ [IsEnabled f true; InitialiseCalled f])
  ∧ (initialise mm w).1.1.1 = Throw e
  ∧ (initialise mm w).1.1.2 = mm
  ∧ isInitialised mm = false.
Proof.
  unfold initialise.
  destruct (isInitialised mm) eqn:Hinit.
  { intros Htr. simpl in Htr. destruct pre as [|? [|? ?]]; simplify_eq/=. }
  destruct (validateDependencies mm) as [[]| |];
    [|intros Htr; by destruct pre|intros Htr; by destruct pre].
  destruct (getInitialisationOrder mm) as [order| |];
    [|intros Htr; by destruct pre|intros Htr; by destruct pre].
  pose proof (initialise_loop_threw (modules mm) order w pre f e suf) as Hloop.
  destruct (initialise_loop (modules mm) order w) as [[r w'] tr']. simpl in *.
  intros Htr.
  assert (tr' = pre ++ InitialiseThrew f e :: suf) as Htr'
    by by destruct r as [[]| |].
  destruct (Hloop Htr') as (-> & -> & Hpre). done.
Qed.

(** Every initialiser is called at most once, and only for a registered
    module; and when [initialise] returns on a manager that was not
    initialised, every registered module has had its initialiser return
    or has said it was disabled. *)
Theorem initialise_calls_each_module_once mm w :
  consistent mm →
  NoDup (initialiser_calls (initialise mm w).2)
  ∧ (isInitialised mm = false → (initialise mm w).1.1.1 = Ok () →
     ∀ n, n ∈ map_keys (modules mm) →
       InitialiseReturned n ∈ (initialise mm w).2
       ∨ IsEnabled n false ∈ (initialise mm w).2).
Proof.
  intros Hc. unfold initialise.
  destruct (isInitialised mm) eqn:Hinit.
  { split; [constructor|done]. }
  destruct (validateDependencies mm) as [[]| |];
    [|by split; [constructor|]|by split; [constructor|]].
  destruct (getInitialisationOrder mm) as [order| |] eqn:Hord;
    [|by split; [constructor|]|by split; [constructor|]].
  destruct (getInitialisationOrder_sound mm order Hc Hord) as (Hnd & _ & Hall & _).
  pose proof (initialise_loop_calls_sublist (modules mm) order w) as Hsub.
  pose proof (initialise_loop_ok (modules mm) order w) as Hok.
  destruct (initialise_loop (modules mm) order w) as [[r w'] tr']. simpl in *.
  split.
  - assert (NoDup (initialiser_calls tr')) as Hnd' by by eapply sublist_NoDup.
    by destruct r as [[]| |].
  - intros _ Hr n Hn.
    assert (r = Ok ()) as -> by by destruct r as [[]| |].
    simpl. apply Hok; [done| by apply Hall |done].
Qed.

(** [shutdown] on an initialised manager.  Either it throws the cycle
    error of [getInitialisationOrder] before any hook is called, and the
    manager stays initialised; or it returns, whatever the hooks do,
    having called the shutdown hook of every registered module exactly
    once, each module before the registered modules it declares as
    dependencies, and the manager is no longer initialised. *)
Theorem shutdown_is_best_effort mm w :
  consistent mm → isInitialised mm = true →
  match (shutdown mm w).1.1.1 with
  | Ok _ =>
      isInitialised (shutdown mm w).1.1.2 = false
      ∧ modules (shutdown mm w).1.1.2 = modules mm
      ∧ dependencyGraph (shutdown mm w).1.1.2 = dependencyGraph mm
      ∧ shutdown_calls (shutdown mm w).2 ≡ₚ map_keys (modules mm)
      ∧ ∀ l1 m l2 d, shutdown_calls (shutdown mm w).2 = l1 ++ m :: l2 →
          declares mm m d → d ∈ map_keys (modules mm) → d ∈ l2
  | Throw e =>
      (∃ m, e = Error_CircularFor m) ∧ shutdown mm w = (Throw e, mm, w, [])
  | OutOfFuel => False
  end.
Proof.
  intros Hc Hinit.
  pose proof (getInitialisationOrder_total mm Hc) as Htot.
  unfold shutdown. rewrite Hinit. cbn [negb].
  destruct (getInitialisationOrder mm) as [order| |] eqn:Hord; [|done|done].
  pose proof (shutdown_loop_calls_exact (modules mm) (reverse order) w) as Hcalls.
  destruct (shutdown_loop (modules mm) (reverse order) w) as [w' tr]. simpl in *.
  split; [done|]. split; [done|]. split; [done|].
  rewrite Hcalls, filter_reverse. split.
  - rewrite reverse_Permutation. by apply filter_registered.
  - intros l1 m l2 d Hsplit Hdecl Hd.
    destruct (getInitialisationOrder_sound mm order Hc Hord) as (_ & Htopo & _).
    apply (f_equal reverse) in Hsplit.
    rewrite reverse_involutive, reverse_app, reverse_cons, <- app_assoc in Hsplit.
    simpl in Hsplit.
    apply filter_split in Hsplit as (o1 & o2 & -> & Ho1 & _).
    assert (d ∈ o1) as Hin.
    { apply (Htopo o1 m o2 eq_refl). by apply consistent_edge. }
    apply elem_of_reverse. rewrite <- Ho1. by apply list_elem_of_filter.
Qed.

(** [initialise], then [shutdown].  After an [initialise] that returned
    on a manager that was not initialised, [shutdown] returns, leaves the
    manager as it was before [initialise], and calls the shutdown hook
    of every registered module, in the reverse of the order in which the
    initialisers were called: exactly so when no module said it was
    disabled, and with the hooks of the disabled modules in between
    otherwise.  A second [shutdown] only warns. *)
Theorem shutdown_mirrors_initialise mm w mm1 w1 (tr : list event) :
  consistent mm → isInitialised mm = false →
  initialise mm w = (Ok (), mm1, w1, tr) →
  ∀ w2,
    (shutdown mm1 w2).1.1.1 = Ok ()
    ∧ (shutdown mm1 w2).1.1.2 = mm
    ∧ reverse (shutdown_calls (shutdown mm1 w2).2) ≡ₚ map_keys (modules mm)
    ∧ initialiser_calls tr `sublist_of` reverse (shutdown_calls (shutdown mm1 w2).2)
    ∧ ((∀ n, IsEnabled n false ∉ tr) →
       initialiser_calls tr = reverse (shutdown_calls (shutdown mm1 w2).2))
    ∧ ∀ w3, shutdown (shutdown mm1 w2).1.1.2 w3
            = (Ok (), mm, w3, [Warned "Module manager not initialised"]).
Proof.
  intros Hc Hinit Hrun w2. unfold initialise in Hrun. rewrite Hinit in Hrun.
  destruct (validateDependencies mm) as [[]| |] eqn:Hval; [|done|done].
  destruct (validated_order mm Hc Hval) as (order & Hord & Hperm).
  rewrite Hord in Hrun.
  pose proof (initialise_loop_calls_sublist (modules mm) order w) as Hsub.
  pose proof (initialise_loop_all_enabled (modules mm) order w) as Hall.
  destruct (initialise_loop (modules mm) order w) as [[r w'] tr'] eqn:Hloop.
  simpl in *.
  assert (r = Ok () ∧ tr' = tr
          ∧ mm1 = {| modules := modules mm; dependencyGraph := dependencyGraph mm;
                     isInitialised := true |}) as (-> & -> & ->)
    by (destruct r as [[]| |]; by simplify_eq).
  assert (filter (λ n, n ∈ map_keys (modules mm)) order = order) as Hfilter.
  { apply filter_all. intros n Hn. by rewrite <- Hperm. }
  unfold shutdown. cbn [isInitialised negb modules dependencyGraph].
  replace (getInitialisationOrder
             {| modules := modules mm; dependencyGraph := dependencyGraph mm;
                isInitialised := true |})
    with (getInitialisationOrder mm) by done.
  rewrite Hord.
  pose proof (shutdown_loop_calls_exact (modules mm) (reverse order) w2) as Hcalls.
  destruct (shutdown_loop (modules mm) (reverse order) w2) as [w3 tr3]. simpl in *.
  rewrite Hcalls, filter_reverse, Hfilter, reverse_involutive.
  assert ({| modules := modules mm; dependencyGraph := dependencyGraph mm;
             isInitialised := false |} = mm) as Hmm.
  { destruct mm; simpl in *. by subst. }
  split; [done|]. split; [done|].
  split; [done|]. split; [done|]. split.
  - intros Hen. rewrite Hall by done. done.
  - intros w4. unfold shutdown. cbn [isInitialised negb]. by rewrite Hmm.
Qed.

(** What [initialise] comes to.  It returns with the manager
    initialised, or it throws and leaves the manager as it was, not
    initialised; and it throws only the error for a declared dependency
    that is not registered, the error for a module that lies on a
    dependency cycle, both before any hook is called, or what an
    initialiser threw. *)
Theorem initialise_outcomes mm w :
  consistent mm →
  match (initialise mm w).1.1.1 with
  | Ok _ =>
      isInitialised (initialise mm w).1.1.2 = true
      ∧ modules (initialise mm w).1.1.2 = modules mm
      ∧ dependencyGraph (initialise mm w).1.1.2 = dependencyGraph mm
  | Throw e =>
      (initialise mm w).1.1.2 = mm
      ∧ isInitialised mm = false
      ∧ ((∃ m d, e = Error_MissingDependency m d ∧ declares mm m d
                 ∧ (d ∉ map_keys (modules mm)) ∧ (initialise mm w).2 = [])
         ∨ (∃ m, e = Error_CircularInvolving m
                 ∧ tc (edge (dependencyGraph mm)) m m
                 ∧ (initialise mm w).2 = [])
         ∨ (∃ f, InitialiseThrew f e ∈ (initialise mm w).2))
  | OutOfFuel => False
  end.
Proof.
  intros Hc. unfold initialise.
  destruct (isInitialised mm) eqn:Hinit; [done|].
  destruct (validateDependencies mm) as [[]|e|] eqn:Hval.
  - destruct (validated_order mm Hc Hval) as (order & -> & _).
    pose proof (initialise_loop_throw (modules mm) order w) as Hloop.
    destruct (initialise_loop (modules mm) order w) as [[[[]|e|] w'] tr'];
      simpl in *; [done| |done].
    split; [done|]. split; [done|]. by right; right.
  - simpl. split; [done|]. split; [done|].
    unfold validateDependencies in Hval.
    pose proof (missing_dependency_loop mm) as Hmiss.
    destruct (for_each _ (dependencyGraph mm) ()) as [[]|e'|]; simpl in Hval.
    + pose proof (detectCircularDependencies_outcomes mm Hc) as Hdet.
      rewrite Hval in Hdet. destruct Hdet as (m & -> & Hcyc).
      right; left. by exists m.
    + injection Hval as ->.
      destruct Hmiss as (m & deps & d & -> & Hin & Hd & Hnin).
      left. exists m, d. split; [done|]. split; [|done].
      apply consistent_entry; [done|]. by exists deps.
    + done.
  - exfalso. unfold validateDependencies in Hval.
    pose proof (missing_dependency_loop mm) as Hmiss.
    destruct (for_each _ (dependencyGraph mm) ()) as [[]|e'|]; simpl in Hval;
      [|done|done].
    pose proof (detectCircularDependencies_outcomes mm Hc) as Hdet.
    by rewrite Hval in Hdet.
Qed.

End LifecycleExtras.

(** [api] can be unregistered from the stack of [api], [auth] and [db];
    [db] cannot, since [api] and [auth] need it. *)
Lemma unregister_guards_dependents_witness :
  unregister "db" stack_example = Throw (Error_ModuleRequiredBy "db" ["api"; "auth"])
  ∧ match unregister "api" stack_example with
    | Ok mm' =>
        is_Some (get "api" stack_example)
        ∧ (∀ m, ¬ declares stack_example m "api")
        ∧ get "api" mm' = None
        ∧ (∀ k, k ≠ "api" → get k mm' = get k stack_example)
        ∧ consistent mm'
        ∧ (dependencies_registered stack_example → dependencies_registered mm')
    | Throw e =>
        (get "api" stack_example = None ∧ e = Error_ModuleNotFound "api")
        ∨ (is_Some (get "api" stack_example)
           ∧ ∃ dependents, e = Error_ModuleRequiredBy "api" dependents
               ∧ dependents ≠ []
               ∧ ∀ m, m ∈ dependents ↔ declares stack_example m "api")
    | OutOfFuel => False
    end.
Proof.
  split; [by vm_compute|].
  apply (unregister_guards_dependents stack_example "api").
  apply manager_of_consistent.
Defined.

(** [B] needs [ghost], which nobody registers. *)
Lemma initialise_reports_missing_dependency_witness :
  ∃ m d, declares cycle_and_ghost_example m d
    ∧ (d ∉ map_keys (modules cycle_and_ghost_example))
    ∧ validateDependencies cycle_and_ghost_example
      = Throw (Error_MissingDependency m d)
    ∧ initialise cycle_and_ghost_example ()
      = (Throw (Error_MissingDependency m d), cycle_and_ghost_example, (), []).
Proof.
  apply (initialise_reports_missing_dependency cycle_and_ghost_example ()).
  - apply manager_of_consistent.
  - reflexivity.
  - exists "B", "ghost". split.
    + eexists. split; [by vm_compute | set_solver].
    + vm_compute. set_solver.
Defined.

(** The cycle of [A] and [B] is found, and the stack of [api], [auth]
    and [db] has none. *)
Lemma detectCircularDependencies_decides_witness :
  detectCircularDependencies stack_example = Ok ()
  ∧ detectCircularDependencies cycle_example = Throw (Error_CircularInvolving "B")
  ∧ (detectCircularDependencies cycle_example = Ok ()
     ↔ acyclic (dependencyGraph cycle_example))
  ∧ match detectCircularDependencies cycle_example with
    | Ok _ => True
    | Throw e =>
        ∃ m, e = Error_CircularInvolving m
          ∧ tc (edge (dependencyGraph cycle_example)) m m
    | OutOfFuel => False
    end.
Proof.
  split; [by vm_compute|]. split; [by vm_compute|].
  apply (detectCircularDependencies_decides cycle_example).
  apply manager_of_consistent.
Defined.

Lemma validated_manager_has_order_witness :
  ∃ order, getInitialisationOrder stack_example = Ok order
    ∧ order ≡ₚ map_keys (modules stack_example)
    ∧ ∀ l1 m l2 d, order = l1 ++ m :: l2 → declares stack_example m d → d ∈ l1.
Proof.
  apply (validated_manager_has_order stack_example).
  - apply manager_of_consistent.
  - by vm_compute.
Defined.

(** A second [initialise] of the stack only warns. *)
Lemma initialise_twice_witness :
  isInitialised (initialise stack_example ()).1.1.2 = true
  ∧ modules (initialise stack_example ()).1.1.2 = modules stack_example
  ∧ ∀ w2,
      initialise (initialise stack_example ()).1.1.2 w2
      = (Ok (), (initialise stack_example ()).1.1.2, w2,
         [Warned "Module manager already initialised"])
      ∧ ∀ (module : IModule unit) mm2,
          register module (initialise stack_example ()).1.1.2 = Ok mm2 →
          initialise mm2 w2
          = (Ok (), mm2, w2, [Warned "Module manager already initialised"]).
Proof.
  apply (initialise_twice stack_example () _ () (initialise stack_example ()).2).
  by vm_compute.
Defined.

(** [db] initialises, [auth] throws, and that is the end of it. *)
Lemma initialise_stops_at_first_failure_witness :
  (initialise failing_example ()).2
  = [IsEnabled "db" true; InitialiseCalled "db"; InitialiseReturned "db";
     IsEnabled "auth" true; InitialiseCalled "auth"]
      ++ InitialiseThrew "auth" (Thrown "no key") :: []
  ∧ ([] : list event) = []
  ∧ (∃ pre',
       [IsEnabled "db" true; InitialiseCalled "db"; InitialiseReturned "db";
        IsEnabled "auth" true; InitialiseCalled "auth"]
       = pre' ++ [IsEnabled "auth" true; InitialiseCalled "auth"])
  ∧ (initialise failing_example ()).1.1.1 = Throw (Thrown "no key")
  ∧ (initialise failing_example ()).1.1.2 = failing_example
  ∧ isInitialised failing_example = false.
Proof.
  split; [by vm_compute|].
  apply (initialise_stops_at_first_failure failing_example ()).
  by vm_compute.
Defined.

Lemma initialise_calls_each_module_once_witness :
  initialiser_calls (initialise stack_example ()).2 = ["db"; "auth"; "api"]
  ∧ NoDup (initialiser_calls (initialise stack_example ()).2)
  ∧ (isInitialised stack_example = false →
     (initialise stack_example ()).1.1.1 = Ok () →
     ∀ n, n ∈ map_keys (modules stack_example) →
       InitialiseReturned n ∈ (initialise stack_example ()).2
       ∨ IsEnabled n false ∈ (initialise stack_example ()).2).
Proof.
  split; [by vm_compute|].
  apply (initialise_calls_each_module_once stack_example ()).
  apply manager_of_consistent.
Defined.

Lemma clinging_example_consistent : consistent clinging_example.
Proof.
  pose proof (manager_of_consistent
                [quiet_module "db" [] true;
                 clinging_module (W:=unit) "auth" ["db"] "busy"]) as Hc.
  unfold consistent in *.
  by replace (modules clinging_example) with
       (modules (manager_of [quiet_module "db" [] true;
                             clinging_module (W:=unit) "auth" ["db"] "busy"]))
    by by vm_compute.
Qed.

(** The shutdown hook of [auth] throws; [db] is shut down after it all
    the same, and [shutdown] returns. *)
Lemma shutdown_is_best_effort_witness :
  shutdown clinging_example ()
  = (Ok (),
     manager_of [quiet_module "db" [] true; clinging_module "auth" ["db"] "busy"],
     (),
     [ShutdownCalled "auth"; ShutdownThrew "auth" (Thrown "busy");
      ShutdownCalled "db"; ShutdownReturned "db"])
  ∧ match (shutdown clinging_example ()).1.1.1 with
    | Ok _ =>
        isInitialised (shutdown clinging_example ()).1.1.2 = false
        ∧ modules (shutdown clinging_example ()).1.1.2 = modules clinging_example
        ∧ dependencyGraph (shutdown clinging_example ()).1.1.2
          = dependencyGraph clinging_example
        ∧ shutdown_calls (shutdown clinging_example ()).2
          ≡ₚ map_keys (modules clinging_example)
        ∧ ∀ l1 m l2 d,
            shutdown_calls (shutdown clinging_example ()).2 = l1 ++ m :: l2 →
            declares clinging_example m d →
            d ∈ map_keys (modules clinging_example) → d ∈ l2
    | Throw e =>
        (∃ m, e = Error_CircularFor m)
        ∧ shutdown clinging_example () = (Throw e, clinging_example, (), [])
    | OutOfFuel => False
    end.
Proof.
  split; [by vm_compute|].
  apply (shutdown_is_best_effort clinging_example ()).
  - apply clinging_example_consistent.
  - by vm_compute.
Defined.

(** The stack is initialised as [db], [auth], [api] and shut down as
    [api], [auth], [db]. *)
Lemma shutdown_mirrors_initialise_witness :
  shutdown_calls (shutdown (initialise stack_example ()).1.1.2 ()).2
  = ["api"; "auth"; "db"]
  ∧ ∀ w2,
      (shutdown (initialise stack_example ()).1.1.2 w2).1.1.1 = Ok ()
      ∧ (shutdown (initialise stack_example ()).1.1.2 w2).1.1.2 = stack_example
      ∧ reverse (shutdown_calls (shutdown (initialise stack_example ()).1.1.2 w2).2)
        ≡ₚ map_keys (modules stack_example)
      ∧ initialiser_calls (initialise stack_example ()).2
        `sublist_of`
        reverse (shutdown_calls (shutdown (initialise stack_example ()).1.1.2 w2).2)
      ∧ ((∀ n, IsEnabled n false ∉ (initialise stack_example ()).2) →
         initialiser_calls (initialise stack_example ()).2
         = reverse (shutdown_calls
                      (shutdown (initialise stack_example ()).1.1.2 w2).2))
      ∧ ∀ w3,
          shutdown (shutdown (initialise stack_example ()).1.1.2 w2).1.1.2 w3
          = (Ok (), stack_example, w3, [Warned "Module manager not initialised"]).
Proof.
  split; [by vm_compute|].
  apply (shutdown_mirrors_initialise stack_example () _ ()).
  - apply manager_of_consistent.
  - reflexivity.
  - by vm_compute.
Defined.

(** [A] says it is disabled. *)
Lemma initialise_skips_disabled_witness :
  InitialiseCalled "A" ∉ (initialise disabled_example ()).2.
Proof.
  apply (initialise_skips_disabled disabled_example () "A"
           (quiet_module "A" [] false)).
  - by vm_compute.
  - reflexivity.
Defined.

(** The stack initialises; the cycle of [A] and [B] is refused. *)
Lemma initialise_outcomes_witness :
  (initialise cycle_example ()).1.1.1 = Throw (Error_CircularInvolving "B")
  ∧ match (initialise stack_example ()).1.1.1 with
    | Ok _ =>
        isInitialised (initialise stack_example ()).1.1.2 = true
        ∧ modules (initialise stack_example ()).1.1.2 = modules stack_example
        ∧ dependencyGraph (initialise stack_example ()).1.1.2
          = dependencyGraph stack_example
    | Throw e =>
        (initialise stack_example ()).1.1.2 = stack_example
        ∧ isInitialised stack_example = false
        ∧ ((∃ m d, e = Error_MissingDependency m d ∧ declares stack_example m d
                   ∧ (d ∉ map_keys (modules stack_example))
                   ∧ (initialise stack_example ()).2 = [])
           ∨ (∃ m, e = Error_CircularInvolving m
                   ∧ tc (edge (dependencyGraph stack_example)) m m
                   ∧ (initialise stack_example ()).2 = [])
           ∨ (∃ f, InitialiseThrew f e ∈ (initialise stack_example ()).2))
    | OutOfFuel => False
    end.
Proof.
  split; [by vm_compute|].
  apply (initialise_outcomes stack_example ()).
  apply manager_of_consistent.
Defined.

End LifecycleProperties.

(** ** More on the middleware registry *)

Section RegistryOfMiddlewares.

Import MiddlewareManager.

Context {C A : Type}.
Implicit Types (mm : t C A) (m : IMiddleware C A).

Lemma NoDup_fmap_eq {X Y : Type} (f : X → Y) (l : list X) (x y : X) :
  NoDup (f <$> l) → x ∈ l → y ∈ l → f x = f y → x = y.
Proof.
  induction l as [|z l IH]; csimpl; intros Hnd Hx Hy Hf; [inversion Hx|].
  apply NoDup_cons in Hnd as [Hz Hnd].
  apply elem_of_cons in Hx as [->|Hx]; apply elem_of_cons in Hy as [->|Hy].
  - done.
  - exfalso. apply Hz. rewrite Hf. apply list_elem_of_fmap. by exists y.
  - exfalso. apply Hz. rewrite <- Hf. apply list_elem_of_fmap. by exists x.
  - by apply IH.
Qed.

(** [get] finds the middleware of that name, which is unique. *)
Lemma get_elem mm (n : string) m :
  NoDup (m_name <$> middlewares mm) →
  get n mm = Some m ↔ m ∈ middlewares mm ∧ m_name m = n.
Proof.
  intros Hnd. unfold get. split.
  - destruct (list_find _ _) as [[i x]|] eqn:Hfind; [|done].
    intros [= <-]. apply list_find_Some in Hfind as (Hi & Hx & _).
    split; [by eapply list_elem_of_lookup_2|done].
  - intros [Hm Hn].
    destruct (list_find_elem_of (λ m', m_name m' = n) _ m Hm Hn) as [[i x] Hfind].
    rewrite Hfind. simpl. f_equal.
    apply list_find_Some in Hfind as (Hi & Hx & _).
    apply (NoDup_fmap_eq m_name (middlewares mm)); [done| |done|congruence].
    by eapply list_elem_of_lookup_2.
Qed.

Lemma get_None mm (n : string) :
  get n mm = None ↔ n ∉ m_name <$> middlewares mm.
Proof.
  unfold get. rewrite fmap_None, list_find_None, Forall_forall. split.
  - intros Hall Hin. apply list_elem_of_fmap in Hin as (m & -> & Hm).
    by apply (Hall m).
  - intros Hn m Hm Heq. apply Hn. apply list_elem_of_fmap. by exists m.
Qed.

Lemma some_name mm m :
  existsb (λ m', bool_decide (m_name m' = m_name m)) (middlewares mm) = true
  ↔ m_name m ∈ m_name <$> middlewares mm.
Proof.
  rewrite existsb_exists, list_elem_of_fmap. split.
  - intros (x & Hx & Hn). apply bool_decide_eq_true in Hn.
    exists x. split; [done|]. by apply list_elem_of_In.
  - intros (x & Hn & Hx). exists x. split; [by apply list_elem_of_In|].
    by apply bool_decide_eq_true.
Qed.

(** [register] keeps the registry well ordered.  A name that is taken
    is refused; otherwise the array is the old one with the new
    middleware put in, names stay unique, priorities stay in descending
    order, and [get] finds the new middleware under its name. *)
Theorem middleware_register_keeps_order mm m :
  well_ordered mm →
  match register m mm with
  | Ok mm' =>
      well_ordered mm'
      ∧ middlewares mm' ≡ₚ m :: middlewares mm
      ∧ get (m_name m) mm = None
      ∧ get (m_name m) mm' = Some m
      ∧ ∀ n, n ≠ m_name m → get n mm' = get n mm
  | Throw e =>
      e = Error_MiddlewareAlreadyRegistered (m_name m)
      ∧ is_Some (get (m_name m) mm)
  | OutOfFuel => False
  end.
Proof.
  intros [Hnd Hsorted]. unfold register.
  destruct (existsb _ _) eqn:Hex.
  - split; [done|]. apply some_name in Hex.
    destruct (get (m_name m) mm) eqn:Hget; [done|].
    by apply get_None in Hget.
  - assert (m_name m ∉ m_name <$> middlewares mm) as Hfresh.
    { intros Hin. apply some_name in Hin. congruence. }
    set (mm' := {| middlewares :=
                     Array_sort (descending m_priority) (middlewares mm ++ [m]) |}).
    assert (middlewares mm' ≡ₚ m :: middlewares mm) as Hperm.
    { unfold mm'. cbn [middlewares]. rewrite Array_sort_perm.
      by rewrite Permutation_app_comm. }
    assert (NoDup (m_name <$> middlewares mm')) as Hnd'.
    { rewrite Hperm. csimpl. by apply NoDup_cons. }
    split; [split; [done | apply Array_sort_sorted]|].
    split; [done|]. split; [by apply get_None|]. split.
    + apply get_elem; [done|]. split; [|done]. rewrite Hperm. left.
    + intros n Hn. destruct (get n mm) as [x|] eqn:Hget.
      * apply get_elem in Hget as [Hx Hxn]; [|done].
        apply get_elem; [done|]. split; [|done]. rewrite Hperm. by right.
      * apply get_None. apply get_None in Hget. rewrite Hperm. csimpl.
        by apply not_elem_of_cons.
Qed.

(** [unregister] keeps the registry well ordered.  A name that is not
    registered is refused; otherwise exactly the middleware of that name
    is taken out, the others keep their order, and [get] no longer finds
    the name. *)
Theorem middleware_unregister_removes mm (n : string) :
  well_ordered mm →
  match unregister n mm with
  | Ok mm' =>
      well_ordered mm'
      ∧ (∃ m, get n mm = Some m ∧ middlewares mm ≡ₚ m :: middlewares mm')
      ∧ middlewares mm' `sublist_of` middlewares mm
      ∧ get n mm' = None
      ∧ ∀ n', n' ≠ n → get n' mm' = get n' mm
  | Throw e => e = Error_MiddlewareNotFound n ∧ get n mm = None
  | OutOfFuel => False
  end.
Proof.
  intros [Hnd Hsorted]. unfold unregister.
  destruct (list_find _ _) as [[i x]|] eqn:Hfind.
  - pose proof Hfind as Hfind'.
    apply list_find_Some in Hfind as (Hi & Hx & _).
    set (mm' := {| middlewares := base.delete i (middlewares mm) |}).
    assert (middlewares mm ≡ₚ x :: middlewares mm') as Hperm
      by by apply delete_Permutation.
    assert (middlewares mm' `sublist_of` middlewares mm) as Hsub
      by apply sublist_delete.
    assert (NoDup (m_name <$> middlewares mm')) as Hnd'.
    { apply (sublist_NoDup _ (m_name <$> middlewares mm)); [done|].
      by apply fmap_sublist. }
    assert (NoDup (m_name x :: (m_name <$> middlewares mm'))) as Hndx.
    { change (NoDup (m_name <$> x :: middlewares mm')). by rewrite <- Hperm. }
    apply NoDup_cons in Hndx as [Hfresh _].
    split.
    { split; [done|]. unfold mm'. cbn [middlewares].
      rewrite delete_take_drop.
      rewrite <- (take_drop_middle _ _ _ Hi) in Hsorted.
      apply StronglySorted_app in Hsorted as (Hcross & Hl & Hr).
      apply StronglySorted_cons in Hr as [_ Hr].
      apply StronglySorted_app_2; [|done|done].
      intros x1 x2 Hx1 Hx2. apply Hcross; [done|]. by right. }
    split.
    { exists x. split; [|done]. unfold get. by rewrite Hfind'. }
    split; [done|]. split.
    { apply get_None. by rewrite <- Hx. }
    intros n' Hn'. destruct (get n' mm) as [y|] eqn:Hget.
    + apply get_elem in Hget as [Hy Hyn]; [|done].
      apply get_elem; [done|]. split; [|done].
      rewrite Hperm in Hy. apply elem_of_cons in Hy as [->|Hy]; [|done].
      congruence.
    + apply get_None. apply get_None in Hget. intros Hin. apply Hget.
      rewrite Hperm. csimpl. by right.
  - split; [done|]. unfold get. by rewrite Hfind.
Qed.

End RegistryOfMiddlewares.

(** ** A middleware that throws *)

Section ThrowingMiddleware.

Import MiddlewareManager.

Context {C A : Type}.
Implicit Types (mm : t C A) (m : IMiddleware C A).

Lemma logged_errors_app (tr1 tr2 : list (event A)) :
  logged_errors (tr1 ++ tr2) = logged_errors tr1 ++ logged_errors tr2.
Proof. apply omap_app. Qed.

(** A script that throws before it awaits [next()] leaves the cursor
    where it is. *)
Lemma run_script_throws (name : string)
  (nxt : nat * list (event A) → outcome unit * (nat * list (event A)))
  (s : script A) (e : error) :
  throws_first s = Some e →
  ∀ st, ∃ acts,
    run_script (act_of name) nxt s st = (Throw e, (st.1, st.2 ++ acts))
    ∧ executed acts = [] ∧ logged_errors acts = [].
Proof.
  induction s as [|e'|a k IH|k IH]; intros Hs [i tr]; simpl in *; try done.
  - injection Hs as ->. exists []. by rewrite app_nil_r.
  - destruct (IH Hs (i, tr ++ [Acted name a])) as (acts & Hrun & Hex & Hlog).
    exists (Acted name a :: acts). simpl in *.
    by rewrite Hrun, <- app_assoc.
Qed.

(** A script that gets to an [await next()] passes on what [next()]
    throws. *)
Lemma run_script_awaits (name : string)
  (nxt : nat * list (event A) → outcome unit * (nat * list (event A)))
  (s : script A) :
  awaits_next s = true →
  ∀ st, ∃ acts,
    executed acts = [] ∧ logged_errors acts = []
    ∧ ∀ e st', nxt (st.1, st.2 ++ acts) = (Throw e, st') →
        run_script (act_of name) nxt s st = (Throw e, st').
Proof.
  induction s as [|e'|a k IH|k IH]; intros Hs [i tr]; simpl in *; try done.
  - destruct (IH Hs (i, tr ++ [Acted name a])) as (acts & Hex & Hlog & Hrun).
    exists (Acted name a :: acts). simpl in *.
    split; [done|]. split; [done|]. intros e st' Hnxt. apply Hrun.
    by rewrite <- app_assoc.
  - exists []. split; [done|]. split; [done|]. intros e st' Hnxt.
    rewrite app_nil_r in Hnxt. by rewrite Hnxt.
Qed.

Lemma next_throws (l : list (IMiddleware C A)) context (i : nat) m (e : error) :
  l !! i = Some m → throws_first (m_execute m context) = Some e →
  (∀ j m', j < i → l !! j = Some m' → awaits_next (m_execute m' context) = true) →
  ∀ k j fuel tr, j + k = i → k < fuel →
    ∃ tr', next fuel l context (j, tr) = (Throw e, (S i, tr ++ tr'))
      ∧ executed tr' = drop j (take (S i) (m_name <$> l))
      ∧ logged_errors tr'
        = (λ n, (n, e)) <$> reverse (drop j (take (S i) (m_name <$> l))).
Proof.
  intros Hm Hthrow Hbefore.
  pose proof (lookup_lt_Some _ _ _ Hm) as Hlen.
  induction k as [|k IH]; intros j fuel tr Hj Hfuel;
    (destruct fuel as [|fuel]; [lia|]); rewrite next_unfold;
    (destruct (decide (length l ≤ j)) as [|_]; [lia|]).
  - assert (j = i) as -> by lia. rewrite Hm.
    destruct (run_script_throws (m_name m) (next fuel l context)
                (m_execute m context) e Hthrow
                (S i, tr ++ [Executing (m_name m)]))
      as (acts & -> & Hex & Hlog).
    cbn [fst snd].
    exists ([Executing (m_name m)] ++ acts ++ [ErrorLogged (m_name m) e]).
    split; [by rewrite <- !app_assoc|].
    assert (drop i (take (S i) (m_name <$> l)) = [m_name m]) as ->.
    { rewrite (take_S_r _ _ (m_name m)) by by rewrite list_lookup_fmap, Hm.
      apply drop_app_length'. rewrite length_take, length_fmap. lia. }
    rewrite !executed_app, !logged_errors_app, Hex, Hlog. done.
  - destruct (l !! j) as [mj|] eqn:Hget.
    2: { apply lookup_ge_None in Hget. lia. }
    destruct (run_script_awaits (m_name mj) (next fuel l context)
                (m_execute mj context)
                (Hbefore j mj ltac:(lia) Hget)
                (S j, tr ++ [Executing (m_name mj)]))
      as (acts & Hex & Hlog & Hrun).
    cbn [fst snd] in Hrun.
    destruct (IH (S j) fuel ((tr ++ [Executing (m_name mj)]) ++ acts)
                ltac:(lia) ltac:(lia)) as (tr' & Hnext & Hex' & Hlog').
    rewrite (Hrun _ _ Hnext).
    exists ([Executing (m_name mj)] ++ acts ++ tr' ++ [ErrorLogged (m_name mj) e]).
    split; [by rewrite <- !app_assoc|].
    assert (drop j (take (S i) (m_name <$> l))
            = m_name mj :: drop (S j) (take (S i) (m_name <$> l))) as ->.
    { apply drop_S. rewrite lookup_take_lt by lia.
      by rewrite list_lookup_fmap, Hget. }
    rewrite !executed_app, !logged_errors_app, Hex, Hlog, Hex', Hlog'.
    simpl. split; [by rewrite app_nil_r|].
    by rewrite reverse_cons, fmap_app.
Qed.

(** A throwing middleware ends the chain.  If the middleware at index
    [i] throws before it awaits [next()] and the ones before it get to
    their [await next()], then [execute] throws the same error, the
    middlewares called are those up to [i] and no later one, and the
    error is logged once for each of them, innermost first. *)
Theorem execute_stops_at_throw mm context (i : nat) m (e : error) :
  middlewares mm !! i = Some m →
  throws_first (m_execute m context) = Some e →
  (∀ j m', j < i → middlewares mm !! j = Some m' →
     awaits_next (m_execute m' context) = true) →
  (execute mm context).1 = Throw e
  ∧ executed (execute mm context).2 = take (S i) (m_name <$> middlewares mm)
  ∧ logged_errors (execute mm context).2
    = (λ n, (n, e)) <$> reverse (take (S i) (m_name <$> middlewares mm)).
Proof.
  intros Hm Hthrow Hbefore. rewrite execute_unfold.
  pose proof (lookup_lt_Some _ _ _ Hm) as Hlen.
  destruct (next_throws (middlewares mm) context i m e Hm Hthrow Hbefore
              i 0 (S (length (middlewares mm))) [] ltac:(lia) ltac:(lia))
    as (tr' & -> & Hex & Hlog).
  by rewrite drop_0 in Hex, Hlog.
Qed.

End ThrowingMiddleware.

Section RegistryExamples.

Import MiddlewareManager.

Lemma three_middlewares_well_ordered :
  well_ordered (manager_with three_middlewares).
Proof.
  split.
  - vm_compute. repeat (apply NoDup_cons; split; [set_solver|]). constructor.
  - vm_compute. repeat constructor; discriminate.
Qed.

(** A fourth middleware of priority 40 goes between [fifty] and
    [thirty]; a second [ten] is refused. *)
Lemma middleware_register_keeps_order_witness :
  m_name <$> middlewares
               (match register (passing "forty" 40) (manager_with three_middlewares)
                with Ok mm' => mm' | _ => new end)
  = ["fifty"; "forty"; "thirty"; "ten"]
  ∧ register (passing "ten" 0) (manager_with three_middlewares)
    = Throw (Error_MiddlewareAlreadyRegistered "ten")
  ∧ match register (passing "forty" 40) (manager_with three_middlewares) with
    | Ok mm' =>
        well_ordered mm'
        ∧ middlewares mm'
          ≡ₚ passing "forty" 40 :: middlewares (manager_with three_middlewares)
        ∧ get "forty" (manager_with three_middlewares) = None
        ∧ get "forty" mm' = Some (passing "forty" 40)
        ∧ ∀ n, n ≠ "forty" → get n mm' = get n (manager_with three_middlewares)
    | Throw e =>
        e = Error_MiddlewareAlreadyRegistered "forty"
        ∧ is_Some (get "forty" (manager_with three_middlewares))
    | OutOfFuel => False
    end.
Proof.
  split; [by vm_compute|]. split; [by vm_compute|].
  apply (middleware_register_keeps_order (manager_with three_middlewares)
           (passing "forty" 40)).
  apply three_middlewares_well_ordered.
Defined.

(** Taking [thirty] out leaves [fifty] and [ten]. *)
Lemma middleware_unregister_removes_witness :
  m_name <$> middlewares
               (match unregister "thirty" (manager_with three_middlewares)
                with Ok mm' => mm' | _ => new end)
  = ["fifty"; "ten"]
  ∧ unregister "forty" (manager_with three_middlewares)
    = Throw (Error_MiddlewareNotFound "forty")
  ∧ match unregister "thirty" (manager_with three_middlewares) with
    | Ok mm' =>
        well_ordered mm'
        ∧ (∃ m, get "thirty" (manager_with three_middlewares) = Some m
             ∧ middlewares (manager_with three_middlewares) ≡ₚ m :: middlewares mm')
        ∧ middlewares mm' `sublist_of` middlewares (manager_with three_middlewares)
        ∧ get "thirty" mm' = None
        ∧ ∀ n', n' ≠ "thirty" →
            get n' mm' = get n' (manager_with three_middlewares)
    | Throw e =>
        e = Error_MiddlewareNotFound "thirty"
        ∧ get "thirty" (manager_with three_middlewares) = None
    | OutOfFuel => False
    end.
Proof.
  split; [by vm_compute|]. split; [by vm_compute|].
  apply (middleware_unregister_removes (manager_with three_middlewares) "thirty").
  apply three_middlewares_well_ordered.
Defined.

(** [fifty] awaits [next()], [thirty] throws, and [ten] is never
    called. *)
Lemma execute_stops_at_throw_witness :
  execute (manager_with throwing_middlewares) ()
  = (Throw (Thrown "denied"),
     [Executing "fifty"; Executing "thirty";
      ErrorLogged "thirty" (Thrown "denied");
      ErrorLogged "fifty" (Thrown "denied")])
  ∧ (execute (manager_with throwing_middlewares) ()).1 = Throw (Thrown "denied")
  ∧ executed (execute (manager_with throwing_middlewares) ()).2
    = take 2 (m_name <$> middlewares (manager_with throwing_middlewares))
  ∧ logged_errors (execute (manager_with throwing_middlewares) ()).2
    = (λ n, (n, Thrown "denied"))
        <$> reverse (take 2 (m_name <$> middlewares (manager_with throwing_middlewares))).
Proof.
  split; [by vm_compute|].
  apply (execute_stops_at_throw (manager_with throwing_middlewares) () 1
           (throwing "thirty" 30 "denied")).
  - by vm_compute.
  - reflexivity.
  - intros [|j] m' Hj Hm'; [|lia].
    vm_compute in Hm'. by injection Hm' as <-.
Defined.

End RegistryExamples.

(** ** More on the HTTP server *)

Section ServerExtras.

Import HttpServer.

Implicit Types (srv : t) (request : HttpRequest) (ex : exchange)
  (req : IncomingMessage).

Lemma executeRoute_log srv request ex :
  ∃ rest, log (executeRoute srv request ex).2
          = log ex ++ RouteDispatch (method request +:+ ":" +:+ pathname request)
                        :: rest.
Proof.
  assert (∀ handler request' ex',
            log (call_handler handler request' ex').2
            = log ex' ++ [HandlerCalled (h_name handler) request']) as Hcall.
  { intros handler request' ex'. unfold call_handler.
    rewrite bind_unfold. unfold record. cbv beta iota.
    by rewrite run_script_handler_log. }
  unfold executeRoute. rewrite bind_unfold. unfold record. cbv beta iota.
  destruct (map_get (routes srv) _) as [handler|].
  { eexists. rewrite Hcall. cbn [log]. by rewrite <- app_assoc. }
  destruct (findParameterizedRoute _ _ _) as [[handler p]|].
  { eexists. rewrite Hcall. cbn [log]. by rewrite <- app_assoc. }
  by exists [].
Qed.

Lemma register_middlewares_app (l : list HttpMiddleware) srv :
  middlewares (register_middlewares l srv) = middlewares srv ++ l
  ∧ routes (register_middlewares l srv) = routes srv
  ∧ config (register_middlewares l srv) = config srv.
Proof.
  revert srv. induction l as [|mw l IH]; intros srv; simpl.
  - by rewrite app_nil_r.
  - destruct (IH (registerMiddleware mw srv)) as (-> & -> & ->).
    simpl. by rewrite <- app_assoc.
Qed.

Lemma next_passes_through srv request :
  (∀ mw, mw ∈ middlewares srv →
     ∃ k, mw_handler mw request = AwaitNext k ∧ next_calls k = 0) →
  ∀ n ex fuel, middlewareIndex ex + n = length (middlewares srv) → n < fuel →
    ∃ rest, log (next fuel srv request ex).2
            = log ex
              ++ ((λ mw, MiddlewareCalled (mw_name mw))
                    <$> drop (middlewareIndex ex) (middlewares srv))
              ++ RouteDispatch (method request +:+ ":" +:+ pathname request)
                   :: rest.
Proof.
  intros Hall. induction n as [|n IH]; intros ex fuel Hn Hfuel;
    (destruct fuel as [|fuel]; [lia|]); rewrite next_unfold_http.
  - destruct (decide (middlewareIndex ex < length (middlewares srv))); [lia|].
    rewrite drop_ge by lia. apply executeRoute_log.
  - destruct (decide (middlewareIndex ex < length (middlewares srv))); [|lia].
    destruct (middlewares srv !! middlewareIndex ex) as [mw|] eqn:Hget.
    2: { apply lookup_ge_None in Hget. lia. }
    destruct (Hall mw ltac:(by eapply list_elem_of_lookup_2)) as (k & -> & Hk).
    rewrite (drop_S _ _ _ Hget). simpl.
    set (ex1 := {| res := res ex; middlewareIndex := S (middlewareIndex ex);
                   log := log ex ++ [MiddlewareCalled (mw_name mw)] |}).
    destruct (IH ex1 fuel ltac:(simpl; lia) ltac:(lia)) as (rest & Hlog).
    exists rest. simpl in Hlog. rewrite <- app_assoc in Hlog. simpl in Hlog.
    destruct (next fuel srv request ex1) as [[[]| |] ex2]; simpl in *; try done.
    by destruct (run_script_respond_no_next (next fuel srv request) k Hk ex2)
      as [_ ->].
Qed.

(** The chain of [handleRequest] runs in registration order.
    [registerMiddleware] appends; and when every middleware awaits
    [next()] first and does not call it again, each one is called once,
    in the order of registration, and route dispatch comes after the
    last. *)
Theorem middlewares_run_in_registration_order srv0
  (l : list HttpMiddleware) request (res0 : ServerResponse) :
  (∀ mw, mw ∈ middlewares srv0 ++ l →
     ∃ k, mw_handler mw request = AwaitNext k ∧ next_calls k = 0) →
  middlewares (register_middlewares l srv0) = middlewares srv0 ++ l
  ∧ ∃ rest,
      log (next (S (length (middlewares srv0 ++ l)))
             (register_middlewares l srv0) request
             {| res := res0; middlewareIndex := 0; log := [] |}).2
      = ((λ mw, MiddlewareCalled (mw_name mw)) <$> middlewares srv0 ++ l)
        ++ RouteDispatch (method request +:+ ":" +:+ pathname request) :: rest.
Proof.
  intros Hall. destruct (register_middlewares_app l srv0) as (Hmw & _ & _).
  split; [done|]. rewrite <- Hmw in *.
  destruct (next_passes_through (register_middlewares l srv0) request Hall
              (length (middlewares (register_middlewares l srv0)))
              {| res := res0; middlewareIndex := 0; log := [] |}
              (S (length (middlewares (register_middlewares l srv0))))
              ltac:(done) ltac:(lia)) as (rest & Hlog).
  by exists rest.
Qed.

(** [Object.fromEntries]: each key once, with the value of its last
    entry. *)
Lemma fromEntries_last (entries : list (string * string)) (k : string) :
  map_get (fromEntries entries) k
  = snd <$> last (filter (λ entry, entry.1 = k) entries)
  ∧ NoDup (map_keys (fromEntries entries)).
Proof.
  unfold fromEntries. induction entries as [|[k' v'] entries IH] using rev_ind.
  - split; [done|constructor].
  - rewrite foldl_app. cbn [foldl fst snd]. destruct IH as [IHget IHnd]. split.
    + rewrite <- object_get_id, object_get_set, object_get_id, filter_app.
      unfold id. destruct (decide (k' = k)) as [->|Hne].
      * rewrite filter_cons_True by done. by rewrite filter_nil, last_snoc.
      * rewrite filter_cons_False by done. by rewrite filter_nil, app_nil_r.
    + rewrite <- (list_fmap_id (map_keys _)).
      apply object_set_NoDup. by rewrite list_fmap_id.
Qed.

Lemma matchRoute_loop_sound (pp qq : list string) :
  ∀ n a params0 params,
    matchRoute_loop pp qq (seq a n) params0 = Some params →
    (∀ i, a ≤ i < a + n →
       ∃ p q, pp !! i = Some p ∧ qq !! i = Some q ∧ segment_matches p q)
    ∧ ∀ name value, map_get params name = Some value →
        map_get params0 name = Some value
        ∨ ∃ i p, pp !! i = Some p ∧ startsWith p ":" = true
                 ∧ slice1 p = name ∧ qq !! i = Some value.
Proof.
  induction n as [|n IH]; intros a params0 params; simpl.
  - intros [= <-]. split; [lia|]. by left.
  - destruct (pp !! a) as [p|] eqn:Hp; [|done].
    destruct (qq !! a) as [q|] eqn:Hq; [|done].
    destruct (bool_decide (p = "")) eqn:Hpe; [done|].
    destruct (bool_decide (q = "")) eqn:Hqe; [done|]. simpl.
    apply bool_decide_eq_false in Hpe, Hqe.
    destruct (startsWith p ":") eqn:Hstart.
    + intros Hrest. destruct (IH _ _ _ Hrest) as [Hseg Hpar]. split.
      * intros i Hi. destruct (decide (i = a)) as [->|]; [|apply Hseg; lia].
        exists p, q. repeat split; try done. by left.
      * intros name value Hget. destruct (Hpar name value Hget) as [Hold|Hnew];
          [|by right].
        unfold set_param in Hold.
        destruct (bool_decide (slice1 p = "__proto__")); [by left|].
        rewrite <- object_get_id, object_get_set, object_get_id in Hold.
        unfold id in Hold.
        destruct (decide (slice1 p = name)) as [Heq|]; [|by left].
        injection Hold as <-. right. by exists a, p.
    + destruct (bool_decide (p ≠ q)) eqn:Hpq; [done|].
      apply bool_decide_eq_false in Hpq. apply dec_stable in Hpq.
      intros Hrest. destruct (IH _ _ _ Hrest) as [Hseg Hpar]. split; [|done].
      intros i Hi. destruct (decide (i = a)) as [->|]; [|apply Hseg; lia].
      exists p, q. repeat split; try done. by right.
Qed.

Lemma matchRoute_loop_complete (pp qq : list string) :
  ∀ n a params0,
    (∀ i, a ≤ i < a + n →
       ∃ p q, pp !! i = Some p ∧ qq !! i = Some q ∧ segment_matches p q) →
    is_Some (matchRoute_loop pp qq (seq a n) params0).
Proof.
  induction n as [|n IH]; intros a params0 Hseg; simpl; [by eexists|].
  destruct (Hseg a ltac:(lia)) as (p & q & -> & -> & Hp & Hq & Hpq).
  rewrite !bool_decide_eq_false_2 by done. simpl.
  destruct (startsWith p ":") eqn:Hstart.
  - apply IH. intros i Hi. apply Hseg. lia.
  - destruct Hpq as [Hs| ->]; [congruence|].
    rewrite bool_decide_eq_false_2 by (intros Hne; by apply Hne).
    apply IH. intros i Hi. apply Hseg. lia.
Qed.

(** [matchRoute] compares segment by segment.  A pattern matches a path
    exactly when both have the same number of segments between slashes,
    no segment of either is empty, and every pattern segment is a
    parameter or equal to the path segment at its place; and every
    parameter it returns is bound to the path segment at the place of a
    pattern segment that starts with a colon and is named after the rest
    of that segment. *)
Theorem matchRoute_segments (pattern path : string) :
  (is_Some (matchRoute pattern path)
   ↔ Forall2 segment_matches (split "/" pattern) (split "/" path))
  ∧ ∀ params name value,
      matchRoute pattern path = Some params →
      map_get params name = Some value →
      ∃ i p, split "/" pattern !! i = Some p
             ∧ startsWith p ":" = true ∧ slice1 p = name
             ∧ split "/" path !! i = Some value.
Proof.
  unfold matchRoute.
  set (pp := split "/" pattern). set (qq := split "/" path). split.
  - rewrite Forall2_same_length_lookup. split.
    + intros [params Hm].
      destruct (bool_decide (length pp ≠ length qq)) eqn:Hlen; [done|].
      apply bool_decide_eq_false in Hlen. apply dec_stable in Hlen.
      split; [done|].
      destruct (matchRoute_loop_sound pp qq _ _ _ _ Hm) as [Hseg _].
      intros i p q Hp Hq.
      destruct (Hseg i ltac:(apply lookup_lt_Some in Hp; lia))
        as (p' & q' & Hp' & Hq' & Hpq).
      congruence.
    + intros [Hlen Hseg].
      rewrite bool_decide_eq_false_2 by (intros Hne; by apply Hne).
      apply matchRoute_loop_complete. intros i Hi.
      destruct (lookup_lt_is_Some_2 pp i ltac:(lia)) as [p Hp].
      destruct (lookup_lt_is_Some_2 qq i ltac:(lia)) as [q Hq].
      exists p, q. split; [done|]. split; [done|]. by apply (Hseg i).
  - intros params name value Hm Hget.
    destruct (bool_decide (length pp ≠ length qq)); [done|].
    destruct (matchRoute_loop_sound pp qq _ _ _ _ Hm) as [_ Hpar].
    by destruct (Hpar name value Hget) as [|].
Qed.

Section Platform.

Variable URL : string → string → option (string * list (string * string)).
Variable JSON_parse : string → option JSON.

(** A registered route is served.  On a server without middleware
    whose configured origin node takes as a header value, after
    [registerRoute] for a method other than [options], a request with
    that method and exactly that path gets the CORS headers and is
    handed to the handler, with the request as parsed and no parameters
    added; when the handler answers with [json], that is the response,
    with status 200. *)
Theorem registered_route_is_served srv (verb : HttpMethod) (path : string)
  (handler : RouteHandler) req request :
  parseRequest URL JSON_parse req = Ok request →
  method request = toUpperCase verb → verb ≠ options →
  pathname request = path →
  middlewares srv = [] →
  cors_accepted srv = true →
  handleRequest URL JSON_parse (registerRoute verb path handler srv) req
    {| res := new_ServerResponse; middlewareIndex := 0; log := [] |}
  = run_script respond (throw (TypeError "next is not a function"))
      (h_run handler request)
      {| res := {| statusCode := 200; res_headers := cors_headers srv;
                   res_body := None |};
         middlewareIndex := 0;
         log := [RouteDispatch (toUpperCase verb +:+ ":" +:+ path);
                 HandlerCalled (h_name handler) request] |}
  ∧ ∀ data, h_run handler request = Call (json data) Return →
      requestListener URL JSON_parse (registerRoute verb path handler srv) req
      = (Ok (),
         {| res := {| statusCode := 200;
                      res_headers :=
                        cors_headers srv ++ [("Content-Type", "application/json")];
                      res_body := Some (Json data) |};
            middlewareIndex := 0;
            log := [RouteDispatch (toUpperCase verb +:+ ":" +:+ path);
                    HandlerCalled (h_name handler) request] |}).
Proof.
  intros Hparse Hmethod Hverb Hpath Hmw Hcors.
  assert (method request ≠ "OPTIONS") as Hopt.
  { rewrite Hmethod. by destruct verb. }
  assert (handleRequest URL JSON_parse (registerRoute verb path handler srv) req
            {| res := new_ServerResponse; middlewareIndex := 0; log := [] |}
          = run_script respond (throw (TypeError "next is not a function"))
              (h_run handler request)
              {| res := {| statusCode := 200; res_headers := cors_headers srv;
                           res_body := None |};
                 middlewareIndex := 0;
                 log := [RouteDispatch (toUpperCase verb +:+ ":" +:+ path);
                         HandlerCalled (h_name handler) request] |}) as Hrun.
  { rewrite (requestListener_dispatch URL JSON_parse _ req request Hparse Hopt)
      by done.
    rewrite next_unfold_http. cbn [middlewares registerRoute middlewareIndex].
    rewrite Hmw. cbn [length].
    destruct (decide (0 < 0)); [lia|].
    unfold executeRoute. rewrite bind_unfold. unfold record. cbv beta iota.
    cbn [routes registerRoute log res middlewareIndex].
    rewrite Hmethod, Hpath, map_get_set, decide_True by done.
    unfold call_handler. rewrite bind_unfold. unfold record. cbv beta iota.
    reflexivity. }
  split; [done|]. intros data Hjson.
  unfold requestListener. rewrite Hrun, Hjson. cbn [run_script].
  unfold respond. rewrite bind_unfold. unfold setHeader, end_.
  cbn [res res_body res_headers statusCode middlewareIndex log].
  by rewrite cors_headers_set_content_type.
Qed.

(** The query of a parsed request.  [parseRequest] takes the path name
    from the URL, starts with no parameters, and gives every search
    parameter name the last of the values the URL has for it. *)
Theorem query_last_value_wins req request (path : string)
  (searchParams : list (string * string)) (k : string) :
  URL (req_url req)
    ("http://" +:+ default "undefined" (map_get (req_headers req) "host"))
    = Some (path, searchParams) →
  parseRequest URL JSON_parse req = Ok request →
  map_get (query request) k
  = snd <$> last (filter (λ entry, entry.1 = k) searchParams)
  ∧ NoDup (map_keys (query request))
  ∧ pathname request = path
  ∧ params request = []
  ∧ method request = req_method req.
Proof.
  intros HURL Hparse. unfold parseRequest in Hparse. rewrite HURL in Hparse.
  destruct (fromEntries_last searchParams k) as [Hget Hnd].
  destruct (bool_decide _).
  - destruct (parseBody JSON_parse req) as [value| |]; [|done|done].
    cbn in Hparse. by injection Hparse as <-.
  - cbn in Hparse. by injection Hparse as <-.
Qed.

(** What the listener does when [handleRequest] throws.  If nothing has
    been written yet, the answer is 500 with the fixed JSON body,
    whatever the error was; if the response has already ended, the
    listener's own answer fails on [setHeader]: what was written stays,
    and the listener throws. *)
Theorem failed_request_answer srv req (e : error) ex' :
  handleRequest URL JSON_parse srv req
    {| res := new_ServerResponse; middlewareIndex := 0; log := [] |}
  = (Throw e, ex') →
  match res_body (res ex') with
  | None =>
      requestListener URL JSON_parse srv req
      = (Ok (),
         {| res := {| statusCode := 500;
                      res_headers :=
                        object_set toLowerCase (res_headers (res ex'))
                          "Content-Type" "application/json";
                      res_body :=
                        Some (Json (JObject
                                      [("error", JString "Internal Server Error")])) |};
            middlewareIndex := middlewareIndex ex';
            log := log ex' ++ [ErrorLogged e] |})
  | Some written =>
      (requestListener URL JSON_parse srv req).1 = Throw ERR_HTTP_HEADERS_SENT
      ∧ res_body (res (requestListener URL JSON_parse srv req).2) = Some written
      ∧ res_headers (res (requestListener URL JSON_parse srv req).2)
        = res_headers (res ex')
      ∧ log (requestListener URL JSON_parse srv req).2 = log ex' ++ [ErrorLogged e]
  end.
Proof.
  intros Hrun. unfold requestListener. rewrite Hrun.
  destruct ex' as [[code hs [written|]] i l]; cbn [res res_body]; [|reflexivity].
  done.
Qed.

End Platform.

End ServerExtras.

(** ** The route registry *)

Section RouteRegistry.

Import RouteManager.

(** The key of a route tells its method and its path. *)
Lemma routeKey_inj (verb verb' : HttpMethod) (path path' : string) :
  toUpperCase verb +:+ ":" +:+ path = toUpperCase verb' +:+ ":" +:+ path' →
  verb = verb' ∧ path = path'.
Proof. destruct verb, verb'; simpl; intros [=]; by subst. Qed.

(** [RouteManager.register] and [getRoute].  A method and path that are
    taken are refused; otherwise the route is stored with the handler
    and the options given, an empty list standing for middleware or tags
    that are left out, it is the last of [getAllRoutes], and every other
    method and path keeps the route it had.  A route that a group
    registers is the route of the prefixed path. *)
Theorem route_register_then_get (rm : t) (verb : HttpMethod) (path : string)
  (handler : RouteHandler) (options : option RouteOptions) :
  let route :=
    {| r_method := verb; r_path := path; r_handler := handler;
       r_middleware := default [] (options ≫= o_middleware);
       r_description := options ≫= o_description;
       r_tags := default [] (options ≫= o_tags) |} in
  match register verb path handler options rm with
  | Ok rm' =>
      getRoute verb path rm = None
      ∧ getRoute verb path rm' = Some route
      ∧ (∀ verb' path', (verb', path') ≠ (verb, path) →
           getRoute verb' path' rm' = getRoute verb' path' rm)
      ∧ getAllRoutes rm' = getAllRoutes rm ++ [route]
      ∧ routeGroups rm' = routeGroups rm
      ∧ ∀ prefix rest, path = prefix +:+ rest →
          group_register prefix verb rest handler options rm = Ok rm'
  | Throw e =>
      e = Error_RouteAlreadyRegistered (toUpperCase verb +:+ ":" +:+ path)
      ∧ is_Some (getRoute verb path rm)
  | OutOfFuel => False
  end.
Proof.
  intros route. unfold register, getRoute, getAllRoutes, group_register.
  destruct (map_has (routes rm) _) eqn:Hhas.
  - split; [done|]. by apply map_has_true.
  - assert (map_get (routes rm) (toUpperCase verb +:+ ":" +:+ path) = None)
      as Hnone.
    { unfold map_has in Hhas. by destruct (map_get _ _). }
    cbn [routes routeGroups]. split; [done|]. split.
    { rewrite map_get_set. by rewrite decide_True. }
    split.
    { intros verb' path' Hne. rewrite map_get_set.
      rewrite decide_False; [done|].
      intros Heq. apply routeKey_inj in Heq as [-> ->]. done. }
    split; [apply map_set_values_new; by apply map_get_None|].
    split; [done|].
    intros prefix rest ->. unfold register. by rewrite Hhas.
Qed.

End RouteRegistry.

Section ServerExamples.

Import HttpServer.

(** Two middlewares that pass on, registered as [first], [second]. *)
Lemma middlewares_run_in_registration_order_witness :
  log (next 3
         (register_middlewares [pass_through "first"; pass_through "second"]
            users_server)
         {| method := "GET"; url := "/x"; pathname := "/x"; headers := [];
            body := None; params := []; query := [] |}
         {| res := new_ServerResponse; middlewareIndex := 0; log := [] |}).2
  = [MiddlewareCalled "first"; MiddlewareCalled "second"; RouteDispatch "GET:/x"]
  ∧ middlewares
      (register_middlewares [pass_through "first"; pass_through "second"]
         users_server)
    = middlewares users_server ++ [pass_through "first"; pass_through "second"]
  ∧ ∃ rest,
      log (next
             (S (length (middlewares users_server
                         ++ [pass_through "first"; pass_through "second"])))
             (register_middlewares [pass_through "first"; pass_through "second"]
                users_server)
             {| method := "GET"; url := "/x"; pathname := "/x"; headers := [];
                body := None; params := []; query := [] |}
             {| res := new_ServerResponse; middlewareIndex := 0; log := [] |}).2
      = ((λ mw, MiddlewareCalled (mw_name mw))
           <$> middlewares users_server
               ++ [pass_through "first"; pass_through "second"])
        ++ RouteDispatch
             (method {| method := "GET"; url := "/x"; pathname := "/x";
                        headers := []; body := None; params := []; query := [] |}
              +:+ ":"
              +:+ pathname {| method := "GET"; url := "/x"; pathname := "/x";
                              headers := []; body := None; params := [];
                              query := [] |})
             :: rest.
Proof.
  split; [by vm_compute|].
  apply (middlewares_run_in_registration_order users_server
           [pass_through "first"; pass_through "second"]).
  intros mw Hin. exists Return. split; [|done].
  simpl in Hin.
  apply elem_of_cons in Hin as [->|Hin]; [done|].
  apply elem_of_cons in Hin as [->|Hin]; [done|]. inversion Hin.
Defined.

(** [POST /echo] with the body [{"a":1}] is answered with that body. *)
Lemma registered_route_is_served_witness :
  requestListener path_URL two_body_JSON_parse
    (registerRoute post "/echo" (echo_handler "echo") (new default_config))
    (json_request_of "POST" "/echo" [body_a1])
  = (Ok (),
     {| res := {| statusCode := 200;
                  res_headers :=
                    [("Access-Control-Allow-Origin", "*");
                     ("Access-Control-Allow-Methods",
                      "GET, POST, PUT, DELETE, PATCH, OPTIONS");
                     ("Access-Control-Allow-Headers",
                      "Content-Type, Authorization, X-Requested-With");
                     ("Content-Type", "application/json")];
                  res_body := Some (Json (JObject [("a", JNumber 1)])) |};
        middlewareIndex := 0;
        log := [RouteDispatch "POST:/echo";
                HandlerCalled "echo"
                  {| method := "POST"; url := "/echo"; pathname := "/echo";
                     headers := [("host", "localhost");
                                 ("content-type", "application/json; charset=utf-8")];
                     body := Some (JObject [("a", JNumber 1)]);
                     params := []; query := [] |}] |})
  ∧ ∀ data,
      h_run (echo_handler "echo")
        {| method := "POST"; url := "/echo"; pathname := "/echo";
           headers := [("host", "localhost");
                       ("content-type", "application/json; charset=utf-8")];
           body := Some (JObject [("a", JNumber 1)]);
           params := []; query := [] |}
      = Call (json data) Return →
      requestListener path_URL two_body_JSON_parse
        (registerRoute post "/echo" (echo_handler "echo") (new default_config))
        (json_request_of "POST" "/echo" [body_a1])
      = (Ok (),
         {| res := {| statusCode := 200;
                      res_headers :=
                        cors_headers (new default_config)
                        ++ [("Content-Type", "application/json")];
                      res_body := Some (Json data) |};
            middlewareIndex := 0;
            log := [RouteDispatch (toUpperCase post +:+ ":" +:+ "/echo");
                    HandlerCalled (h_name (echo_handler "echo"))
                      {| method := "POST"; url := "/echo"; pathname := "/echo";
                         headers := [("host", "localhost");
                                     ("content-type",
                                      "application/json; charset=utf-8")];
                         body := Some (JObject [("a", JNumber 1)]);
                         params := []; query := [] |}] |}).
Proof.
  split; [by vm_compute|].
  apply (registered_route_is_served path_URL two_body_JSON_parse
           (new default_config) post "/echo" (echo_handler "echo")
           (json_request_of "POST" "/echo" [body_a1])).
  - by vm_compute.
  - reflexivity.
  - discriminate.
  - reflexivity.
  - reflexivity.
  - reflexivity.
Defined.

(** [GET /boom] throws before anything is written and is answered 500;
    [GET /late] has answered before it throws, and the listener
    throws. *)
Lemma failed_request_answer_witness :
  requestListener path_URL two_body_JSON_parse echo_server (request_of "GET" "/boom")
  = (Ok (),
     {| res := internal_server_error (cors_headers echo_server);
        middlewareIndex := 0;
        log := [RouteDispatch "GET:/boom";
                HandlerCalled "boom"
                  {| method := "GET"; url := "/boom"; pathname := "/boom";
                     headers := [("host", "localhost")]; body := None;
                     params := []; query := [] |};
                ErrorLogged (Thrown "broken")] |})
  ∧ (requestListener path_URL two_body_JSON_parse echo_server
       (request_of "GET" "/late")).1
    = Throw ERR_HTTP_HEADERS_SENT
  ∧ match
      res_body
        (res (handleRequest path_URL two_body_JSON_parse echo_server
                (request_of "GET" "/late")
                {| res := new_ServerResponse; middlewareIndex := 0; log := [] |}).2)
    with
    | None =>
        requestListener path_URL two_body_JSON_parse echo_server
          (request_of "GET" "/late")
        = (Ok (),
           {| res := {| statusCode := 500;
                        res_headers :=
                          object_set toLowerCase
                            (res_headers
                               (res (handleRequest path_URL two_body_JSON_parse
                                       echo_server (request_of "GET" "/late")
                                       {| res := new_ServerResponse;
                                          middlewareIndex := 0; log := [] |}).2))
                            "Content-Type" "application/json";
                        res_body :=
                          Some (Json (JObject
                                        [("error",
                                          JString "Internal Server Error")])) |};
              middlewareIndex :=
                middlewareIndex
                  (handleRequest path_URL two_body_JSON_parse echo_server
                     (request_of "GET" "/late")
                     {| res := new_ServerResponse; middlewareIndex := 0;
                        log := [] |}).2;
              log :=
                log (handleRequest path_URL two_body_JSON_parse echo_server
                       (request_of "GET" "/late")
                       {| res := new_ServerResponse; middlewareIndex := 0;
                          log := [] |}).2
                ++ [ErrorLogged (Thrown "too late")] |})
    | Some written =>
        (requestListener path_URL two_body_JSON_parse echo_server
           (request_of "GET" "/late")).1
        = Throw ERR_HTTP_HEADERS_SENT
        ∧ res_body
            (res (requestListener path_URL two_body_JSON_parse echo_server
                    (request_of "GET" "/late")).2)
          = Some written
        ∧ res_headers
            (res (requestListener path_URL two_body_JSON_parse echo_server
                    (request_of "GET" "/late")).2)
          = res_headers
              (res (handleRequest path_URL two_body_JSON_parse echo_server
                      (request_of "GET" "/late")
                      {| res := new_ServerResponse; middlewareIndex := 0;
                         log := [] |}).2)
        ∧ log (requestListener path_URL two_body_JSON_parse echo_server
                 (request_of "GET" "/late")).2
          = log (handleRequest path_URL two_body_JSON_parse echo_server
                   (request_of "GET" "/late")
                   {| res := new_ServerResponse; middlewareIndex := 0;
                      log := [] |}).2
            ++ [ErrorLogged (Thrown "too late")]
    end.
Proof.
  split; [by vm_compute|]. split; [by vm_compute|].
  apply (failed_request_answer path_URL two_body_JSON_parse echo_server
           (request_of "GET" "/late") (Thrown "too late")).
  by vm_compute.
Defined.

(** [GET /search?q=a&q=b] has the query [q = b]. *)
Lemma query_last_value_wins_witness :
  parseRequest search_URL two_body_JSON_parse (request_of "GET" "/search?q=a&q=b")
  = Ok {| method := "GET"; url := "/search?q=a&q=b"; pathname := "/search";
          headers := [("host", "localhost")]; body := None; params := [];
          query := [("q", "b")] |}
  ∧ map_get
      (query {| method := "GET"; url := "/search?q=a&q=b"; pathname := "/search";
                headers := [("host", "localhost")]; body := None; params := [];
                query := [("q", "b")] |}) "q"
    = snd <$> last (filter (λ entry, entry.1 = "q") [("q", "a"); ("q", "b")])
  ∧ NoDup
      (map_keys
         (query {| method := "GET"; url := "/search?q=a&q=b";
                   pathname := "/search"; headers := [("host", "localhost")];
                   body := None; params := []; query := [("q", "b")] |}))
  ∧ pathname {| method := "GET"; url := "/search?q=a&q=b"; pathname := "/search";
                headers := [("host", "localhost")]; body := None; params := [];
                query := [("q", "b")] |}
    = "/search"
  ∧ params {| method := "GET"; url := "/search?q=a&q=b"; pathname := "/search";
              headers := [("host", "localhost")]; body := None; params := [];
              query := [("q", "b")] |}
    = []
  ∧ method {| method := "GET"; url := "/search?q=a&q=b"; pathname := "/search";
              headers := [("host", "localhost")]; body := None; params := [];
              query := [("q", "b")] |}
    = req_method (request_of "GET" "/search?q=a&q=b").
Proof.
  split; [by vm_compute|].
  apply (query_last_value_wins search_URL two_body_JSON_parse
           (request_of "GET" "/search?q=a&q=b")).
  - by vm_compute.
  - by vm_compute.
Defined.

(** [GET /missing] on a server that has only [GET /users/:id]. *)
Lemma unmatched_request_is_500_witness :
  requestListener path_URL two_body_JSON_parse users_server
    (request_of "GET" "/missing")
  = (Ok (),
     {| res := internal_server_error (cors_headers users_server);
        middlewareIndex := 0;
        log := [RouteDispatch
                  (method {| method := "GET"; url := "/missing";
                             pathname := "/missing";
                             headers := [("host", "localhost")]; body := None;
                             params := []; query := [] |}
                   +:+ ":"
                   +:+ pathname {| method := "GET"; url := "/missing";
                                   pathname := "/missing";
                                   headers := [("host", "localhost")];
                                   body := None; params := []; query := [] |});
                ErrorLogged (TypeError "response.setHeader is not a function")] |}).
Proof.
  apply (unmatched_request_is_500 path_URL two_body_JSON_parse users_server
           (request_of "GET" "/missing") _ "missing").
  - by vm_compute.
  - discriminate.
  - reflexivity.
  - reflexivity.
  - reflexivity.
  - by vm_compute.
Defined.

End ServerExamples.

(** ** Registration order and priorities *)

Section RegistrationOrder.

Import MiddlewareManager.

Context {C A : Type}.
Implicit Types (mm : t C A) (m : IMiddleware C A).

(** [register] accepts every middleware of a list whose names are all
    different. *)
Lemma register_all_accepts (l : list (IMiddleware C A)) :
  NoDup (m_name <$> l) → ∃ mm, register_all l = Ok mm.
Proof.
  induction l as [|m l IH] using rev_ind; intros Hnd; [by eexists|].
  rewrite fmap_app in Hnd. apply NoDup_app in Hnd as (Hl & Hfresh & _).
  destruct (IH Hl) as (mm & Hmm).
  rewrite register_all_snoc, Hmm. cbn.
  destruct (register_all_sorted l mm Hmm) as (Hperm & _).
  unfold register.
  destruct (existsb _ _) eqn:Hex; [|by eexists].
  apply some_name in Hex. rewrite Hperm in Hex.
  exfalso. apply (Hfresh _ Hex). csimpl. left.
Qed.

(** ... and only such a list. *)
Lemma register_all_distinct (l : list (IMiddleware C A)) mm :
  register_all l = Ok mm → NoDup (m_name <$> l).
Proof.
  revert mm. induction l as [|m l IH] using rev_ind; intros mm Hmm;
    [constructor|].
  rewrite register_all_snoc in Hmm.
  destruct (register_all l) as [mm0| |] eqn:Hmm0; [|done|done].
  cbn in Hmm. destruct (register_all_sorted l mm0 Hmm0) as (Hperm & _).
  unfold register in Hmm.
  destruct (existsb _ _) eqn:Hex; [done|].
  rewrite fmap_app. apply NoDup_app. split; [by apply (IH mm0)|].
  split; [|apply NoDup_singleton].
  intros x Hx Hx'. csimpl in Hx'. apply list_elem_of_singleton in Hx' as ->.
  assert (existsb (λ m', bool_decide (m_name m' = m_name m)) (middlewares mm0)
          = true) as Htrue; [|congruence].
  apply some_name. by rewrite Hperm.
Qed.

(** Registration order matters among equal priorities only.  When no
    two of the middlewares have the same priority, registering them in
    any other order gives the same array. *)
Theorem registration_order_is_immaterial (l l' : list (IMiddleware C A)) mm :
  register_all l = Ok mm → l ≡ₚ l' →
  (∀ a b, a ∈ l → b ∈ l → m_priority a = m_priority b → a = b) →
  ∃ mm', register_all l' = Ok mm' ∧ middlewares mm' = middlewares mm.
Proof.
  intros Hmm Hperm Hprio.
  pose proof (register_all_distinct l mm Hmm) as Hnd.
  rewrite Hperm in Hnd.
  destruct (register_all_accepts l' Hnd) as (mm' & Hmm').
  exists mm'. split; [done|].
  destruct (register_all_sorted l mm Hmm) as (Hp & Hs & _).
  destruct (register_all_sorted l' mm' Hmm') as (Hp' & Hs' & _).
  apply (StronglySorted_unique_strong
           (λ a b, (m_priority b ≤ m_priority a)%Z)); [|done|done|].
  - intros x1 x2 Hx1 Hx2 H12 H21. apply Hprio.
    + by rewrite Hperm, <- Hp'.
    + by rewrite <- Hp.
    + lia.
  - by rewrite Hp', Hp, Hperm.
Qed.

End RegistrationOrder.

(** ** What the listener always does *)

Section ListenerInvariants.

Import HttpServer.

Implicit Types (srv : t) (request : HttpRequest) (ex : exchange)
  (req : IncomingMessage).

Lemma headers_kept_refl ex : headers_kept ex ex.
Proof. by unfold headers_kept. Qed.

Lemma headers_kept_trans ex1 ex2 ex3 :
  headers_kept ex1 ex2 → headers_kept ex2 ex3 → headers_kept ex1 ex3.
Proof. unfold headers_kept. naive_solver. Qed.

Lemma setHeader_keeps (name value : string) ex :
  headers_kept ex (setHeader name value ex).2.
Proof.
  unfold setHeader.
  destruct (res_body (res ex)); [apply headers_kept_refl|].
  destruct (negb _); [apply headers_kept_refl|].
  destruct (checkInvalidHeaderChar _); [apply headers_kept_refl|].
  intros name' Hsome. cbn [snd res res_headers].
  rewrite object_get_set. by destruct (decide _).
Qed.

Lemma end_keeps (data : payload) ex : headers_kept ex (end_ data ex).2.
Proof.
  unfold end_. destruct (res_body (res ex)); [apply headers_kept_refl|].
  cbv zeta. destruct (bool_decide _); [apply headers_kept_refl|].
  by unfold headers_kept.
Qed.

(** No call on the response takes a header away. *)
Lemma respond_keeps (call : response_call) ex : headers_kept ex (respond call ex).2.
Proof.
  destruct call as [code|data|data|name value]; simpl.
  - by unfold headers_kept.
  - rewrite bind_unfold.
    pose proof (setHeader_keeps "Content-Type" "application/json" ex) as H1.
    destruct (setHeader _ _ ex) as [[[]| |] ex1]; cbn [snd] in *; try done.
    eapply headers_kept_trans; [done|apply end_keeps].
  - rewrite bind_unfold.
    pose proof (setHeader_keeps "Content-Type" "text/plain" ex) as H1.
    destruct (setHeader _ _ ex) as [[[]| |] ex1]; cbn [snd] in *; try done.
    eapply headers_kept_trans; [done|apply end_keeps].
  - apply setHeader_keeps.
Qed.

Lemma run_script_keeps (nxt : M unit) (s : script response_call) :
  (∀ ex, headers_kept ex (nxt ex).2) →
  ∀ ex, headers_kept ex (run_script respond nxt s ex).2.
Proof.
  intros Hnxt. induction s as [|e|a k IH|k IH]; intros ex; simpl;
    try apply headers_kept_refl.
  - pose proof (respond_keeps a ex) as Ha.
    destruct (respond a ex) as [[[]| |] ex1]; cbn [snd] in *; try done.
    eapply headers_kept_trans; [done|apply IH].
  - pose proof (Hnxt ex) as Hn.
    destruct (nxt ex) as [[[]| |] ex1]; cbn [snd] in *; try done.
    eapply headers_kept_trans; [done|apply IH].
Qed.

Lemma executeRoute_keeps srv request ex :
  headers_kept ex (executeRoute srv request ex).2.
Proof.
  assert (∀ handler request' ex',
            headers_kept ex' (call_handler handler request' ex').2) as Hcall.
  { intros handler request' ex'. unfold call_handler.
    rewrite bind_unfold. unfold record. cbv beta iota.
    eapply headers_kept_trans; [|apply run_script_keeps].
    - by unfold headers_kept.
    - intros ex0. apply headers_kept_refl. }
  unfold executeRoute. rewrite bind_unfold. unfold record. cbv beta iota.
  destruct (map_get (routes srv) _) as [handler|].
  { eapply headers_kept_trans; [|apply Hcall]. by unfold headers_kept. }
  destruct (findParameterizedRoute _ _ _) as [[handler p]|].
  { eapply headers_kept_trans; [|apply Hcall]. by unfold headers_kept. }
  by unfold headers_kept.
Qed.

Lemma next_keeps (fuel : nat) srv request :
  ∀ ex, headers_kept ex (next fuel srv request ex).2.
Proof.
  induction fuel as [|fuel IH]; intros ex; [apply headers_kept_refl|].
  rewrite next_unfold_http.
  destruct (decide (middlewareIndex ex < length (middlewares srv)));
    [|apply executeRoute_keeps].
  destruct (middlewares srv !! middlewareIndex ex) as [mw|];
    [|by unfold headers_kept].
  eapply headers_kept_trans; [|by apply run_script_keeps].
  by unfold headers_kept.
Qed.

Lemma sendErrorResponse_keeps (code : Z) (message : string) ex :
  headers_kept ex (sendErrorResponse the_ServerResponse code message ex).2.
Proof.
  unfold sendErrorResponse. rewrite bind_unfold.
  unfold set_statusCode. cbv beta iota. rewrite bind_unfold.
  match goal with |- context [setHeader ?n ?v ?ex1] =>
    pose proof (setHeader_keeps n v ex1) as H1;
    destruct (setHeader n v ex1) as [[[]| |] ex2] end; cbn [snd] in *; try done.
  eapply headers_kept_trans; [done|apply end_keeps].
Qed.

Lemma bind_frame (m : M unit) (f : unit → M unit) ex :
  (middlewareIndex (m ex).2 = middlewareIndex ex ∧ (m ex).1 ≠ OutOfFuel) →
  (∀ ex', middlewareIndex (f () ex').2 = middlewareIndex ex'
          ∧ (f () ex').1 ≠ OutOfFuel) →
  middlewareIndex ((m ≫= f) ex).2 = middlewareIndex ex
  ∧ ((m ≫= f) ex).1 ≠ OutOfFuel.
Proof.
  intros [Hi Hne] Hf. rewrite bind_unfold.
  destruct (m ex) as [[[]| |] ex1]; cbn [fst snd] in *; [|done|done].
  destruct (Hf ex1) as [Hi' Hne']. split; [congruence|done].
Qed.

Lemma respond_frame' (call : response_call) ex :
  middlewareIndex (respond call ex).2 = middlewareIndex ex
  ∧ (respond call ex).1 ≠ OutOfFuel.
Proof. by destruct (respond_frame call ex) as (? & _ & ?). Qed.

Lemma applyCORSHeaders_frame srv ex :
  middlewareIndex (applyCORSHeaders srv ex).2 = middlewareIndex ex
  ∧ (applyCORSHeaders srv ex).1 ≠ OutOfFuel.
Proof.
  unfold applyCORSHeaders. cbv zeta.
  apply bind_frame; [apply respond_frame'|]. intros ex1.
  apply bind_frame; [apply respond_frame'|]. intros ex2.
  apply bind_frame; [apply respond_frame'|]. intros ex3.
  destruct (default false _); [apply respond_frame'|done].
Qed.

Section Platform.

Variable URL : string → string → option (string * list (string * string)).
Variable JSON_parse : string → option JSON.

Lemma handleRequest_total srv req :
  (handleRequest URL JSON_parse srv req
     {| res := new_ServerResponse; middlewareIndex := 0; log := [] |}).1
  ≠ OutOfFuel.
Proof.
  unfold handleRequest.
  destruct (parseRequest URL JSON_parse req) as [request|e|] eqn:Hparse; [|done|].
  - rewrite bind_unfold.
    set (ex0 := {| res := new_ServerResponse; middlewareIndex := 0; log := [] |}).
    destruct (applyCORSHeaders_frame srv ex0) as [Hi Hne].
    destruct (applyCORSHeaders srv ex0) as [[[]| |] ex1]; cbn [fst snd] in *;
      [|done|done].
    destruct (bool_decide (method request = "OPTIONS")).
    + apply bind_frame; [apply respond_frame'|]. intros ex2. apply respond_frame'.
    + apply next_total; rewrite Hi; simpl; lia.
  - unfold parseRequest in Hparse.
    destruct (URL _ _) as [[path searchParams]|]; [|done].
    destruct (bool_decide _); [|done].
    unfold parseBody in Hparse.
    destruct (req_error req); [done|].
    destruct (includes _ _); [|done].
    destruct (bool_decide _); [done|]. by destruct (JSON_parse _).
Qed.

(** The listener comes to an end, whatever the middlewares and the
    handler do: calls of [next()] nest no deeper than there are
    middlewares. *)
Theorem requestListener_terminates srv req :
  (requestListener URL JSON_parse srv req).1 ≠ OutOfFuel.
Proof.
  unfold requestListener.
  pose proof (handleRequest_total srv req) as Hne.
  destruct (handleRequest _ _ _ _ _) as [[[]|e|] ex']; cbn [fst] in *; try done.
  rewrite bind_unfold. unfold record. cbv beta iota.
  unfold sendErrorResponse. rewrite bind_unfold.
  unfold set_statusCode. cbv beta iota. rewrite bind_unfold.
  set (ex1 := {| res := _ |}).
  destruct (setHeader_frame "Content-Type" "application/json" ex1) as (_ & _ & Hs).
  destruct (setHeader _ _ ex1) as [[[]| |] ex2]; [|done|done].
  apply end_frame.
Qed.

(** The CORS headers are on every answer to a request that could be
    parsed, when node takes the configured origin as a header value:
    once [applyCORSHeaders] has set them, neither a middleware nor a
    handler nor the error path can take a header away, though a handler
    can set one of them anew, under a name in any case.  When node
    refuses the configured origin, [applyCORSHeaders] throws on its
    first header and the answer is [500] without any of them. *)
Theorem cors_headers_on_every_answer srv req request :
  parseRequest URL JSON_parse req = Ok request →
  (cors_accepted srv = true →
   ∀ name,
     name ∈ ["Access-Control-Allow-Origin"; "Access-Control-Allow-Methods";
             "Access-Control-Allow-Headers"]
     ∨ (name = "Access-Control-Allow-Credentials"
        ∧ (credentials <$> cors (config srv)) = Some true) →
     is_Some
       (object_get toLowerCase
          (res_headers (res (requestListener URL JSON_parse srv req).2)) name))
  ∧ (cors_accepted srv = false →
     requestListener URL JSON_parse srv req
     = (Ok (),
        {| res := internal_server_error [];
           middlewareIndex := 0;
           log := [ErrorLogged (ERR_INVALID_CHAR "Access-Control-Allow-Origin")] |})).
Proof.
  intros Hparse. split; intros Hcors.
  2: { unfold requestListener, handleRequest. rewrite Hparse, bind_unfold.
       unfold new_ServerResponse.
       rewrite applyCORSHeaders_refused by done. by rewrite listener_catch. }
  intros name Hname.
  set (ex1 := {| res := {| statusCode := 200; res_headers := cors_headers srv;
                           res_body := None |};
                 middlewareIndex := 0; log := [] |}).
  assert (headers_kept ex1
            (handleRequest URL JSON_parse srv req
               {| res := new_ServerResponse; middlewareIndex := 0; log := [] |}).2)
    as Hkept.
  { unfold handleRequest. rewrite Hparse, bind_unfold.
    unfold new_ServerResponse. rewrite applyCORSHeaders_new by done. fold ex1.
    destruct (bool_decide (method request = "OPTIONS")).
    - rewrite bind_unfold.
      pose proof (respond_keeps (status 200) ex1) as H1.
      destruct (respond (status 200) ex1) as [[[]| |] ex2]; cbn [snd] in *;
        try done.
      eapply headers_kept_trans; [done|exact (respond_keeps (send "") ex2)].
    - apply next_keeps. }
  assert (headers_kept ex1 (requestListener URL JSON_parse srv req).2) as Hall.
  { unfold requestListener.
    destruct (handleRequest _ _ _ _ _) as [[[]|e|] ex']; cbn [snd] in *; try done.
    rewrite bind_unfold. unfold record. cbv beta iota.
    eapply headers_kept_trans; [done|].
    eapply headers_kept_trans; [|apply sendErrorResponse_keeps].
    by unfold headers_kept. }
  apply Hall. unfold ex1. cbn [res res_headers]. unfold cors_headers.
  destruct Hname as [Hname|[-> Hcred]].
  - repeat (apply elem_of_cons in Hname as [->|Hname]); [by eexists..|].
    by apply elem_of_nil in Hname.
  - rewrite Hcred. by eexists.
Qed.

End Platform.

End ListenerInvariants.

Section InvariantExamples.

(** [ten], [fifty], [thirty] and [fifty], [ten], [thirty] give the same
    array. *)
Lemma registration_order_is_immaterial_witness :
  ∃ mm',
    MiddlewareManager.register_all
      [passing "fifty" 50; passing "ten" 10; passing "thirty" 30] = Ok mm'
    ∧ MiddlewareManager.middlewares mm'
      = MiddlewareManager.middlewares (manager_with three_middlewares).
Proof.
  apply (registration_order_is_immaterial three_middlewares
           [passing "fifty" 50; passing "ten" 10; passing "thirty" 30]
           (manager_with three_middlewares)).
  - by vm_compute.
  - apply perm_swap.
  - intros a b Ha Hb Heq. unfold three_middlewares in Ha, Hb.
    repeat (apply elem_of_cons in Ha as [->|Ha]);
      repeat (apply elem_of_cons in Hb as [->|Hb]);
      try done; try (by inversion Ha); by inversion Hb.
Defined.

(** The 500 for [GET /missing] carries the CORS headers. *)
Lemma cors_headers_on_every_answer_witness :
  is_Some
    (object_get toLowerCase
       (HttpServer.res_headers
          (HttpServer.res
             (HttpServer.requestListener path_URL two_body_JSON_parse
                users_server (request_of "GET" "/missing")).2))
       "access-control-allow-origin").
Proof.
  apply (proj1 (cors_headers_on_every_answer path_URL two_body_JSON_parse
                  users_server (request_of "GET" "/missing")
                  {| method := "GET"; url := "/missing"; pathname := "/missing";
                     headers := [("host", "localhost")]; body := None;
                     params := []; query := [] |} eq_refl) eq_refl
           "Access-Control-Allow-Origin").
  left. apply list_elem_of_here.
Defined.

End InvariantExamples.

(** ** The rate limiter *)

Section RateLimit.

Import RateLimitMiddleware.

Implicit Types (options : RateLimitOptions) (req : Context)
  (requests : list (string * RequestCount)).

(** Inside a window: the client has a count [c] and a window that began
    at [start], and the clock stays within [windowMs] of [start].  Then
    a request passes exactly while the count is below [max]. *)
Lemma serve_in_window options req (start : Z) :
  response req = true →
  ∀ (clock : list (Z * Z)) (c : Z) requests,
    map_get requests (getClientId req) = Some {| count := c; windowStart := start |} →
    (∀ now1 now2, (now1, now2) ∈ clock →
       (now1 - start ≤ windowMs options ∧ now2 - start ≤ windowMs options)%Z) →
    (serve options req clock requests).1
    = (λ i : nat, bool_decide (c + Z.of_nat i < max options)%Z)
        <$> seq 0 (length clock).
Proof.
  intros Hres. induction clock as [|[now1 now2] clock IH];
    intros c requests Hget Hclock; [done|].
  destruct (Hclock now1 now2 ltac:(left)) as [H1 H2].
  assert (∀ n1 n2, (n1, n2) ∈ clock →
            (n1 - start ≤ windowMs options ∧ n2 - start ≤ windowMs options)%Z)
    as Hrest by (intros n1 n2 Hin; apply Hclock; by right).
  cbn [serve length seq fmap list_fmap].
  unfold execute, isRateLimited. rewrite Hget. cbn [windowStart count].
  rewrite decide_False by lia. rewrite Hres, andb_true_r.
  destruct (bool_decide (max options ≤ c)%Z) eqn:Hlim.
  - apply bool_decide_eq_true in Hlim.
    specialize (IH c requests Hget Hrest).
    destruct (serve options req clock requests) as [passed requests2].
    cbn [fst awaits_next] in *. rewrite bool_decide_eq_false_2 by lia.
    f_equal. rewrite IH, <- fmap_S_seq, <- list_fmap_compose.
    apply list_fmap_ext. intros i x _. cbn.
    rewrite !bool_decide_eq_false_2 by lia. done.
  - apply bool_decide_eq_false in Hlim.
    unfold recordRequest. rewrite Hget. cbn [windowStart count].
    rewrite decide_False by lia.
    specialize (IH (c + 1)%Z
                  (map_set requests (getClientId req)
                     {| count := c + 1; windowStart := start |})
                  ltac:(by rewrite map_get_set, decide_True) Hrest).
    destruct (serve options req clock _) as [passed requests2].
    cbn [fst awaits_next] in *. rewrite bool_decide_eq_true_2 by lia.
    f_equal. rewrite IH, <- fmap_S_seq, <- list_fmap_compose.
    apply list_fmap_ext. intros i x _. cbn.
    apply bool_decide_ext. lia.
Qed.

(** The rate limit.  A client without a window sends requests, and the
    clock stays within [windowMs] of the moment its first request was
    recorded.  If the context has a response, the first [max] requests
    get to [next()] and every later one is answered 429; the first one
    gets through even when [max] is zero or less. *)
Theorem rate_limit_in_window options req (now1 now2 : Z)
  (clock : list (Z * Z)) requests :
  response req = true →
  map_get requests (getClientId req) = None →
  (∀ n1 n2, (n1, n2) ∈ clock →
     (n1 - now2 ≤ windowMs options ∧ n2 - now2 ≤ windowMs options)%Z) →
  (serve options req ((now1, now2) :: clock) requests).1
  = (λ i : nat, bool_decide (Z.of_nat i < Z.max 1 (max options))%Z)
      <$> seq 0 (S (length clock)).
Proof.
  intros Hres Hnone Hclock.
  cbn [serve length seq fmap list_fmap].
  unfold execute, isRateLimited. rewrite Hnone. cbn [andb].
  unfold recordRequest. rewrite Hnone.
  pose proof (serve_in_window options req now2 Hres clock 1
                (map_set requests (getClientId req)
                   {| count := 1; windowStart := now2 |})
                ltac:(by rewrite map_get_set, decide_True) Hclock) as Hrest.
  destruct (serve options req clock _) as [passed requests2].
  cbn [fst awaits_next] in *. rewrite bool_decide_eq_true_2 by lia.
  f_equal. rewrite Hrest, <- fmap_S_seq, <- list_fmap_compose.
  apply list_fmap_ext. intros i x _. cbn.
  apply bool_decide_ext. lia.
Qed.

(** Without a response in the context nothing is held back: every
    request gets to [next()], however many there were. *)
Theorem rate_limit_needs_response options req (clock : list (Z * Z)) requests :
  response req = false →
  (serve options req clock requests).1 = replicate (length clock) true.
Proof.
  intros Hres. revert requests.
  induction clock as [|[now1 now2] clock IH]; intros requests; [done|].
  cbn [serve length replicate]. unfold execute.
  destruct (isRateLimited options (getClientId req) now1 requests)
    as [limited requests1].
  rewrite Hres, andb_false_r.
  specialize (IH (recordRequest options (getClientId req) now2 requests1)).
  destruct (serve options req clock _) as [passed requests2].
  cbn [fst awaits_next] in *. by rewrite IH.
Qed.

(** The counts stay between one and [max], as long as [max] is at least
    one and the contexts have a response: whoever sends the request and
    whatever the clock says. *)
Theorem rate_limit_counts_bounded options req (now1 now2 : Z) requests :
  (1 ≤ max options)%Z → response req = true →
  counts_bounded options requests →
  counts_bounded options (execute options req now1 now2 requests).2.
Proof.
  intros Hmax Hres Hinv. unfold execute, isRateLimited.
  destruct (map_get requests (getClientId req)) as [rc|] eqn:Hget.
  - destruct (decide (windowMs options < now1 - windowStart rc)%Z).
    + cbn [andb]. unfold recordRequest.
      rewrite map_get_delete, decide_True by done. cbn [snd].
      intros k r. rewrite map_get_set.
      destruct (decide (getClientId req = k)); [intros [= <-]; simpl; lia|].
      rewrite map_get_delete. destruct (decide _); [done|]. apply Hinv.
    + rewrite Hres, andb_true_r.
      destruct (bool_decide (max options ≤ count rc)%Z) eqn:Hlim; [done|].
      apply bool_decide_eq_false in Hlim.
      unfold recordRequest. rewrite Hget. cbn [snd].
      pose proof (Hinv _ _ Hget) as Hrc.
      destruct (decide _); intros k r; rewrite map_get_set;
        (destruct (decide (getClientId req = k));
           [intros [= <-]; simpl; lia | apply Hinv]).
  - cbn [andb]. unfold recordRequest. rewrite Hget. cbn [snd].
    intros k r. rewrite map_get_set.
    destruct (decide (getClientId req = k)); [intros [= <-]; simpl; lia|].
    apply Hinv.
Qed.

End RateLimit.

Section RateLimitExamples.

Import RateLimitMiddleware.

(** Four requests in a window that allows two. *)
Lemma rate_limit_in_window_witness :
  (serve {| windowMs := 1000; max := 2 |}
     {| ip := Some "10.0.0.1"; forwarded_for := None; response := true |}
     [(0, 0); (10, 10); (20, 20); (30, 30)]%Z []).1
  = [true; true; false; false]
  ∧ (serve {| windowMs := 1000; max := 2 |}
       {| ip := Some "10.0.0.1"; forwarded_for := None; response := true |}
       ((0, 0) :: [(10, 10); (20, 20); (30, 30)])%Z []).1
    = (λ i : nat,
         bool_decide (Z.of_nat i < Z.max 1 (max {| windowMs := 1000; max := 2 |}))%Z)
        <$> seq 0 (S (length [(10, 10); (20, 20); (30, 30)]%Z)).
Proof.
  split; [by vm_compute|].
  apply (rate_limit_in_window {| windowMs := 1000; max := 2 |}
           {| ip := Some "10.0.0.1"; forwarded_for := None; response := true |}).
  - reflexivity.
  - reflexivity.
  - intros n1 n2 Hin.
    repeat (apply elem_of_cons in Hin as [[= -> ->]|Hin]; [simpl; lia|]).
    inversion Hin.
Defined.

(** The same four requests without a response in the context. *)
Lemma rate_limit_needs_response_witness :
  (serve {| windowMs := 1000; max := 2 |}
     {| ip := Some "10.0.0.1"; forwarded_for := None; response := false |}
     [(0, 0); (10, 10); (20, 20); (30, 30)]%Z []).1
  = replicate (length [(0, 0); (10, 10); (20, 20); (30, 30)]%Z) true.
Proof.
  apply (rate_limit_needs_response {| windowMs := 1000; max := 2 |}
           {| ip := Some "10.0.0.1"; forwarded_for := None; response := false |}).
  reflexivity.
Defined.

Lemma rate_limit_counts_bounded_witness :
  counts_bounded {| windowMs := 1000; max := 2 |}
    (execute {| windowMs := 1000; max := 2 |}
       {| ip := None; forwarded_for := Some "10.0.0.2"; response := true |}
       5 5 []).2.
Proof.
  apply (rate_limit_counts_bounded {| windowMs := 1000; max := 2 |}
           {| ip := None; forwarded_for := Some "10.0.0.2"; response := true |}).
  - simpl. lia.
  - reflexivity.
  - intros k r Hget. inversion Hget.
Defined.

End RateLimitExamples.

(** ** The event emitter *)

Section Emitter.

Import EventEmitter.

Implicit Types (em : t) (l : listener) (event name : string).

Lemma map_set_keys_NoDup {V : Type} (m : list (string * V)) (k : string) (v : V) :
  NoDup (map_keys m) → NoDup (map_keys (map_set m k v)).
Proof.
  intros Hnd. destruct (decide (k ∈ map_keys m)).
  - by rewrite map_set_keys_existing.
  - rewrite map_set_keys_new by done. apply NoDup_app.
    split; [done|]. split; [|apply NoDup_singleton].
    intros x Hx Hx'. by apply list_elem_of_singleton in Hx' as ->.
Qed.

Lemma map_delete_keys_NoDup {V : Type} (m : list (string * V)) (k : string) :
  NoDup (map_keys m) → NoDup (map_keys (map_delete m k)).
Proof. intros Hnd. rewrite map_delete_keys. by apply NoDup_filter. Qed.

Lemma new_well_formed : well_formed new.
Proof. split; [constructor|]. intros event ls Hget. inversion Hget. Qed.

Lemma on_well_formed event l em :
  well_formed em →
  (∀ serial name, l = onceWrapper serial name → serial < wrappers em) →
  well_formed (on event l em).
Proof.
  intros [Hkeys Hsets] Hl. split; [by apply map_set_keys_NoDup|].
  intros event' ls. cbn [on listeners wrappers]. rewrite map_get_set.
  destruct (decide (event = event')) as [<-|]; [|apply Hsets].
  intros [= <-]. unfold Set_add.
  destruct (map_get (listeners em) event) as [ls0|] eqn:Hget; simpl.
  - destruct (Hsets event ls0 Hget) as (Hne & Hnd & Hser).
    destruct (decide (l ∈ ls0)); [done|].
    split; [by destruct ls0|]. split.
    + apply NoDup_app. split; [done|]. split; [|apply NoDup_singleton].
      intros x Hx Hx'. by apply list_elem_of_singleton in Hx' as ->.
    + intros serial name Hin. apply elem_of_app in Hin as [Hin|Hin].
      * by apply (Hser serial name).
      * apply list_elem_of_singleton in Hin. by apply (Hl serial name).
  - destruct (decide (l ∈ [])) as [Hin|_]; [inversion Hin|].
    split; [done|]. split; [apply NoDup_singleton|].
    intros serial name Hin. apply list_elem_of_singleton in Hin.
    by apply (Hl serial name).
Qed.

Lemma once_well_formed event name em :
  well_formed em → well_formed (once event name em).
Proof.
  intros [Hkeys Hsets]. unfold once. apply on_well_formed.
  - split; [done|]. intros event' ls Hget.
    destruct (Hsets event' ls Hget) as (Hne & Hnd & Hser).
    split; [done|]. split; [done|].
    intros serial name' Hin. specialize (Hser serial name' Hin). simpl. lia.
  - intros serial name' [= <- <-]. simpl. lia.
Qed.

Lemma off_well_formed event l em :
  well_formed em → well_formed (off event l em).
Proof.
  intros [Hkeys Hsets]. unfold off.
  destruct (map_get (listeners em) event) as [ls0|] eqn:Hget; [|done].
  destruct (Hsets event ls0 Hget) as (Hne & Hnd & Hser).
  destruct (decide (length (Set_delete ls0 l) = 0)) as [Hlen|Hlen].
  - split; [by apply map_delete_keys_NoDup|].
    intros event' ls. cbn [listeners wrappers]. rewrite map_get_delete.
    destruct (decide (event = event')); [done|]. apply Hsets.
  - split; [by apply map_set_keys_NoDup|].
    intros event' ls. cbn [listeners wrappers]. rewrite map_get_set.
    destruct (decide (event = event')) as [<-|]; [|apply Hsets].
    intros [= <-]. split; [by destruct (Set_delete ls0 l)|].
    split; [by apply NoDup_filter|].
    intros serial name Hin. apply list_elem_of_filter in Hin as [_ Hin].
    by apply (Hser serial name).
Qed.

(** What is left of a set, as the map has it: no entry for an empty
    set. *)
Lemma off_entry event l em (ls : list listener) :
  map_get (listeners em) event = Some ls →
  map_get (listeners (off event l em)) event
  = (if decide (length (Set_delete ls l) = 0) then None
     else Some (Set_delete ls l))
  ∧ (∀ event', event' ≠ event →
       map_get (listeners (off event l em)) event'
       = map_get (listeners em) event')
  ∧ wrappers (off event l em) = wrappers em.
Proof.
  intros Hget. unfold off. rewrite Hget. cbn [listeners wrappers].
  destruct (decide (length (Set_delete ls l) = 0)).
  - rewrite map_get_delete, decide_True by done. split; [done|]. split; [|done].
    intros event' Hne. rewrite map_get_delete. by rewrite decide_False.
  - rewrite map_get_set, decide_True by done. split; [done|]. split; [|done].
    intros event' Hne. rewrite map_get_set. by rewrite decide_False.
Qed.

Lemma Set_delete_fresh (ls : list listener) l :
  l ∉ ls → Set_delete ls l = ls.
Proof.
  intros Hl. unfold Set_delete. induction ls as [|x ls IH]; [done|].
  apply not_elem_of_cons in Hl as [Hne Hl].
  rewrite filter_cons_True by done. by rewrite IH.
Qed.

Lemma emit_loop_spec event (throws : string → option error) :
  ∀ (rest done : list listener) em,
    NoDup (done ++ rest) →
    map_get (listeners em) event
    = (match filter (λ l, is_wrapper l = false) done ++ rest with
       | [] => None
       | s => Some s
       end) →
    called (emit_loop event throws rest em).2 = target <$> rest
    ∧ map_get (listeners (emit_loop event throws rest em).1) event
      = (match filter (λ l, is_wrapper l = false) (done ++ rest) with
         | [] => None
         | s => Some s
         end)
    ∧ (∀ event', event' ≠ event →
         map_get (listeners (emit_loop event throws rest em).1) event'
         = map_get (listeners em) event')
    ∧ wrappers (emit_loop event throws rest em).1 = wrappers em.
Proof.
  induction rest as [|l rest IH]; intros done em Hnd Hget.
  - simpl. rewrite app_nil_r in *. done.
  - cbn [emit_loop].
    set (kept := filter (λ l, is_wrapper l = false) done) in *.
    assert (NoDup ((done ++ [l]) ++ rest)) as Hnd'
      by by rewrite <- app_assoc.
    assert ((l ∉ kept) ∧ (l ∉ rest)) as [Hl1 Hl2].
    { apply NoDup_app in Hnd as (_ & Hdisj & Hrest).
      apply NoDup_cons in Hrest as [Hl _]. split; [|done].
      intros Hin. apply list_elem_of_filter in Hin as [_ Hin].
      apply (Hdisj l Hin). left. }
    assert (map_get (listeners em) event = Some (kept ++ l :: rest)) as Hsome.
    { rewrite Hget. by destruct kept. }
    destruct (is_wrapper l) eqn:Hw.
    + destruct (off_entry event l em _ Hsome) as (Hoff & Hother & Hwr).
      assert (Set_delete (kept ++ l :: rest) l = kept ++ rest) as Hdel.
      { unfold Set_delete. rewrite filter_app, filter_cons_False by naive_solver.
        fold (Set_delete kept l). fold (Set_delete rest l).
        by rewrite !Set_delete_fresh. }
      rewrite Hdel in Hoff.
      specialize (IH (done ++ [l]) (off event l em) Hnd').
      rewrite filter_app, filter_cons_False, filter_nil, app_nil_r in IH
        by (rewrite Hw; done).
      fold kept in IH.
      specialize (IH ltac:(rewrite Hoff; by destruct (kept ++ rest))).
      destruct (emit_loop event throws rest (off event l em)) as [em2 tr].
      cbn [fst snd] in *. destruct IH as (Hcalled & Hentry & Hothers & Hwr2).
      split.
      { unfold called in *. csimpl. rewrite omap_app, Hcalled.
        by destruct (throws (target l)). }
      split; [by rewrite <- app_assoc in Hentry|].
      split; [|congruence].
      intros event' Hne. rewrite Hothers by done. by apply Hother.
    + specialize (IH (done ++ [l]) em Hnd').
      rewrite filter_app, filter_cons_True, filter_nil in IH by done.
      fold kept in IH. rewrite <- app_assoc in IH.
      specialize (IH Hget).
      destruct (emit_loop event throws rest em) as [em2 tr].
      cbn [fst snd] in *. destruct IH as (Hcalled & Hentry & Hothers & Hwr2).
      split.
      { unfold called in *. csimpl. rewrite omap_app, Hcalled.
        by destruct (throws (target l)). }
      split; [by rewrite <- app_assoc in Hentry|]. done.
Qed.

Lemma emit_called event (throws : string → option error) em
  (eventListeners : list listener) :
  well_formed em →
  map_get (listeners em) event = Some eventListeners →
  called (emit event throws em).2 = target <$> eventListeners.
Proof.
  intros [Hkeys Hsets] Hget.
  destruct (Hsets event eventListeners Hget) as (Hne & Hnd & Hser).
  pose proof (emit_loop_spec event throws eventListeners [] em Hnd
                ltac:(rewrite Hget; simpl; by destruct eventListeners))
    as (Hcalled & _).
  unfold emit. by rewrite Hget.
Qed.

(** [emit] calls every listener of the event once, in the order in
    which they were added, whether or not some of them throw; the
    wrappers that [once] made are gone afterwards and the other
    listeners stay, the event itself going when nothing stays; no other
    event is touched; and a second [emit] calls the listeners that
    stayed. *)
Theorem emit_calls_every_listener event (throws : string → option error) em
  (eventListeners : list listener) :
  well_formed em →
  map_get (listeners em) event = Some eventListeners →
  called (emit event throws em).2 = target <$> eventListeners
  ∧ map_get (listeners (emit event throws em).1) event
    = (match filter (λ l, is_wrapper l = false) eventListeners with
       | [] => None
       | s => Some s
       end)
  ∧ (∀ event', event' ≠ event →
       map_get (listeners (emit event throws em).1) event'
       = map_get (listeners em) event')
  ∧ called (emit event throws (emit event throws em).1).2
    = target <$> filter (λ l, is_wrapper l = false) eventListeners.
Proof.
  intros [Hkeys Hsets] Hget.
  destruct (Hsets event eventListeners Hget) as (Hne & Hnd & Hser).
  pose proof (emit_loop_spec event throws eventListeners [] em Hnd
                ltac:(rewrite Hget; simpl; by destruct eventListeners))
    as (Hcalled & Hentry & Hothers & Hwr).
  assert (emit event throws em = emit_loop event throws eventListeners em)
    as Hemit by (unfold emit; by rewrite Hget).
  rewrite Hemit.
  split; [done|]. split; [done|]. split; [done|].
  simpl in Hentry. unfold emit. rewrite Hentry.
  set (kept := filter (λ l, is_wrapper l = false) eventListeners) in *.
  destruct kept as [|k kept'] eqn:Hkept; [done|].
  assert (NoDup (k :: kept')) as Hndk.
  { rewrite <- Hkept. by apply NoDup_filter. }
  pose proof (emit_loop_spec event throws (k :: kept') []
                (emit_loop event throws eventListeners em).1 Hndk
                ltac:(by rewrite Hentry)) as (Hcalled2 & _).
  done.
Qed.

(** [off] does not undo [once]: the listener that [once] adds is a
    wrapper, so taking the function itself off leaves the wrapper in,
    and the next [emit] calls the function. *)
Theorem off_misses_once_listener event name (throws : string → option error) em :
  well_formed em →
  let em' := off event (Function name) (once event name em) in
  onceWrapper (wrappers em) name
    ∈ default [] (map_get (listeners em') event)
  ∧ name ∈ called (emit event throws em').2
  ∧ well_formed em'.
Proof.
  intros Hwf em'.
  pose proof (once_well_formed event name em Hwf) as Hwf1.
  pose proof (off_well_formed event (Function name) _ Hwf1) as Hwf2.
  fold em' in Hwf2.
  assert (∃ ls, map_get (listeners (once event name em)) event = Some ls
                ∧ onceWrapper (wrappers em) name ∈ ls) as (ls & Hget & Hin).
  { unfold once, on. cbn [listeners wrappers].
    rewrite map_get_set, decide_True by done. eexists. split; [done|].
    unfold Set_add. destruct (decide _); [done|].
    apply elem_of_app. right. left. }
  assert (onceWrapper (wrappers em) name ∈ Set_delete ls (Function name))
    as Hin'.
  { apply list_elem_of_filter. split; [done|done]. }
  destruct (off_entry event (Function name) _ ls Hget) as (Hoff & _ & _).
  fold em' in Hoff.
  destruct (decide (length (Set_delete ls (Function name)) = 0)) as [Hlen|_].
  { destruct (Set_delete ls (Function name)); [inversion Hin'|done]. }
  split; [by rewrite Hoff|]. split; [|done].
  rewrite (emit_called event throws em' _ Hwf2 Hoff). apply list_elem_of_fmap.
  by exists (onceWrapper (wrappers em) name).
Qed.

End Emitter.

Section EmitterExamples.

Import EventEmitter.

Lemma lifecycle_emitter_well_formed : well_formed lifecycle_emitter.
Proof.
  unfold lifecycle_emitter.
  apply on_well_formed; [|done].
  apply once_well_formed.
  apply on_well_formed; [|done].
  apply new_well_formed.
Qed.

(** [audit], [banner] and [metrics] are called in that order although
    [banner] throws; the second time [banner] is not called. *)
Lemma emit_calls_every_listener_witness :
  (emit "app:initialised" banner_throws lifecycle_emitter).2
  = [Called "audit"; Called "banner";
     ErrorLogged "app:initialised" (Thrown "no terminal"); Called "metrics"]
  ∧ called (emit "app:initialised" banner_throws lifecycle_emitter).2
    = target <$> [Function "audit"; onceWrapper 0 "banner"; Function "metrics"]
  ∧ map_get
      (listeners (emit "app:initialised" banner_throws lifecycle_emitter).1)
      "app:initialised"
    = (match
         filter (λ l, is_wrapper l = false)
           [Function "audit"; onceWrapper 0 "banner"; Function "metrics"]
       with
       | [] => None
       | s => Some s
       end)
  ∧ (∀ event', event' ≠ "app:initialised" →
       map_get
         (listeners (emit "app:initialised" banner_throws lifecycle_emitter).1)
         event'
       = map_get (listeners lifecycle_emitter) event')
  ∧ called
      (emit "app:initialised" banner_throws
         (emit "app:initialised" banner_throws lifecycle_emitter).1).2
    = target
        <$> filter (λ l, is_wrapper l = false)
              [Function "audit"; onceWrapper 0 "banner"; Function "metrics"].
Proof.
  split; [by vm_compute|].
  apply (emit_calls_every_listener "app:initialised" banner_throws
           lifecycle_emitter).
  - apply lifecycle_emitter_well_formed.
  - by vm_compute.
Defined.

(** [once] and then [off] for the same function: it is still called. *)
Lemma off_misses_once_listener_witness :
  (emit "app:error" banner_throws
     (off "app:error" (Function "report") (once "app:error" "report" new))).2
  = [Called "report"]
  ∧ let em' := off "app:error" (Function "report") (once "app:error" "report" new) in
    onceWrapper (wrappers new) "report"
      ∈ default [] (map_get (listeners em') "app:error")
    ∧ "report" ∈ called (emit "app:error" banner_throws em').2
    ∧ well_formed em'.
Proof.
  split; [by vm_compute|].
  apply (off_misses_once_listener "app:error" "report" banner_throws new).
  apply new_well_formed.
Defined.

End EmitterExamples.
